(** * Pattern Illustrator: the keyframe animation engine (animation.js)

    A shallow embedding of [window.Anim] and of the tweening functions
    behind it: [centroidOf], [lengthOf], [strokeMatchCost], [matchStrokes],
    [ghostFromStrokeLike], [resamplePointsLocal], [tweenTwoStrokes],
    [tweenDrawingsMulti], [Anim.start] and [Anim.drawFrame].

    Conventions of the embedding.
    - A JavaScript number is a rational extended with NaN and the two
      infinities ([num]); the sign of zero is not represented.  The
      functions of the first part compute without rounding; the theorems
      on them conclude what rounding does not change (what is thrown, how
      many elements come out, which frame is drawn) or name the value the
      doubles approximate.  The functions on whose values a claim depends
      are embedded a second time in [Rounded], where every operation rounds
      its result to a double ([roundDouble]: to nearest, ties to even) and
      overflows to an infinity.
    - A JavaScript array is a list; reading past its end gives [undefined],
      and reading a property of [undefined] throws a TypeError ([Throw]).
    - A sample count [N] is an integer, as at every call in the program
      (60 and 40).
    - p5.js supplies [dist], [lerp], [constrain] and [millis].  [lerp] and
      [constrain] are written out from their p5.js definitions, [millis()]
      is the argument [now], and [dist] is an argument of every function
      that calls it; the properties of [dist] a proof relies on are collected
      in [DistSpec]. *)

From Stdlib Require Import String.
From Stdlib Require Import QArith Qround Qabs ZArith List Lia Lqa Bool.
From Stdlib Require Import Permutation Sorted.
Import ListNotations.

(* ------------------------------------------------------------------ *)
(** ** JavaScript numbers *)

Inductive num : Type :=
| NaN
| NInf
| Fin (q : Q)
| PInf.

Definition ofZ (z : Z) : num := Fin (inject_Z z).
Definition ofNat (n : nat) : num := ofZ (Z.of_nat n).

Definition Qltb (p q : Q) : bool := negb (Qle_bool q p).

(** Unary minus. *)
Definition neg (u : num) : num :=
  match u with
  | NaN => NaN
  | NInf => PInf
  | PInf => NInf
  | Fin q => Fin (- q)
  end.

(** [u + v] *)
Definition add (u v : num) : num :=
  match u, v with
  | NaN, _ | _, NaN => NaN
  | PInf, NInf | NInf, PInf => NaN
  | PInf, _ | _, PInf => PInf
  | NInf, _ | _, NInf => NInf
  | Fin p, Fin q => Fin (p + q)
  end.

(** [u - v] *)
Definition sub (u v : num) : num :=
  match u, v with
  | NaN, _ | _, NaN => NaN
  | PInf, PInf | NInf, NInf => NaN
  | PInf, _ | _, NInf => PInf
  | NInf, _ | _, PInf => NInf
  | Fin p, Fin q => Fin (p - q)
  end.

(** An infinity scaled by a finite factor: NaN for zero, sign by sign. *)
Definition scaleInf (inf : num) (q : Q) : num :=
  if Qeq_bool q 0 then NaN else if Qltb 0 q then inf else neg inf.

(** [u * v] *)
Definition mul (u v : num) : num :=
  match u, v with
  | NaN, _ | _, NaN => NaN
  | Fin p, Fin q => Fin (p * q)
  | Fin p, PInf => scaleInf PInf p
  | Fin p, NInf => scaleInf NInf p
  | PInf, Fin q => scaleInf PInf q
  | NInf, Fin q => scaleInf NInf q
  | PInf, PInf | NInf, NInf => PInf
  | PInf, NInf | NInf, PInf => NInf
  end.

(** [u / v]; a zero divisor is read as [+0]. *)
Definition div (u v : num) : num :=
  match u, v with
  | NaN, _ | _, NaN => NaN
  | Fin p, Fin q =>
      if Qeq_bool q 0
      then (if Qeq_bool p 0 then NaN else if Qltb 0 p then PInf else NInf)
      else Fin (p / q)
  | Fin _, _ => Fin 0
  | PInf, Fin q => if Qltb q 0 then NInf else PInf
  | NInf, Fin q => if Qltb q 0 then PInf else NInf
  | _, _ => NaN
  end.

(** [u < v] *)
Definition ltb (u v : num) : bool :=
  match u, v with
  | NaN, _ | _, NaN => false
  | _, NInf => false
  | NInf, _ => true
  | PInf, _ => false
  | Fin _, PInf => true
  | Fin p, Fin q => Qltb p q
  end.

(** [u >= v] *)
Definition geb (u v : num) : bool :=
  match u, v with
  | NaN, _ | _, NaN => false
  | _, _ => negb (ltb u v)
  end.

(** [u === v] on numbers. *)
Definition seq_num (u v : num) : bool :=
  match u, v with
  | Fin p, Fin q => Qeq_bool p q
  | PInf, PInf | NInf, NInf => true
  | _, _ => false
  end.

(** Truthiness of a number: everything but [0] and [NaN]. *)
Definition truthy (u : num) : bool :=
  match u with
  | NaN => false
  | Fin q => negb (Qeq_bool q 0)
  | _ => true
  end.

(** [u || v] on numbers. *)
Definition orElse (u v : num) : num := if truthy u then u else v.

(** [Math.max(u, v)] and [Math.min(u, v)]. *)
Definition num_max (u v : num) : num :=
  match u, v with
  | NaN, _ | _, NaN => NaN
  | _, _ => if ltb u v then v else u
  end.

Definition num_min (u v : num) : num :=
  match u, v with
  | NaN, _ | _, NaN => NaN
  | _, _ => if ltb v u then v else u
  end.

(** [Math.floor(u)] *)
Definition floor (u : num) : num :=
  match u with
  | Fin q => ofZ (Qfloor q)
  | _ => u
  end.

(** [Math.abs(u)] *)
Definition num_abs (u : num) : num :=
  match u with
  | Fin q => Fin (Qabs q)
  | NInf => PInf
  | _ => u
  end.

(** [Math.pow(u, 2)] and [Math.pow(u, 3)], exact on this model. *)
Definition pow2 (u : num) : num := mul u u.
Definition pow3 (u : num) : num := mul (mul u u) u.

(** The numbers that are neither NaN nor infinite. *)
Definition finite (u : num) : Prop := exists q, u = Fin q.

(** Equality of numbers as [===] sees it, as a proposition. *)
Definition num_eq (u v : num) : Prop :=
  match u, v with
  | Fin p, Fin q => (p == q)%Q
  | PInf, PInf | NInf, NInf => True
  | _, _ => False
  end.

Declare Scope num_scope.
Delimit Scope num_scope with num.
Infix "=n=" := num_eq (at level 70, no associativity) : num_scope.

(* ------------------------------------------------------------------ *)
(** ** Exceptions *)

Inductive exn : Type := TypeError.

Inductive result (A : Type) : Type :=
| Ok (v : A)
| Throw (e : exn).

Arguments Ok {A} v.
Arguments Throw {A} e.

Definition bind {A B : Type} (m : result A) (k : A -> result B) : result B :=
  match m with
  | Ok v => k v
  | Throw e => Throw e
  end.

Notation "v <- m ;; k" := (bind m (fun v => k))
  (at level 61, m at next level, right associativity).
Notation "' pat <- m ;; k" := (bind m (fun v => match v with pat => k end))
  (at level 61, pat pattern, m at next level, right associativity).

(** A loop that pushes [f e] for each [e], stopping at the first throw. *)
Fixpoint mapM {A B : Type} (f : A -> result B) (l : list A) : result (list B) :=
  match l with
  | [] => Ok []
  | e :: l' => v <- f e ;; vs <- mapM f l' ;; Ok (v :: vs)
  end.

(** [arr[i]] followed by a property read: a TypeError past the end. *)
Definition index {A : Type} (arr : list A) (i : nat) : result A :=
  match nth_error arr i with
  | Some v => Ok v
  | None => Throw TypeError
  end.

(** The array index a number denotes, if any. *)
Definition asIndex (u : num) : option nat :=
  match u with
  | Fin q =>
      if Qeq_bool q (inject_Z (Qfloor q)) && (0 <=? Qfloor q)%Z
      then Some (Z.to_nat (Qfloor q))
      else None
  | _ => None
  end.

Definition indexNum {A : Type} (arr : list A) (u : num) : result A :=
  match asIndex u with
  | Some i => index arr i
  | None => Throw TypeError
  end.

(** The values of the counter in [for (let k = 0; k < N; k++)]. *)
Definition upto (N : Z) : list nat := seq 0 (Z.to_nat N).

(* ------------------------------------------------------------------ *)
(** ** Data model *)

Record Point : Type := mkPoint { x : num; y : num }.

(** [colHSB]; the alpha channel [a] may be missing. *)
Record ColHSB : Type := mkColHSB {
  hsb_h : num;
  hsb_s : num;
  hsb_b : num;
  hsb_a : option num
}.

(** A stored stroke.  [thickness] and [opacity] are [None] when the field is
    [undefined] or [null]. *)
Record Stroke : Type := mkStroke {
  colHSB : ColHSB;
  thickness : option num;
  opacity : option num;
  eraser : bool;
  points : list Point
}.

Record Drawing : Type := mkDrawing { strokes : list Stroke }.

Record MatchResult : Type := mkMatch {
  pairs : list (nat * nat);
  unmatchedA : list nat;
  unmatchedB : list nat
}.

(** The clock: the three mutable fields of [Anim]. *)
Record AnimState : Type := mkAnim {
  running : bool;
  startMs : num;
  durationMs : num
}.

Definition initialAnim : AnimState :=
  {| running := false; startMs := ofZ 0; durationMs := ofZ 10000 |}.

(** The arguments [Number(...)] is applied to. *)
Inductive JsValue : Type :=
| JUndefined
| JNull
| JBool (v : bool)
| JNum (v : num)
| JStr (v : string).

(* ------------------------------------------------------------------ *)
(** ** p5.js helpers *)

(** [lerp(start, stop, amt) = amt * (stop - start) + start] *)
Definition lerp (start stop amt : num) : num :=
  add (mul amt (sub stop start)) start.

(** [constrain(n, low, high) = Math.max(Math.min(n, high), low)] *)
Definition constrain (n low high : num) : num :=
  num_max (num_min n high) low.

(** [v ?? d] *)
Definition nullish (v : option num) (d : num) : num :=
  match v with
  | Some u => u
  | None => d
  end.

(** [v || d] for a field that may be missing. *)
Definition falsyOr (v : option num) (d : num) : num :=
  match v with
  | Some u => orElse u d
  | None => d
  end.

(* ------------------------------------------------------------------ *)
(** ** Geometry, matching and tweening *)

Section Tweening.

(** p5.js [dist(x1, y1, x2, y2)]. *)
Variable dist : num -> num -> num -> num -> num.

Definition distPts (p q : Point) : num := dist (x p) (y p) (x q) (y q).

(** [centroidOf(points)] *)
Definition centroidOf (points : list Point) : Point :=
  match points with
  | [] => {| x := ofZ 0; y := ofZ 0 |}
  | _ :: _ =>
      let sx := fold_left (fun acc p => add acc (x p)) points (ofZ 0) in
      let sy := fold_left (fun acc p => add acc (y p)) points (ofZ 0) in
      {| x := div sx (ofNat (length points));
         y := div sy (ofNat (length points)) |}
  end.

(** The body of [lengthOf]'s loop, from [points[i-1] = prev] on. *)
Fixpoint lengthFrom (L : num) (prev : Point) (rest : list Point) : num :=
  match rest with
  | [] => L
  | p :: rest' => lengthFrom (add L (distPts prev p)) p rest'
  end.

(** [lengthOf(points)] *)
Definition lengthOf (points : list Point) : num :=
  match points with
  | [] => ofZ 0
  | p0 :: rest => lengthFrom (ofZ 0) p0 rest
  end.

(** [strokeMatchCost(a, b)] *)
Definition strokeMatchCost (a b : Stroke) : num :=
  let ca := centroidOf (points a) in
  let cb := centroidOf (points b) in
  let d := dist (x ca) (y ca) (x cb) (y cb) in
  let la := num_max (ofZ 1) (lengthOf (points a)) in
  let lb := num_max (ofZ 1) (lengthOf (points b)) in
  let lenTerm := mul (num_abs (sub la lb)) (Fin (1 # 10)) in
  add d lenTerm.

(** [usedB.has(j)] *)
Definition has (usedB : list nat) (j : nat) : bool :=
  existsb (Nat.eqb j) usedB.

(** The inner loop of [matchStrokes] from index [j] on, [B] being what is
    left of the array; [bestJ = None] stands for [-1]. *)
Fixpoint bestFrom (a : Stroke) (B : list Stroke) (j : nat)
    (usedB : list nat) (bestJ : option nat) (bestC : num) : option nat :=
  match B with
  | [] => bestJ
  | bj :: B' =>
      if has usedB j then bestFrom a B' (S j) usedB bestJ bestC
      else
        let c := strokeMatchCost a bj in
        if ltb c bestC
        then bestFrom a B' (S j) usedB (Some j) c
        else bestFrom a B' (S j) usedB bestJ bestC
  end.

(** The outer loop of [matchStrokes] from index [i] on. *)
Fixpoint matchFrom (A B : list Stroke) (i : nat)
    (prs : list (nat * nat)) (usedB : list nat) : list (nat * nat) :=
  match A with
  | [] => prs
  | ai :: A' =>
      match bestFrom ai B 0 usedB None PInf with
      | Some bestJ => matchFrom A' B (S i) (prs ++ [(i, bestJ)]) (bestJ :: usedB)
      | None => matchFrom A' B (S i) prs usedB
      end
  end.

(** [matchStrokes(A, B)] *)
Definition matchStrokes (A B : list Stroke) : MatchResult :=
  let prs := matchFrom A B 0 [] [] in
  {| pairs := prs;
     unmatchedA :=
       filter (fun i => negb (existsb (fun p => fst p =? i) prs))
              (seq 0 (length A));
     unmatchedB :=
       filter (fun j => negb (existsb (fun p => snd p =? j) prs))
              (seq 0 (length B)) |}.

(** [ghostFromStrokeLike(s)] *)
Definition ghostFromStrokeLike (s : Stroke) : Stroke :=
  let c := centroidOf (points s) in
  let N := 20%nat in
  let pts := repeat {| x := x c; y := y c |} N in
  {| colHSB := colHSB s;
     thickness := Some (Fin (1 # 1000));
     opacity := Some (ofZ 0);
     eraser := false;
     points := pts |}.

(** The table [L] after its first entry: running arc lengths. *)
Fixpoint cumulative (acc : num) (prev : Point) (rest : list Point)
    : list num :=
  match rest with
  | [] => []
  | p :: rest' =>
      let l := add acc (distPts prev p) in
      l :: cumulative l p rest'
  end.

(** [while (j < L.length && L[j] < t) j++], [Ltail] being [L] from [j]. *)
Fixpoint scan (Ltail : list num) (t : num) (j : nat) : nat :=
  match Ltail with
  | [] => j
  | l :: Ltail' => if ltb l t then scan Ltail' t (S j) else j
  end.

(** One turn of the sampling loop of [resamplePointsLocal]. *)
Definition samplePoint (points : list Point) (L : list num) (total : num)
    (N : Z) (k : nat) : result Point :=
  let t := mul (div (ofNat k) (ofZ (N - 1))) total in
  let j := scan (tl L) t 1 in
  let i := Nat.max 1 j in
  let t0 := nth (i - 1) L NaN in
  let t1 := nth i L NaN in
  let seg := orElse (sub t1 t0) (Fin (1 # 1000000000)) in
  let u := div (sub t t0) seg in
  p0 <- index points (i - 1) ;;
  p1 <- index points i ;;
  Ok {| x := lerp (x p0) (x p1) u; y := lerp (y p0) (y p1) u |}.

(** [resamplePointsLocal(points, N)], [N] an integer. *)
Definition resamplePointsLocal (points : list Point) (N : Z)
    : result (list Point) :=
  match points with
  | [] | [_] => Ok points
  | p0 :: rest =>
      let N := Z.max 2 N in
      let L := ofZ 0 :: cumulative (ofZ 0) p0 rest in
      let total := last L NaN in
      if seq_num total (ofZ 0) then Ok (repeat p0 (Z.to_nat N))
      else mapM (samplePoint points L total N) (upto N)
  end.

(** [tweenTwoStrokes(a, b, t, N)] *)
Definition tweenTwoStrokes (a b : Stroke) (t : num) (N : Z)
    : result Stroke :=
  pa <- resamplePointsLocal (points a) N ;;
  pb <- resamplePointsLocal (points b) N ;;
  pts <- mapM (fun j =>
                 qa <- index pa j ;;
                 qb <- index pb j ;;
                 Ok {| x := lerp (x qa) (x qb) t;
                       y := lerp (y qa) (y qb) t |})
              (upto N) ;;
  let col :=
    {| hsb_h := lerp (hsb_h (colHSB a)) (hsb_h (colHSB b)) t;
       hsb_s := lerp (hsb_s (colHSB a)) (hsb_s (colHSB b)) t;
       hsb_b := lerp (hsb_b (colHSB a)) (hsb_b (colHSB b)) t;
       hsb_a :=
         Some (lerp
           (nullish (opacity a) (nullish (hsb_a (colHSB a)) (ofZ 100)))
           (nullish (opacity b) (nullish (hsb_a (colHSB b)) (ofZ 100)))
           t) |} in
  let thick :=
    lerp (falsyOr (thickness a) (ofZ 4)) (falsyOr (thickness b) (ofZ 4)) t in
  let opac :=
    lerp (nullish (opacity a) (ofZ 100)) (nullish (opacity b) (ofZ 100)) t in
  Ok {| colHSB := col;
        thickness := Some thick;
        opacity := Some opac;
        eraser := false;
        points := pts |}.

(** [tweenDrawingsMulti(A, B, t)] *)
Definition tweenDrawingsMulti (A B : list Stroke) (t : num)
    : result (list Stroke) :=
  let AA := filter (fun s => negb (eraser s)) A in
  let BB := filter (fun s => negb (eraser s)) B in
  let m := matchStrokes AA BB in
  o1 <- mapM (fun p =>
                sa <- index AA (fst p) ;;
                sb <- index BB (snd p) ;;
                tweenTwoStrokes sa sb t 60)
             (pairs m) ;;
  o2 <- mapM (fun ia =>
                sa <- index AA ia ;;
                tweenTwoStrokes sa (ghostFromStrokeLike sa) t 40)
             (unmatchedA m) ;;
  o3 <- mapM (fun ib =>
                sb <- index BB ib ;;
                tweenTwoStrokes (ghostFromStrokeLike sb) sb t 40)
             (unmatchedB m) ;;
  Ok (o1 ++ o2 ++ o3).

(* ---------------------------------------------------------------- *)
(** ** The clock *)

(** [Anim.Easings] *)
Definition Linear (t : num) : num := t.

Definition EaseInOutCubic (t : num) : num :=
  if ltb t (Fin (1 # 2))
  then mul (mul (mul (ofZ 4) t) t) t
  else sub (ofZ 1) (div (pow3 (add (mul (ofZ (-2)) t) (ofZ 2))) (ofZ 2)).

Definition EaseInOutQuad (t : num) : num :=
  if ltb t (Fin (1 # 2))
  then mul (mul (ofZ 2) t) t
  else sub (ofZ 1) (div (pow2 (add (mul (ofZ (-2)) t) (ofZ 2))) (ofZ 2)).

(** [Anim.getEase(name)], for the names [Anim.Easings] answers itself: its
    three own properties and, through [||], every name that is no member of
    its prototype chain.  A name such as [constructor] or [toString] reads a
    member of [Object.prototype] instead and is outside this definition; the
    theorems on easings take their names from [easeOptions]. *)
Definition getEase (name : string) : num -> num :=
  if String.eqb name "Linear" then Linear
  else if String.eqb name "EaseInOutQuad" then EaseInOutQuad
  else EaseInOutCubic.

(** [StringToNumber] of ECMAScript, applied by [Number] to a string. *)
Variable StringToNumber : string -> num.

(** [Number(v)] *)
Definition Number (v : JsValue) : num :=
  match v with
  | JUndefined => NaN
  | JNull => ofZ 0
  | JBool true => ofZ 1
  | JBool false => ofZ 0
  | JNum u => u
  | JStr s => StringToNumber s
  end.

(** [Anim.start(durationMs)], [now] being what [millis()] returns. *)
Definition start (st : AnimState) (now : num) (d : JsValue) : AnimState :=
  {| durationMs := orElse (Number d) (ofZ 10000);
     running := true;
     startMs := now |}.

(** The quantities [drawFrame] computes on its way to a tween. *)
Definition tGlobalOf (st : AnimState) (now : num) : num :=
  div (sub now (startMs st)) (durationMs st).

Definition segTOf (n : nat) (tGlobal : num) : num :=
  mul tGlobal (ofNat (n - 1)).

Definition segIndexOf (n : nat) (tGlobal : num) : num :=
  num_min (sub (ofNat (n - 1)) (ofZ 1)) (floor (segTOf n tGlobal)).

(** The argument of the easing function: [constrain(segT - i, 0, 1)]. *)
Definition segLocalOf (n : nat) (tGlobal : num) : num :=
  constrain (sub (segTOf n tGlobal) (segIndexOf n tGlobal)) (ofZ 0) (ofZ 1).

(** [Anim.drawFrame(storedDrawings, easeName, drawDrawing)].  The result is
    the new clock and the argument [drawDrawing] was called with, [None]
    when it was not called. *)
Definition drawFrame (st : AnimState) (now : num)
    (storedDrawings : list Drawing) (easeName : string)
    : result (AnimState * option (list Stroke)) :=
  let n := length storedDrawings in
  if (n <? 2)%nat then Ok (st, None)
  else
    let tGlobal := tGlobalOf st now in
    if geb tGlobal (ofZ 1) then
      final <- index storedDrawings (n - 1) ;;
      Ok ({| running := false;
             startMs := startMs st;
             durationMs := durationMs st |},
          Some (strokes final))
    else
      let ease := getEase easeName in
      let i := segIndexOf n tGlobal in
      let local :=
        constrain (ease (segLocalOf n tGlobal)) (ofZ 0) (ofZ 1) in
      A <- indexNum storedDrawings i ;;
      B <- indexNum storedDrawings (add i (ofZ 1)) ;;
      tween <- tweenDrawingsMulti (strokes A) (strokes B) local ;;
      Ok (st, Some tween).

End Tweening.

(** What the proofs of the first part assume of p5.js [dist]: it is never
    negative, it is finite on finite arguments, and a point is at distance
    zero of itself.  The second holds of doubles only as long as no
    difference of coordinates overflows; the theorems on doubles do not
    assume it. *)
Record DistSpec (dist : num -> num -> num -> num -> num) : Prop := mkDistSpec {
  dist_nonneg : forall x1 y1 x2 y2, ltb (dist x1 y1 x2 y2) (ofZ 0) = false;
  dist_finite : forall x1 y1 x2 y2 : Q,
      finite (dist (Fin x1) (Fin y1) (Fin x2) (Fin y2));
  dist_self : forall x1 y1 : Q,
      seq_num (dist (Fin x1) (Fin y1) (Fin x1) (Fin y1)) (ofZ 0) = true
}.

(** A runnable [dist] for examples: the Euclidean distance with the square
    root truncated to 20 binary digits, exact when the root is rational.
    As [Math.hypot], an infinite difference gives [Infinity]. *)
Definition sqrtQ (q : Q) : Q :=
  Qred (Z.sqrt (Qnum q * Zpos (Qden q) * 2 ^ 40) # (Qden q * 2 ^ 20)).

Definition distQ (x1 y1 x2 y2 : num) : num :=
  match sub x2 x1, sub y2 y1 with
  | PInf, _ | NInf, _ | _, PInf | _, NInf => PInf
  | NaN, _ | _, NaN => NaN
  | Fin dx, Fin dy => Fin (sqrtQ (dx * dx + dy * dy))
  end.

(** A runnable [StringToNumber] for examples: the empty string is [0] and
    every other string is read as not a number. *)
Definition strToNumQ (s : string) : num :=
  if String.eqb s "" then ofZ 0 else NaN.

(** Numbers that are not below zero; NaN and [Infinity] are among them. *)
Definition notNegative (u : num) : Prop := ltb u (ofZ 0) = false.

(** Points and strokes whose coordinates are finite numbers. *)
Definition finitePoint (p : Point) : Prop := finite (x p) /\ finite (y p).

Definition finiteStroke (s : Stroke) : Prop := Forall finitePoint (points s).

(** The state of the outer loop of [matchStrokes] before it handles index
    [i], [nB] being [B.length]. *)
Definition matchInv (nB i : nat) (prs : list (nat * nat)) (usedB : list nat)
    : Prop :=
  (forall j, In j usedB <-> In j (map snd prs)) /\
  NoDup (map snd prs) /\
  NoDup (map fst prs) /\
  (forall p, In p prs -> (fst p < i)%nat /\ (snd p < nB)%nat).

(** Two points at the same place. *)
Definition pointEq (p q : Point) : Prop :=
  (x p =n= x q)%num /\ (y p =n= y q)%num.

(** Two optional fields that are both present and equal. *)
Definition optEq (u v : option num) : Prop :=
  match u, v with
  | Some u', Some v' => (u' =n= v')%num
  | _, _ => False
  end.

(** The tweened stroke [s'] carries the attributes of [s]; its alpha channel
    is the opacity of [s], the value [opacity ?? colHSB.a ?? 100] resolves
    to when the opacity is present. *)
Definition sameAttrs (s' s : Stroke) : Prop :=
  (hsb_h (colHSB s') =n= hsb_h (colHSB s))%num /\
  (hsb_s (colHSB s') =n= hsb_s (colHSB s))%num /\
  (hsb_b (colHSB s') =n= hsb_b (colHSB s))%num /\
  optEq (hsb_a (colHSB s')) (opacity s) /\
  optEq (thickness s') (thickness s) /\
  optEq (opacity s') (opacity s).

(** Strokes the tweener can resample: erasers are filtered out before, any
    other stroke needs two points. *)
Definition tweenable (s : Stroke) : Prop :=
  eraser s = false -> (2 <= length (points s))%nat.

(** A JavaScript value that is a number above zero. *)
Definition positiveNumber (d : JsValue) : Prop :=
  exists u, d = JNum u /\ ltb (ofZ 0) u = true.

(* ------------------------------------------------------------------ *)
(** ** Example data *)

Definition pt (u v : Z) : Point := {| x := ofZ u; y := ofZ v |}.

Definition exampleColor : ColHSB :=
  {| hsb_h := ofZ 200; hsb_s := ofZ 80; hsb_b := ofZ 90;
     hsb_a := Some (ofZ 100) |}.

(** Three points, arc length 5 + 6. *)
Definition strokeA : Stroke :=
  {| colHSB := exampleColor; thickness := Some (ofZ 4);
     opacity := Some (ofZ 80); eraser := false;
     points := [pt 0 0; pt 3 4; pt 3 10] |}.

(** Two points, arc length 10. *)
Definition strokeB : Stroke :=
  {| colHSB := exampleColor; thickness := Some (ofZ 6);
     opacity := Some (ofZ 50); eraser := false;
     points := [pt 0 0; pt 10 0] |}.

(** A single click: one point. *)
Definition strokeDot : Stroke :=
  {| colHSB := exampleColor; thickness := Some (ofZ 4);
     opacity := Some (ofZ 100); eraser := false;
     points := [pt 1 1] |}.

(** A clock started at time 0 for 900 ms, and one for 1000 ms. *)
Definition clock900 : AnimState :=
  {| running := true; startMs := ofZ 0; durationMs := ofZ 900 |}.

Definition clock1000 : AnimState :=
  {| running := true; startMs := ofZ 0; durationMs := ofZ 1000 |}.

Definition threeFrames : list Drawing :=
  [ {| strokes := [strokeA] |};
    {| strokes := [strokeB] |};
    {| strokes := [strokeA; strokeB] |} ].

(** A stroke whose opacity, when present, is a finite number. *)
Definition finiteOpacity (s : Stroke) : Prop :=
  forall o, opacity s = Some o -> finite o.

(** An eraser next to the example strokes. *)
Definition strokeEraser : Stroke :=
  {| colHSB := exampleColor; thickness := Some (ofZ 20);
     opacity := Some (ofZ 100); eraser := true;
     points := [pt 5 5; pt 6 6] |}.


(** A [dist] that does not depend on the order of its two points. *)
Definition distSymmetric (dist : num -> num -> num -> num -> num) : Prop :=
  forall x1 y1 x2 y2, dist x1 y1 x2 y2 = dist x2 y2 x1 y1.

(** What the inner loop of [matchStrokes] holds after the strokes [seen]:
    nothing yet, every index so far being used, or the cheapest free stroke
    so far, the first of them when several cost the same. *)
Definition bestOK (dist : num -> num -> num -> num -> num) (a : Stroke)
    (usedB : list nat) (seen : list Stroke) (bestJ : option nat)
    (bestC : num) : Prop :=
  match bestJ with
  | None =>
      bestC = PInf /\
      forall j', (j' < length seen)%nat -> has usedB j' = true
  | Some r =>
      has usedB r = false /\
      exists br,
        nth_error seen r = Some br /\ bestC = strokeMatchCost dist a br /\
        forall j' b',
          nth_error seen j' = Some b' -> has usedB j' = false ->
          ltb (strokeMatchCost dist a b') bestC = false /\
          ((j' < r)%nat -> ltb bestC (strokeMatchCost dist a b') = true)
  end.

(** The pairs made so far are greedy choices: [B[j]] is the cheapest partner
    of [A[i]] among the strokes of [B] not paired with an earlier stroke of
    [A], and the first of the cheapest. *)
Definition greedyPairs (dist : num -> num -> num -> num -> num)
    (A B : list Stroke) (prs : list (nat * nat)) : Prop :=
  forall i j, In (i, j) prs ->
  exists a b,
    nth_error A i = Some a /\ nth_error B j = Some b /\
    forall j' b',
      nth_error B j' = Some b' ->
      (forall i', In (i', j') prs -> (i <= i')%nat) ->
      ltb (strokeMatchCost dist a b') (strokeMatchCost dist a b) = false /\
      ((j' < j)%nat ->
       ltb (strokeMatchCost dist a b) (strokeMatchCost dist a b') = true).

(* ------------------------------------------------------------------ *)
(** ** The frame store (store.js) and the animate button (app.js)

    The store keeps the keyframes [Anim.drawFrame] is given.  Its panel and
    its thumbnails are display only and are left out: a slot is its
    [strokes].  An [alert] is the outcome of the call. *)

Section Store.

(** A [p5.Color], and p5.js [hue], [saturation], [brightness] and [alpha]
    read in HSB mode. *)
Variable Color : Type.
Variables hue saturation brightness alpha : Color -> num.

(** A stroke on the canvas, an instance of class [Stroke]; [col] is [None]
    when the field is falsy. *)
Record LiveStroke : Type := mkLive {
  col : option Color;
  liveThickness : option num;
  liveOpacity : option num;
  liveEraser : bool;
  livePoints : list Point
}.

(** [_getStrokeHSB(c)] *)
Definition _getStrokeHSB (c : option Color) : ColHSB :=
  match c with
  | None =>
      {| hsb_h := ofZ 0; hsb_s := ofZ 0; hsb_b := ofZ 0;
         hsb_a := Some (ofZ 100) |}
  | Some c' =>
      {| hsb_h := hue c'; hsb_s := saturation c'; hsb_b := brightness c';
         hsb_a := Some (alpha c') |}
  end.

(** [_cloneVector(strokes)] *)
Definition _cloneVector (strokes : list LiveStroke) : list Stroke :=
  filter (fun s => (2 <=? length (points s))%nat)
    (map (fun s =>
            {| colHSB := _getStrokeHSB (col s);
               thickness := liveThickness s;
               opacity := liveOpacity s;
               eraser := liveEraser s;
               points := map (fun p => {| x := x p; y := y p |}) (livePoints s) |})
         strokes).

(** The state of the store: [storedDrawings] and [selectedFrameIdx]. *)
Record StoreState : Type := mkStore {
  storedDrawings : list Drawing;
  selectedFrameIdx : Z
}.

Definition emptyStore : StoreState :=
  {| storedDrawings := []; selectedFrameIdx := (-1)%Z |}.

Definition MAX_SLOTS : nat := 10.

(** How [addFrameFrom] ends: one of its two alerts, or the index of the new
    frame. *)
Inductive AddOutcome : Type :=
| NothingToStore
| StorageFull
| Stored (idx : Z).

(** [Store.addFrameFrom(strokes, captureFn)] *)
Definition addFrameFrom (st : StoreState) (strokes : list LiveStroke)
    : StoreState * AddOutcome :=
  if (length strokes =? 0)%nat then (st, NothingToStore)
  else if (MAX_SLOTS <=? length (storedDrawings st))%nat then (st, StorageFull)
  else
    let drawing := _cloneVector strokes in
    if (length drawing =? 0)%nat then (st, NothingToStore)
    else
      let stored := storedDrawings st ++ [ {| strokes := drawing |} ] in
      let idx := (Z.of_nat (length stored) - 1)%Z in
      ({| storedDrawings := stored; selectedFrameIdx := idx |}, Stored idx).


Definition count (st : StoreState) : nat := length (storedDrawings st).

(** The click handler of the delete cross of tile [i]:
    [storedDrawings.splice(i, 1)], then the selection follows. *)
Definition deleteFrame (st : StoreState) (i : nat) : StoreState :=
  let stored :=
    firstn i (storedDrawings st) ++ skipn (S i) (storedDrawings st) in
  let sel := selectedFrameIdx st in
  let sel1 := if (sel =? Z.of_nat i)%Z then (-1)%Z else sel in
  let sel2 := if (Z.of_nat i <? sel1)%Z then (sel1 - 1)%Z else sel1 in
  {| storedDrawings := stored; selectedFrameIdx := sel2 |}.

(** The click handler of tile [i]. *)
Definition selectFrame (st : StoreState) (i : nat) : StoreState :=
  {| storedDrawings := storedDrawings st; selectedFrameIdx := Z.of_nat i |}.

(** What the store keeps true. *)
Definition storeInv (st : StoreState) : Prop :=
  (length (storedDrawings st) <= MAX_SLOTS)%nat /\
  Forall (fun d => strokes d <> [] /\
                   Forall (fun s => (2 <= length (points s))%nat) (strokes d))
         (storedDrawings st) /\
  (-1 <= selectedFrameIdx st < Z.of_nat (length (storedDrawings st)))%Z.

Variable dist : num -> num -> num -> num -> num.
Variable StringToNumber : string -> num.



End Store.

(** A colour for examples and what p5.js reads from it. *)
Inductive DemoColor : Type := Ink.

Definition demoChannel (c : DemoColor) : num := ofZ 50.

Definition liveA : LiveStroke DemoColor :=
  {| col := Some Ink; liveThickness := Some (ofZ 4);
     liveOpacity := Some (ofZ 100); liveEraser := false;
     livePoints := [pt 0 0; pt 3 4; pt 3 10] |}.

Definition liveDot : LiveStroke DemoColor :=
  {| col := Some Ink; liveThickness := Some (ofZ 4);
     liveOpacity := Some (ofZ 100); liveEraser := false;
     livePoints := [pt 7 7] |}.

(** The names the ease menu of app.js offers, the own properties of
    [Anim.Easings]. *)
Definition easeOptions : list string :=
  ["EaseInOutCubic"; "Linear"; "EaseInOutQuad"]%string.

(** The largest double, [Number.MAX_VALUE]. *)
Definition maxDouble : Q := inject_Z ((2 ^ 53 - 1) * 2 ^ 971).

(** A runnable [dist] with the overflow of doubles: [distQ], and [Infinity]
    once a difference of coordinates is beyond the largest double, as
    [x2 - x1] is in [Math.hypot(x2 - x1, y2 - y1)]. *)
Definition distOverflow (x1 y1 x2 y2 : num) : num :=
  match sub x2 x1, sub y2 y1 with
  | Fin dx, Fin dy =>
      if Qle_bool (Qabs dx) maxDouble && Qle_bool (Qabs dy) maxDouble
      then distQ x1 y1 x2 y2
      else PInf
  | _, _ => distQ x1 y1 x2 y2
  end.

(** Two strokes of one point each, at [x = -2^1023] and at [x = 2^1023],
    about [9e307]; these are doubles. *)
Definition strokeFarLeft : Stroke :=
  {| colHSB := exampleColor; thickness := Some (ofZ 4);
     opacity := Some (ofZ 80); eraser := false;
     points := [pt (- 2 ^ 1023) 0] |}.

Definition strokeFarRight : Stroke :=
  {| colHSB := exampleColor; thickness := Some (ofZ 4);
     opacity := Some (ofZ 80); eraser := false;
     points := [pt (2 ^ 1023) 0] |}.

(* ------------------------------------------------------------------ *)
(** ** Doubles: the arithmetic with its rounding

    The numbers above are exact.  JavaScript's are doubles: every operation
    rounds its result to the nearest double and gives an infinity when the
    result is beyond the largest one.  The claims on values "within
    tolerance" are about this rounding, so the functions they concern are
    given once more, from the same source lines, over an arithmetic that
    rounds: [rnd q] is the double a rational result [q] is rounded to. *)

(** The unit roundoff of doubles, [2^-53], and half the smallest positive
    double, [2^-1075]. *)
Definition unitRoundoff : Q := 1 # (2 ^ 53).
Definition underflowUnit : Q := 1 # (2 ^ 1075).

(** An operation's result after rounding; NaN and the infinities stay. *)
Definition rounded (rnd : Q -> num) (u : num) : num :=
  match u with
  | Fin q => rnd q
  | _ => u
  end.

Module Rounded.

Section Doubles.

Variable rnd : Q -> num.

(** p5.js [dist], on doubles. *)
Variable dist : num -> num -> num -> num -> num.

(** [u + v], [u - v], [u * v], [u / v] *)
Definition add (u v : num) : num := rounded rnd (add u v).
Definition sub (u v : num) : num := rounded rnd (sub u v).
Definition mul (u v : num) : num := rounded rnd (mul u v).
Definition div (u v : num) : num := rounded rnd (div u v).

(** [lerp(start, stop, amt) = amt * (stop - start) + start] *)
Definition lerp (start stop amt : num) : num :=
  add (mul amt (sub stop start)) start.

(** [centroidOf(points)] *)
Definition centroidOf (points : list Point) : Point :=
  match points with
  | [] => {| x := ofZ 0; y := ofZ 0 |}
  | _ :: _ =>
      let sx := fold_left (fun acc p => add acc (x p)) points (ofZ 0) in
      let sy := fold_left (fun acc p => add acc (y p)) points (ofZ 0) in
      {| x := div sx (ofNat (length points));
         y := div sy (ofNat (length points)) |}
  end.

(** The body of [lengthOf]'s loop, from [points[i-1] = prev] on. *)
Fixpoint lengthFrom (L : num) (prev : Point) (rest : list Point) : num :=
  match rest with
  | [] => L
  | p :: rest' => lengthFrom (add L (distPts dist prev p)) p rest'
  end.

(** [lengthOf(points)] *)
Definition lengthOf (points : list Point) : num :=
  match points with
  | [] => ofZ 0
  | p0 :: rest => lengthFrom (ofZ 0) p0 rest
  end.

(** [strokeMatchCost(a, b)]; the literal [0.1] is the double next to it. *)
Definition strokeMatchCost (a b : Stroke) : num :=
  let ca := centroidOf (points a) in
  let cb := centroidOf (points b) in
  let d := dist (x ca) (y ca) (x cb) (y cb) in
  let la := num_max (ofZ 1) (lengthOf (points a)) in
  let lb := num_max (ofZ 1) (lengthOf (points b)) in
  let lenTerm := mul (num_abs (sub la lb)) (rnd (1 # 10)) in
  add d lenTerm.

(** The inner loop of [matchStrokes] from index [j] on, [B] being what is
    left of the array; [bestJ = None] stands for [-1]. *)
Fixpoint bestFrom (a : Stroke) (B : list Stroke) (j : nat)
    (usedB : list nat) (bestJ : option nat) (bestC : num) : option nat :=
  match B with
  | [] => bestJ
  | bj :: B' =>
      if has usedB j then bestFrom a B' (S j) usedB bestJ bestC
      else
        let c := strokeMatchCost a bj in
        if ltb c bestC
        then bestFrom a B' (S j) usedB (Some j) c
        else bestFrom a B' (S j) usedB bestJ bestC
  end.

(** The outer loop of [matchStrokes] from index [i] on. *)
Fixpoint matchFrom (A B : list Stroke) (i : nat)
    (prs : list (nat * nat)) (usedB : list nat) : list (nat * nat) :=
  match A with
  | [] => prs
  | ai :: A' =>
      match bestFrom ai B 0 usedB None PInf with
      | Some bestJ => matchFrom A' B (S i) (prs ++ [(i, bestJ)]) (bestJ :: usedB)
      | None => matchFrom A' B (S i) prs usedB
      end
  end.

(** [matchStrokes(A, B)] *)
Definition matchStrokes (A B : list Stroke) : MatchResult :=
  let prs := matchFrom A B 0 [] [] in
  {| pairs := prs;
     unmatchedA :=
       filter (fun i => negb (existsb (fun p => fst p =? i) prs))
              (seq 0 (length A));
     unmatchedB :=
       filter (fun j => negb (existsb (fun p => snd p =? j) prs))
              (seq 0 (length B)) |}.

(** [ghostFromStrokeLike(s)]; the literal [0.001] is the double next to it. *)
Definition ghostFromStrokeLike (s : Stroke) : Stroke :=
  let c := centroidOf (points s) in
  let N := 20%nat in
  let pts := repeat {| x := x c; y := y c |} N in
  {| colHSB := colHSB s;
     thickness := Some (rnd (1 # 1000));
     opacity := Some (ofZ 0);
     eraser := false;
     points := pts |}.

(** The table [L] after its first entry: running arc lengths. *)
Fixpoint cumulative (acc : num) (prev : Point) (rest : list Point)
    : list num :=
  match rest with
  | [] => []
  | p :: rest' =>
      let l := add acc (distPts dist prev p) in
      l :: cumulative l p rest'
  end.

(** One turn of the sampling loop of [resamplePointsLocal]; the literal
    [1e-9] is the double next to it. *)
Definition samplePoint (points : list Point) (L : list num) (total : num)
    (N : Z) (k : nat) : result Point :=
  let t := mul (div (ofNat k) (ofZ (N - 1))) total in
  let j := scan (tl L) t 1 in
  let i := Nat.max 1 j in
  let t0 := nth (i - 1) L NaN in
  let t1 := nth i L NaN in
  let seg := orElse (sub t1 t0) (rnd (1 # 1000000000)) in
  let u := div (sub t t0) seg in
  p0 <- index points (i - 1) ;;
  p1 <- index points i ;;
  Ok {| x := lerp (x p0) (x p1) u; y := lerp (y p0) (y p1) u |}.

(** [resamplePointsLocal(points, N)], [N] an integer; the counts [k] and
    [N - 1] of the loop are whole numbers, which doubles hold exactly up
    to [2^53]. *)
Definition resamplePointsLocal (points : list Point) (N : Z)
    : result (list Point) :=
  match points with
  | [] | [_] => Ok points
  | p0 :: rest =>
      let N := Z.max 2 N in
      let L := ofZ 0 :: cumulative (ofZ 0) p0 rest in
      let total := last L NaN in
      if seq_num total (ofZ 0) then Ok (repeat p0 (Z.to_nat N))
      else mapM (samplePoint points L total N) (upto N)
  end.

(** [tweenTwoStrokes(a, b, t, N)] *)
Definition tweenTwoStrokes (a b : Stroke) (t : num) (N : Z)
    : result Stroke :=
  pa <- resamplePointsLocal (points a) N ;;
  pb <- resamplePointsLocal (points b) N ;;
  pts <- mapM (fun j =>
                 qa <- index pa j ;;
                 qb <- index pb j ;;
                 Ok {| x := lerp (x qa) (x qb) t;
                       y := lerp (y qa) (y qb) t |})
              (upto N) ;;
  let col :=
    {| hsb_h := lerp (hsb_h (colHSB a)) (hsb_h (colHSB b)) t;
       hsb_s := lerp (hsb_s (colHSB a)) (hsb_s (colHSB b)) t;
       hsb_b := lerp (hsb_b (colHSB a)) (hsb_b (colHSB b)) t;
       hsb_a :=
         Some (lerp
           (nullish (opacity a) (nullish (hsb_a (colHSB a)) (ofZ 100)))
           (nullish (opacity b) (nullish (hsb_a (colHSB b)) (ofZ 100)))
           t) |} in
  let thick :=
    lerp (falsyOr (thickness a) (ofZ 4)) (falsyOr (thickness b) (ofZ 4)) t in
  let opac :=
    lerp (nullish (opacity a) (ofZ 100)) (nullish (opacity b) (ofZ 100)) t in
  Ok {| colHSB := col;
        thickness := Some thick;
        opacity := Some opac;
        eraser := false;
        points := pts |}.

End Doubles.

End Rounded.

(** What the proofs assume of the rounding: it depends on the value only,
    never gives NaN, keeps doubles and the integers up to [2^53] as they
    are, is symmetric, never turns an order around, stays within the unit
    roundoff of a result (within [2^-1075] where doubles are subnormal) and
    is finite up to the largest double.  Rounding to the nearest double,
    [roundDouble], meets all of it. *)
Record RoundSpec (rnd : Q -> num) : Prop := mkRoundSpec {
  rnd_ext : forall p q : Q, (p == q)%Q -> rnd p = rnd q;
  rnd_not_nan : forall q : Q, rnd q <> NaN;
  rnd_idem : forall q q' : Q, rnd q = Fin q' -> rnd q' = Fin q';
  rnd_int : forall z : Z,
      (Z.abs z <= 2 ^ 53)%Z -> rnd (inject_Z z) = Fin (inject_Z z);
  rnd_opp : forall q : Q, rnd (- q) = neg (rnd q);
  rnd_mono : forall p q : Q, (p <= q)%Q -> ltb (rnd q) (rnd p) = false;
  rnd_err : forall q q' : Q,
      rnd q = Fin q' ->
      (Qabs (q' - q) <= unitRoundoff * Qabs q + underflowUnit)%Q;
  rnd_range : forall q : Q, (Qabs q <= maxDouble)%Q -> finite (rnd q)
}.

(** Rounding to the nearest whole number, ties to the even one. *)
Definition roundHalfEven (m : Q) : Z :=
  let f := Qfloor m in
  match Qcompare (m - inject_Z f) (1 # 2) with
  | Lt => f
  | Gt => (f + 1)%Z
  | Eq => if Z.even f then f else (f + 1)%Z
  end.

(** The binary digits of [X >= 0] that do not fit in 53: how far [X] is
    shifted before it is rounded. *)
Definition shiftOf (X : Q) : Z := Z.max 0 (Z.log2 (Qfloor X) - 52).

(** The whole number nearest to [X >= 0] among those of 53 binary digits
    followed by zeros. *)
Definition keep53 (X : Q) : Z :=
  (roundHalfEven (X / inject_Z (2 ^ shiftOf X)) * 2 ^ shiftOf X)%Z.

(** The magnitude of the double nearest to [q], ties to even, in units of
    [2^-1074]: the doubles are the multiples of [2^-1074] of 53 binary
    digits. *)
Definition doubleUnits (q : Q) : Z :=
  keep53 (Qabs q * inject_Z (2 ^ 1074)).

(** Rounding to the nearest double, ties to even, as IEEE 754 has it for
    binary64: a magnitude that rounds to [2^1024] or more is an infinity. *)
Definition roundDouble (q : Q) : num :=
  let n := doubleUnits q in
  if (2 ^ 2098 <=? n)%Z then (if Qltb 0 q then PInf else NInf)
  else
    let v := (inject_Z n / inject_Z (2 ^ 1074))%Q in
    if Qltb q 0 then Fin (Qred (- v)) else Fin (Qred v).

(** A double of magnitude at most [M]: a finite number that the rounding
    leaves as it is. *)
Definition doubleWithin (rnd : Q -> num) (M : Q) (u : num) : Prop :=
  exists q, u = Fin q /\ rnd q = Fin q /\ (Qabs q <= M)%Q.

Definition pointWithin (rnd : Q -> num) (M : Q) (p : Point) : Prop :=
  doubleWithin rnd M (x p) /\ doubleWithin rnd M (y p).

(** The attributes of a stroke are present, doubles of magnitude at most
    [M], and the thickness is not 0. *)
Definition attrsWithin (rnd : Q -> num) (M : Q) (s : Stroke) : Prop :=
  doubleWithin rnd M (hsb_h (colHSB s)) /\
  doubleWithin rnd M (hsb_s (colHSB s)) /\
  doubleWithin rnd M (hsb_b (colHSB s)) /\
  (exists th, thickness s = Some th /\ doubleWithin rnd M th /\
              truthy th = true) /\
  (exists o, opacity s = Some o /\ doubleWithin rnd M o).

(** Two numbers at most [tol] apart. *)
Definition closeNum (tol : Q) (u v : num) : Prop :=
  exists p q, u = Fin p /\ v = Fin q /\ (Qabs (p - q) <= tol)%Q.

Definition closePoint (tol : Q) (p q : Point) : Prop :=
  closeNum tol (x p) (x q) /\ closeNum tol (y p) (y q).

Definition closeOpt (tol : Q) (u v : option num) : Prop :=
  match u, v with
  | Some u', Some v' => closeNum tol u' v'
  | _, _ => False
  end.

(** The tweened stroke [s'] carries the attributes of [s] within [tol]. *)
Definition closeAttrs (tol : Q) (s' s : Stroke) : Prop :=
  closeNum tol (hsb_h (colHSB s')) (hsb_h (colHSB s)) /\
  closeNum tol (hsb_s (colHSB s')) (hsb_s (colHSB s)) /\
  closeNum tol (hsb_b (colHSB s')) (hsb_b (colHSB s)) /\
  closeOpt tol (hsb_a (colHSB s')) (opacity s) /\
  closeOpt tol (thickness s') (thickness s) /\
  closeOpt tol (opacity s') (opacity s).

(** How far [lerp(start, stop, 1)] can be from [stop] between doubles of
    magnitude at most [M]: the rounding of its subtraction and of its
    addition. *)
Definition lerpTolerance (M : Q) : Q :=
  5 * unitRoundoff * M + 3 * underflowUnit.

(** How far from zero a resampled position can be between points of
    magnitude at most [M]: the [lerp] of the sampling loop rounds three
    times. *)
Definition sampleBound (M : Q) : Q :=
  (1 + 4 * unitRoundoff) * M + 3 * underflowUnit.

(** The tolerance of a tween at [t = 1]: that of [lerp] between resampled
    positions. *)
Definition tweenTolerance (M : Q) : Q := lerpTolerance (sampleBound M).

(** A length the table [L] holds: a double that is not below zero. *)
Definition lengthDouble (rnd : Q -> num) (l : num) : Prop :=
  exists q, l = Fin q /\ rnd q = Fin q /\ (0 <= q)%Q.

(** Two strokes of two points each, one unit long, at [x = -2^1023] and at
    [x = 2^1023]; and a stroke from the one place to the other. *)
Definition strokeLeftEdge : Stroke :=
  {| colHSB := exampleColor; thickness := Some (ofZ 4);
     opacity := Some (ofZ 80); eraser := false;
     points := [pt (- 2 ^ 1023) 0; pt (- 2 ^ 1023) 1] |}.

Definition strokeRightEdge : Stroke :=
  {| colHSB := exampleColor; thickness := Some (ofZ 4);
     opacity := Some (ofZ 80); eraser := false;
     points := [pt (2 ^ 1023) 0; pt (2 ^ 1023) 1] |}.

Definition strokeSpan : Stroke :=
  {| colHSB := exampleColor; thickness := Some (ofZ 4);
     opacity := Some (ofZ 80); eraser := false;
     points := [pt (- 2 ^ 1023) 0; pt (2 ^ 1023) 0] |}.

(** The centroid in the spec's words, "arithmetic mean of x and y over all
    points", for one coordinate and in exact arithmetic. *)
Definition arithmeticMean (vs : list Q) : Q :=
  fold_right Qplus 0 vs / inject_Z (Z.of_nat (length vs)).

(** How far the running sum of [centroidOf] can be from the exact sum after
    [n] more additions of numbers of magnitude at most [M], when it is
    within [e] after the first [j]: each addition rounds a sum of magnitude
    at most [(j + 1) M + e]. *)
Fixpoint errAfter (M : Q) (j : nat) (e : Q) (n : nat) : Q :=
  match n with
  | O => e
  | S n' =>
      errAfter M (S j)
        ((1 + unitRoundoff) * e
         + unitRoundoff * (inject_Z (Z.of_nat (S j)) * M) + underflowUnit)
        n'
  end.

Definition sumError (M : Q) (n : nat) : Q := errAfter M 0 0 n.

(** How far the centroid of [n] points of magnitude at most [M] can be from
    their arithmetic mean: the error of the sum, divided, and the rounding
    of the division. *)
Definition centroidError (M : Q) (n : nat) : Q :=
  sumError M n / inject_Z (Z.of_nat n)
  + unitRoundoff * (M + sumError M n / inject_Z (Z.of_nat n))
  + underflowUnit.

(** The tolerance of the ghost fade: the last [lerp], between a resampled
    position and the centroid, and the centroid itself. *)
Definition fadeTolerance (M : Q) (n : nat) : Q :=
  lerpTolerance (sampleBound M + centroidError M n) + centroidError M n.

(** No sum of [centroidOf] and no difference of the last [lerp] is beyond
    the largest double, for [n] points of magnitude at most [M]. *)
Definition fadeInRange (M : Q) (n : nat) : Prop :=
  (inject_Z (Z.of_nat n) * M + sumError M n <= maxDouble)%Q /\
  (4 * (sampleBound M + centroidError M n) + 1 <= maxDouble)%Q.

(* ------------------------------------------------------------------ *)
(** ** Facts about numbers *)

Lemma Qltb_true (p q : Q) : Qltb p q = true <-> (p < q)%Q.
Proof.
  unfold Qltb. rewrite negb_true_iff.
  split; intro H.
  - apply Qnot_le_lt. intro Hle. apply Qle_bool_iff in Hle. congruence.
  - destruct (Qle_bool q p) eqn:E; [|reflexivity].
    apply Qle_bool_iff in E. exfalso. revert E. apply Qlt_not_le, H.
Qed.

Lemma Qltb_false (p q : Q) : Qltb p q = false <-> (q <= p)%Q.
Proof.
  unfold Qltb. rewrite negb_false_iff. apply Qle_bool_iff.
Qed.

Lemma Qeq_bool_false (p q : Q) : Qeq_bool p q = false <-> ~ (p == q)%Q.
Proof.
  split.
  - apply Qeq_bool_neq.
  - intro H. destruct (Qeq_bool p q) eqn:E; [|reflexivity].
    apply Qeq_bool_iff in E. contradiction.
Qed.

Lemma finite_Fin (q : Q) : finite (Fin q).
Proof. exists q. reflexivity. Qed.

Lemma finite_ofZ (z : Z) : finite (ofZ z).
Proof. apply finite_Fin. Qed.

Lemma finite_add (u v : num) : finite u -> finite v -> finite (add u v).
Proof. intros [p ->] [q ->]. apply finite_Fin. Qed.

Lemma finite_sub (u v : num) : finite u -> finite v -> finite (sub u v).
Proof. intros [p ->] [q ->]. apply finite_Fin. Qed.

Lemma finite_mul (u v : num) : finite u -> finite v -> finite (mul u v).
Proof. intros [p ->] [q ->]. apply finite_Fin. Qed.

Lemma finite_div (u v : num) :
  finite u -> finite v -> truthy v = true -> finite (div u v).
Proof.
  intros [p ->] [q ->]. simpl. rewrite negb_true_iff. intros ->.
  apply finite_Fin.
Qed.

Lemma finite_abs (u : num) : finite u -> finite (num_abs u).
Proof. intros [p ->]. apply finite_Fin. Qed.

Lemma finite_max (u v : num) : finite u -> finite v -> finite (num_max u v).
Proof.
  intros [p ->] [q ->]. simpl. destruct (Qltb p q); apply finite_Fin.
Qed.


Lemma ltb_finite_PInf (u : num) : finite u -> ltb u PInf = true.
Proof. intros [q ->]. reflexivity. Qed.

Lemma seq_num_eq (u v : num) : seq_num u v = true <-> (u =n= v)%num.
Proof.
  destruct u, v; simpl; try (split; [discriminate | contradiction]);
    try (split; intros _; [exact I | reflexivity]).
  apply Qeq_bool_iff.
Qed.

Lemma num_eq_finite (u v : num) : (u =n= v)%num -> finite v -> finite u.
Proof. intros H [q ->]. destruct u; try contradiction. apply finite_Fin. Qed.


Lemma notNegative_zero : notNegative (ofZ 0).
Proof. reflexivity. Qed.

Lemma notNegative_add (u v : num) :
  notNegative u -> notNegative v -> notNegative (add u v).
Proof.
  unfold notNegative.
  destruct u as [| |p|], v as [| |q|]; simpl; try congruence.
  intros Hp Hq. apply Qltb_false in Hp, Hq. apply Qltb_false.
  unfold inject_Z in *. lra.
Qed.

(** A sample position [k/(N-1) * total] never lies beyond [total]. *)
Lemma sample_position_le (total : num) (N : Z) (k : nat) :
  notNegative total -> (2 <= N)%Z -> (Z.of_nat k <= N - 1)%Z ->
  ltb total (mul (div (ofNat k) (ofZ (N - 1))) total) = false.
Proof.
  unfold notNegative. intros Hnn HN Hk.
  destruct total as [| |q|]; simpl in *; try reflexivity; try discriminate.
  - assert (Hne : Qeq_bool (inject_Z (N - 1)) 0 = false).
    { apply Qeq_bool_false. unfold Qeq, inject_Z. simpl. lia. }
    rewrite Hne. simpl. apply Qltb_false in Hnn. apply Qltb_false.
    assert (Hr : (inject_Z (Z.of_nat k) / inject_Z (N - 1) <= 1)%Q).
    { apply Qle_shift_div_r.
      - change 0%Q with (inject_Z 0). rewrite <- Zlt_Qlt. lia.
      - rewrite Qmult_1_l, <- Zle_Qle. lia. }
    unfold inject_Z in Hnn.
    setoid_replace q with (1 * q)%Q at 2 by ring.
    apply Qmult_le_compat_r; [exact Hr | lra].
  - destruct (Qeq_bool (inject_Z (N - 1)) 0);
      [destruct (Qeq_bool (inject_Z (Z.of_nat k)) 0);
       [reflexivity | destruct (Qltb 0 (inject_Z (Z.of_nat k))); reflexivity]|].
    simpl. unfold scaleInf.
    destruct (Qeq_bool _ 0); [reflexivity|].
    destruct (Qltb 0 _); reflexivity.
Qed.

(* ------------------------------------------------------------------ *)
(** ** Facts about loops and array reads *)

Lemma index_ok {A : Type} (arr : list A) (i : nat) :
  (i < length arr)%nat -> exists v, index arr i = Ok v /\ nth_error arr i = Some v.
Proof.
  intro Hi. unfold index.
  destruct (nth_error arr i) as [v|] eqn:E.
  - exists v. split; reflexivity.
  - apply nth_error_None in E. lia.
Qed.

Lemma index_throw {A : Type} (arr : list A) (i : nat) :
  (length arr <= i)%nat -> index arr i = Throw TypeError.
Proof.
  intro Hi. unfold index.
  apply nth_error_None in Hi. rewrite Hi. reflexivity.
Qed.

Lemma index_In {A : Type} (arr : list A) (i : nat) (v : A) :
  index arr i = Ok v -> In v arr.
Proof.
  unfold index. destruct (nth_error arr i) as [w|] eqn:E; [|discriminate].
  intro H. injection H as <-. eapply nth_error_In, E.
Qed.

Lemma mapM_ok {A B : Type} (f : A -> result B) (l : list A) :
  (forall e, In e l -> exists v, f e = Ok v) ->
  exists vs, mapM f l = Ok vs /\ length vs = length l.
Proof.
  induction l as [|e l IH]; intro Hf.
  - exists []. split; reflexivity.
  - destruct (Hf e (or_introl eq_refl)) as [v Hv].
    destruct IH as [vs [Hvs Hlen]].
    { intros e' He'. apply Hf. right. exact He'. }
    exists (v :: vs). simpl. rewrite Hv. simpl. rewrite Hvs. simpl.
    split; [reflexivity | congruence].
Qed.

Lemma mapM_Forall2 {A B : Type} (f : A -> result B) (l : list A) (vs : list B) :
  mapM f l = Ok vs -> Forall2 (fun e v => f e = Ok v) l vs.
Proof.
  revert vs. induction l as [|e l IH]; simpl; intros vs H.
  - injection H as <-. constructor.
  - destruct (f e) as [v|] eqn:Ev; simpl in H; [|discriminate].
    destruct (mapM f l) as [ws|] eqn:Ews; simpl in H; [|discriminate].
    injection H as <-. constructor; [exact Ev | apply IH; reflexivity].
Qed.

Lemma mapM_length {A B : Type} (f : A -> result B) (l : list A) (vs : list B) :
  mapM f l = Ok vs -> length vs = length l.
Proof.
  intro H. apply mapM_Forall2 in H. symmetry. eapply Forall2_length, H.
Qed.

Lemma mapM_throw {A B : Type} (f : A -> result B) (l : list A) (e : A) :
  In e l -> f e = Throw TypeError -> mapM f l = Throw TypeError.
Proof.
  induction l as [|e0 l IH]; simpl; intros Hin He; [contradiction|].
  destruct (f e0) as [v|[]] eqn:E0; simpl; [|reflexivity].
  destruct Hin as [-> | Hin]; [congruence|].
  rewrite IH; auto.
Qed.

Lemma skipn_nth_error {A : Type} (l : list A) (i : nat) (v : A) :
  nth_error l i = Some v -> skipn i l = v :: skipn (S i) l.
Proof.
  revert i. induction l as [|w l IH]; intros [|i]; simpl; try discriminate.
  - intro H. injection H as ->. reflexivity.
  - intro H. apply IH in H. exact H.
Qed.

(** A loop that reads two arrays side by side, run inside both. *)
Lemma mapM_index2 {A B : Type} (f : A -> A -> B) (la lb : list A) (n s : nat) :
  (s + n <= length la)%nat -> (s + n <= length lb)%nat ->
  mapM (fun j => qa <- index la j ;; qb <- index lb j ;; Ok (f qa qb)) (seq s n)
  = Ok (map (fun qq => f (fst qq) (snd qq))
            (combine (firstn n (skipn s la)) (firstn n (skipn s lb)))).
Proof.
  revert s. induction n as [|n IH]; intros s Ha Hb.
  - reflexivity.
  - destruct (index_ok la s ltac:(lia)) as [qa [Ea Na]].
    destruct (index_ok lb s ltac:(lia)) as [qb [Eb Nb]].
    simpl. rewrite Ea, Eb. simpl.
    rewrite IH by lia. simpl.
    rewrite (skipn_nth_error la s qa Na), (skipn_nth_error lb s qb Nb).
    reflexivity.
Qed.

Lemma upto_length (N : Z) : length (upto N) = Z.to_nat N.
Proof. unfold upto. apply length_seq. Qed.

Lemma upto_In (N : Z) (k : nat) : In k (upto N) <-> (Z.of_nat k < N)%Z.
Proof. unfold upto. rewrite in_seq. lia. Qed.

(* ------------------------------------------------------------------ *)
(** ** Resampling *)

Section ResampleFacts.

Variable dist : num -> num -> num -> num -> num.
Hypothesis dist_nn : forall x1 y1 x2 y2, notNegative (dist x1 y1 x2 y2).

Lemma cumulative_length (acc : num) (p : Point) (rest : list Point) :
  length (cumulative dist acc p rest) = length rest.
Proof.
  revert acc p. induction rest as [|q rest IH]; intros acc p; simpl.
  - reflexivity.
  - rewrite IH. reflexivity.
Qed.

Lemma table_last_notNegative (acc : num) (p : Point) (rest : list Point) :
  notNegative acc ->
  notNegative (last (acc :: cumulative dist acc p rest) NaN).
Proof.
  revert acc p. induction rest as [|q rest IH]; intros acc p Hacc.
  - exact Hacc.
  - change (notNegative
      (last (add acc (distPts dist p q)
             :: cumulative dist (add acc (distPts dist p q)) q rest) NaN)).
    apply IH. apply notNegative_add; [exact Hacc|].
    apply dist_nn.
Qed.

Lemma scan_ge (Ltail : list num) (t : num) (j : nat) :
  (j <= scan Ltail t j)%nat.
Proof.
  revert j. induction Ltail as [|l Ltail IH]; intro j; simpl.
  - lia.
  - destruct (ltb l t); [specialize (IH (S j)); lia | lia].
Qed.

(** The scan stops inside the table when its last entry is not below [t]. *)
Lemma scan_bound (Ltail : list num) (t : num) (j : nat) :
  Ltail <> [] -> ltb (last Ltail NaN) t = false ->
  (scan Ltail t j < j + length Ltail)%nat.
Proof.
  revert j. induction Ltail as [|l Ltail IH]; intros j Hne Hlast.
  - contradiction.
  - simpl. destruct Ltail as [|l' Ltail].
    + simpl in Hlast. rewrite Hlast. simpl. lia.
    + destruct (ltb l t).
      * assert (H := IH (S j)). simpl length in *.
        assert (Hb : (scan (l' :: Ltail) t (S j) < S j + S (length Ltail))%nat).
        { apply H; [discriminate | exact Hlast]. }
        lia.
      * simpl. lia.
Qed.

Lemma samplePoint_returns (p0 : Point) (rest : list Point) (N : Z) (k : nat) :
  rest <> [] -> (2 <= N)%Z -> (Z.of_nat k < N)%Z ->
  let L := ofZ 0 :: cumulative dist (ofZ 0) p0 rest in
  exists p, samplePoint (p0 :: rest) L (last L NaN) N k = Ok p.
Proof.
  intros Hne HN Hk L.
  assert (Hnn : notNegative (last L NaN)).
  { apply table_last_notNegative, notNegative_zero. }
  assert (Hpos := sample_position_le (last L NaN) N k Hnn HN ltac:(lia)).
  set (t := mul (div (ofNat k) (ofZ (N - 1))) (last L NaN)) in *.
  assert (Htl : tl L = cumulative dist (ofZ 0) p0 rest) by reflexivity.
  assert (Hcne : cumulative dist (ofZ 0) p0 rest <> []).
  { intro E. apply (f_equal (@length num)) in E.
    rewrite cumulative_length in E. destruct rest; [contradiction|discriminate]. }
  assert (Hlast : last L NaN = last (cumulative dist (ofZ 0) p0 rest) NaN).
  { unfold L. destruct (cumulative dist (ofZ 0) p0 rest); [contradiction|reflexivity]. }
  assert (Hj := scan_bound (cumulative dist (ofZ 0) p0 rest) t 1 Hcne
                  ltac:(rewrite <- Hlast; exact Hpos)).
  assert (Hj1 := scan_ge (cumulative dist (ofZ 0) p0 rest) t 1).
  rewrite cumulative_length in Hj.
  unfold samplePoint. fold t. rewrite Htl.
  set (j := scan (cumulative dist (ofZ 0) p0 rest) t 1) in *.
  destruct (@index_ok _ (p0 :: rest) (Nat.max 1 j - 1)) as [q0 [E0 _]];
    [simpl length; lia|].
  destruct (@index_ok _ (p0 :: rest) (Nat.max 1 j)) as [q1 [E1 _]];
    [simpl length; lia|].
  rewrite E0, E1. simpl. eexists. reflexivity.
Qed.

(** [resamplePointsLocal] returns, and with how many points. *)
Lemma resample_returns (pts : list Point) (N : Z) :
  exists out,
    resamplePointsLocal dist pts N = Ok out /\
    ((length pts < 2)%nat -> out = pts) /\
    ((2 <= length pts)%nat -> length out = Z.to_nat (Z.max 2 N)).
Proof.
  destruct pts as [|p0 [|p1 rest]].
  - exists []. simpl. repeat split; auto. intro H. simpl in H. lia.
  - exists [p0]. simpl. repeat split; auto. intro H. simpl in H. lia.
  - unfold resamplePointsLocal.
    set (L := ofZ 0 :: cumulative dist (ofZ 0) p0 (p1 :: rest)).
    destruct (seq_num (last L NaN) (ofZ 0)).
    + eexists. split; [reflexivity|]. split.
      * simpl. lia.
      * intros _. apply repeat_length.
    + destruct (@mapM_ok _ _ (samplePoint (p0 :: p1 :: rest) L (last L NaN) (Z.max 2 N))
                  (upto (Z.max 2 N))) as [out [Hout Hlen]].
      { intros k Hk. apply upto_In in Hk.
        apply samplePoint_returns; [discriminate | lia | exact Hk]. }
      exists out. split; [exact Hout|]. split.
      * simpl. lia.
      * intros _. rewrite Hlen. apply upto_length.
Qed.

End ResampleFacts.


Lemma resample_ok (dist : num -> num -> num -> num -> num)
    (dist_ok : DistSpec dist) (pts : list Point) (N : Z) :
  exists out,
    resamplePointsLocal dist pts N = Ok out /\
    ((length pts < 2)%nat -> out = pts) /\
    ((2 <= length pts)%nat -> length out = Z.to_nat (Z.max 2 N)).
Proof. apply resample_returns, (dist_nonneg dist dist_ok). Qed.

(* ------------------------------------------------------------------ *)
(** ** Tweening two strokes *)

Section TweenFacts.

Variable dist : num -> num -> num -> num -> num.
Hypothesis dist_nn : forall x1 y1 x2 y2, notNegative (dist x1 y1 x2 y2).

(** With two points or more on each side the tween returns; its points are
    the pointwise [lerp] of the first [N] resampled points. *)
Lemma tween_returns (a b : Stroke) (t : num) (N : Z) :
  (2 <= length (points a))%nat -> (2 <= length (points b))%nat ->
  exists pa pb s,
    resamplePointsLocal dist (points a) N = Ok pa /\
    resamplePointsLocal dist (points b) N = Ok pb /\
    length pa = Z.to_nat (Z.max 2 N) /\
    length pb = Z.to_nat (Z.max 2 N) /\
    tweenTwoStrokes dist a b t N = Ok s /\
    points s =
      map (fun qq => {| x := lerp (x (fst qq)) (x (snd qq)) t;
                        y := lerp (y (fst qq)) (y (snd qq)) t |})
          (combine (firstn (Z.to_nat N) pa) (firstn (Z.to_nat N) pb)) /\
    length (points s) = Z.to_nat N /\
    eraser s = false /\
    opacity s =
      Some (lerp (nullish (opacity a) (ofZ 100))
                 (nullish (opacity b) (ofZ 100)) t) /\
    thickness s =
      Some (lerp (falsyOr (thickness a) (ofZ 4))
                 (falsyOr (thickness b) (ofZ 4)) t) /\
    hsb_h (colHSB s) = lerp (hsb_h (colHSB a)) (hsb_h (colHSB b)) t /\
    hsb_s (colHSB s) = lerp (hsb_s (colHSB a)) (hsb_s (colHSB b)) t /\
    hsb_b (colHSB s) = lerp (hsb_b (colHSB a)) (hsb_b (colHSB b)) t /\
    hsb_a (colHSB s) =
      Some (lerp
        (nullish (opacity a) (nullish (hsb_a (colHSB a)) (ofZ 100)))
        (nullish (opacity b) (nullish (hsb_a (colHSB b)) (ofZ 100))) t).
Proof.
  intros Ha Hb.
  destruct (resample_returns dist dist_nn (points a) N) as [pa [Epa [_ Lpa]]].
  destruct (resample_returns dist dist_nn (points b) N) as [pb [Epb [_ Lpb]]].
  specialize (Lpa Ha). specialize (Lpb Hb).
  exists pa, pb. unfold tweenTwoStrokes. rewrite Epa, Epb. simpl.
  unfold upto.
  rewrite (mapM_index2
             (fun qa qb => {| x := lerp (x qa) (x qb) t;
                              y := lerp (y qa) (y qb) t |})
             pa pb (Z.to_nat N) 0) by lia.
  simpl. eexists.
  split; [reflexivity|]. split; [reflexivity|].
  split; [exact Lpa|]. split; [exact Lpb|].
  split; [reflexivity|]. split; [reflexivity|].
  split; [|repeat split].
  simpl. rewrite length_map, length_combine, !length_firstn. lia.
Qed.

(** A stroke too short to be resampled makes the tween throw as soon as the
    loop index passes its last point. *)
Lemma tween_short_throws (a b : Stroke) (t : num) (N : Z) :
  ((length (points a) < 2)%nat /\ (Z.of_nat (length (points a)) < N)%Z) \/
  ((length (points b) < 2)%nat /\ (Z.of_nat (length (points b)) < N)%Z) ->
  tweenTwoStrokes dist a b t N = Throw TypeError.
Proof.
  intro H.
  destruct (resample_returns dist dist_nn (points a) N) as [pa [Epa [Sa _]]].
  destruct (resample_returns dist dist_nn (points b) N) as [pb [Epb [Sb _]]].
  unfold tweenTwoStrokes. rewrite Epa, Epb. simpl.
  match goal with
  | |- bind (mapM ?f _) _ = _ =>
      assert (Hth : exists j, In j (upto N) /\ f j = Throw TypeError)
  end.
  { destruct H as [[H2 HN] | [H2 HN]].
    - exists (length (points a)). split; [apply upto_In; exact HN|].
      rewrite (Sa H2). rewrite index_throw by lia. reflexivity.
    - exists (length (points b)). split; [apply upto_In; exact HN|].
      rewrite (Sb H2). rewrite (index_throw (points b)) by lia.
      destruct (index pa (length (points b))) as [qa|[]]; reflexivity. }
  destruct Hth as [j [Hin Hj]].
  rewrite (mapM_throw _ _ j Hin Hj). reflexivity.
Qed.

End TweenFacts.

Lemma tween_ok (dist : num -> num -> num -> num -> num)
    (dist_ok : DistSpec dist) (a b : Stroke) (t : num) (N : Z) :
  (2 <= length (points a))%nat -> (2 <= length (points b))%nat ->
  exists pa pb s,
    resamplePointsLocal dist (points a) N = Ok pa /\
    resamplePointsLocal dist (points b) N = Ok pb /\
    length pa = Z.to_nat (Z.max 2 N) /\
    length pb = Z.to_nat (Z.max 2 N) /\
    tweenTwoStrokes dist a b t N = Ok s /\
    points s =
      map (fun qq => {| x := lerp (x (fst qq)) (x (snd qq)) t;
                        y := lerp (y (fst qq)) (y (snd qq)) t |})
          (combine (firstn (Z.to_nat N) pa) (firstn (Z.to_nat N) pb)) /\
    length (points s) = Z.to_nat N /\
    eraser s = false /\
    opacity s =
      Some (lerp (nullish (opacity a) (ofZ 100))
                 (nullish (opacity b) (ofZ 100)) t) /\
    thickness s =
      Some (lerp (falsyOr (thickness a) (ofZ 4))
                 (falsyOr (thickness b) (ofZ 4)) t) /\
    hsb_h (colHSB s) = lerp (hsb_h (colHSB a)) (hsb_h (colHSB b)) t /\
    hsb_s (colHSB s) = lerp (hsb_s (colHSB a)) (hsb_s (colHSB b)) t /\
    hsb_b (colHSB s) = lerp (hsb_b (colHSB a)) (hsb_b (colHSB b)) t /\
    hsb_a (colHSB s) =
      Some (lerp
        (nullish (opacity a) (nullish (hsb_a (colHSB a)) (ofZ 100)))
        (nullish (opacity b) (nullish (hsb_a (colHSB b)) (ofZ 100))) t).
Proof. apply tween_returns, (dist_nonneg dist dist_ok). Qed.

Lemma tween_throws (dist : num -> num -> num -> num -> num)
    (dist_ok : DistSpec dist) (a b : Stroke) (t : num) (N : Z) :
  ((length (points a) < 2)%nat /\ (Z.of_nat (length (points a)) < N)%Z) \/
  ((length (points b) < 2)%nat /\ (Z.of_nat (length (points b)) < N)%Z) ->
  tweenTwoStrokes dist a b t N = Throw TypeError.
Proof. apply tween_short_throws, (dist_nonneg dist dist_ok). Qed.

(* ------------------------------------------------------------------ *)
(** ** Matching *)

Lemma has_In (usedB : list nat) (j : nat) : has usedB j = true <-> In j usedB.
Proof.
  unfold has. rewrite existsb_exists. split.
  - intros [k [Hk E]]. apply Nat.eqb_eq in E. subst. exact Hk.
  - intro H. exists j. split; [exact H | apply Nat.eqb_refl].
Qed.

Lemma some_fst_In (prs : list (nat * nat)) (i : nat) :
  existsb (fun p => fst p =? i) prs = true <-> In i (map fst prs).
Proof.
  rewrite existsb_exists, in_map_iff. split.
  - intros [p [Hp E]]. apply Nat.eqb_eq in E. exists p. split; assumption.
  - intros [p [E Hp]]. exists p. split; [exact Hp | apply Nat.eqb_eq, E].
Qed.

Lemma some_snd_In (prs : list (nat * nat)) (j : nat) :
  existsb (fun p => snd p =? j) prs = true <-> In j (map snd prs).
Proof.
  rewrite existsb_exists, in_map_iff. split.
  - intros [p [Hp E]]. apply Nat.eqb_eq in E. exists p. split; assumption.
  - intros [p [E Hp]]. exists p. split; [exact Hp | apply Nat.eqb_eq, E].
Qed.

(** Indices chosen once and the indices left over make up [0 .. n-1]. *)
Lemma chosen_and_rest (l : list nat) (n : nat) (f : nat -> bool) :
  NoDup l -> (forall i, In i l -> (i < n)%nat) ->
  (forall i, f i = true <-> In i l) ->
  Permutation (l ++ filter (fun i => negb (f i)) (seq 0 n)) (seq 0 n).
Proof.
  intros Hnd Hlt Hf. apply NoDup_Permutation.
  - apply NoDup_app; [exact Hnd | apply NoDup_filter, seq_NoDup |].
    intros i Hi Hfi. apply filter_In in Hfi. destruct Hfi as [_ Hfi].
    apply Hf in Hi. rewrite Hi in Hfi. discriminate.
  - apply seq_NoDup.
  - intro i. rewrite in_app_iff, filter_In, in_seq. split.
    + intros [Hi | [Hi _]]; [apply Hlt in Hi|]; lia.
    + intro Hi. destruct (f i) eqn:E.
      * left. apply Hf, E.
      * right. split; [lia | reflexivity].
Qed.

Section MatchFacts.

Variable dist : num -> num -> num -> num -> num.

(** What the inner loop returns is the incoming best or a free index. *)
Lemma bestFrom_some (a : Stroke) (B : list Stroke) (j : nat)
    (usedB : list nat) (bestJ : option nat) (bestC : num) (r : nat) :
  bestFrom dist a B j usedB bestJ bestC = Some r ->
  bestJ = Some r \/ ((j <= r < j + length B)%nat /\ has usedB r = false).
Proof.
  revert j bestJ bestC.
  induction B as [|bj B IH]; intros j bestJ bestC H; simpl in H.
  - left. exact H.
  - destruct (has usedB j) eqn:Eu.
    + apply IH in H. destruct H as [H | [H1 H2]]; [left; exact H|].
      right. simpl. split; [lia | exact H2].
    + destruct (ltb (strokeMatchCost dist a bj) bestC).
      * apply IH in H. destruct H as [H | [H1 H2]].
        -- injection H as <-. right. simpl. split; [lia | exact Eu].
        -- right. simpl. split; [lia | exact H2].
      * apply IH in H. destruct H as [H | [H1 H2]]; [left; exact H|].
        right. simpl. split; [lia | exact H2].
Qed.


Lemma matchInv_skip (nB i : nat) (prs : list (nat * nat)) (usedB : list nat) :
  matchInv nB i prs usedB -> matchInv nB (S i) prs usedB.
Proof.
  intros [H1 [H2 [H3 H4]]]. repeat split; try assumption; try apply H1;
    destruct (H4 p H); lia.
Qed.

Lemma matchInv_push (nB i r : nat) (prs : list (nat * nat)) (usedB : list nat) :
  matchInv nB i prs usedB -> (r < nB)%nat -> has usedB r = false ->
  matchInv nB (S i) (prs ++ [(i, r)]) (r :: usedB).
Proof.
  intros [H1 [H2 [H3 H4]]] Hr Hu.
  assert (Hnot : ~ In r (map snd prs)).
  { intro Hin. apply H1, has_In in Hin. congruence. }
  assert (Hperm : forall l (v : nat), Permutation (l ++ [v]) (v :: l)).
  { intros l v. symmetry. apply Permutation_cons_append. }
  repeat split.
  - rewrite map_app, in_app_iff. simpl. intros [-> | Hj]; [tauto|].
    left. apply H1, Hj.
  - rewrite map_app, in_app_iff. simpl. intros [Hj | [<- | []]]; [|tauto].
    right. apply H1, Hj.
  - rewrite map_app. simpl.
    eapply Permutation_NoDup; [symmetry; apply Hperm|].
    constructor; assumption.
  - rewrite map_app. simpl.
    eapply Permutation_NoDup; [symmetry; apply Hperm|].
    constructor; [|assumption].
    intro Hin. apply in_map_iff in Hin. destruct Hin as [p [E Hp]].
    apply H4 in Hp. lia.
  - apply in_app_iff in H. destruct H as [H | [<- | []]]; simpl; [|lia].
    destruct (H4 p H). lia.
  - apply in_app_iff in H. destruct H as [H | [<- | []]]; simpl; [|lia].
    destruct (H4 p H). lia.
Qed.

Lemma matchFrom_inv (A B : list Stroke) (i : nat)
    (prs : list (nat * nat)) (usedB : list nat) :
  matchInv (length B) i prs usedB ->
  exists usedB',
    matchInv (length B) (i + length A) (matchFrom dist A B i prs usedB) usedB'.
Proof.
  revert i prs usedB. induction A as [|ai A IH]; intros i prs usedB Hinv.
  - exists usedB. simpl. rewrite Nat.add_0_r. exact Hinv.
  - simpl. replace (i + S (length A))%nat with (S i + length A)%nat by lia.
    destruct (bestFrom dist ai B 0 usedB None PInf) as [r|] eqn:Eb.
    + apply IH. apply bestFrom_some in Eb.
      destruct Eb as [Eb | [Hr Hu]]; [discriminate|].
      apply matchInv_push; [exact Hinv | lia | exact Hu].
    + apply IH. apply matchInv_skip, Hinv.
Qed.

Lemma matchInv_nil (nB : nat) : matchInv nB 0 [] [].
Proof.
  repeat split; simpl; try tauto; try constructor; contradiction.
Qed.

Lemma matchStrokes_inv (A B : list Stroke) :
  exists usedB,
    matchInv (length B) (length A) (pairs (matchStrokes dist A B)) usedB.
Proof.
  destruct (matchFrom_inv A B 0 [] [] (matchInv_nil (length B)))
    as [usedB H].
  exists usedB. exact H.
Qed.


End MatchFacts.

Section MatchCounting.

Variable dist : num -> num -> num -> num -> num.
Variables A0 B : list Stroke.
Hypothesis cost_finite :
  forall a b, In a A0 -> In b B -> finite (strokeMatchCost dist a b).

Lemma matchInv_length (i : nat) (prs : list (nat * nat)) (usedB : list nat) :
  matchInv (length B) i prs usedB -> (length prs <= length B)%nat.
Proof.
  intros [_ [Hnd [_ Hlt]]].
  rewrite <- (length_map snd prs), <- (length_seq (length B) 0).
  apply NoDup_incl_length; [exact Hnd|].
  intros j Hj. apply in_map_iff in Hj. destruct Hj as [p [<- Hp]].
  apply in_seq. destruct (Hlt p Hp). lia.
Qed.


End MatchCounting.

(* ------------------------------------------------------------------ *)
(** ** Finite coordinates give finite costs *)

Section FiniteCost.

Variable dist : num -> num -> num -> num -> num.
Hypothesis dist_ok : DistSpec dist.

Lemma distPts_finite (p q : Point) :
  finitePoint p -> finitePoint q -> finite (distPts dist p q).
Proof.
  destruct p as [u1 v1], q as [u2 v2]. unfold finitePoint, distPts. simpl.
  intros [[p1 ->] [p2 ->]] [[q1 ->] [q2 ->]].
  apply (dist_finite dist dist_ok).
Qed.

Lemma fold_add_finite (f : Point -> num) (pts : list Point) (acc : num) :
  finite acc -> Forall (fun p => finite (f p)) pts ->
  finite (fold_left (fun acc p => add acc (f p)) pts acc).
Proof.
  revert acc. induction pts as [|p pts IH]; intros acc Hacc Hall; simpl.
  - exact Hacc.
  - inversion Hall; subst. apply IH; [apply finite_add|]; assumption.
Qed.

Lemma truthy_ofNat (n : nat) : (0 < n)%nat -> truthy (ofNat n) = true.
Proof.
  intro Hn. simpl. apply negb_true_iff, Qeq_bool_false.
  unfold Qeq, inject_Z. simpl. lia.
Qed.

Lemma centroidOf_finite (pts : list Point) :
  Forall finitePoint pts -> finitePoint (centroidOf pts).
Proof.
  intro Hall. destruct pts as [|p pts].
  - split; apply finite_ofZ.
  - unfold centroidOf.
    split; cbn [x y];
      (apply finite_div;
       [apply fold_add_finite; [apply finite_ofZ|]
       | apply finite_ofZ
       | apply truthy_ofNat; simpl; lia]);
      eapply Forall_impl; [|exact Hall| |exact Hall]; intros q [Hx Hy]; assumption.
Qed.

Lemma lengthFrom_finite (L : num) (prev : Point) (rest : list Point) :
  finite L -> finitePoint prev -> Forall finitePoint rest ->
  finite (lengthFrom dist L prev rest).
Proof.
  revert L prev. induction rest as [|p rest IH]; intros L prev HL Hp Hall; simpl.
  - exact HL.
  - inversion Hall; subst.
    apply IH; [apply finite_add; [exact HL | apply distPts_finite] | |];
      assumption.
Qed.

Lemma lengthOf_finite (pts : list Point) :
  Forall finitePoint pts -> finite (lengthOf dist pts).
Proof.
  intro Hall. destruct pts as [|p pts]; simpl.
  - apply finite_ofZ.
  - inversion Hall; subst.
    apply lengthFrom_finite; [apply finite_ofZ | |]; assumption.
Qed.

Lemma strokeMatchCost_finite (a b : Stroke) :
  finiteStroke a -> finiteStroke b -> finite (strokeMatchCost dist a b).
Proof.
  intros Ha Hb. unfold strokeMatchCost.
  apply finite_add.
  - apply (distPts_finite (centroidOf (points a)) (centroidOf (points b)));
      apply centroidOf_finite; assumption.
  - apply finite_mul; [|apply finite_Fin].
    apply finite_abs, finite_sub; apply finite_max;
      try apply finite_ofZ; apply lengthOf_finite; assumption.
Qed.

End FiniteCost.

(* ------------------------------------------------------------------ *)
(** ** Facts about lists *)

Lemma In_firstn {A : Type} (n : nat) (l : list A) (v : A) :
  In v (firstn n l) -> In v l.
Proof.
  revert l. induction n as [|n IH]; intros [|w l]; simpl; try tauto.
  intros [-> | H]; [left; reflexivity | right; apply IH, H].
Qed.

Lemma last_Forall {A : Type} (P : A -> Prop) (l : list A) (d : A) :
  l <> [] -> Forall P l -> P (last l d).
Proof.
  induction l as [|v l IH]; intros Hne Hall; [contradiction|].
  inversion Hall; subst. destruct l as [|w l]; [assumption|].
  apply IH; [discriminate | assumption].
Qed.

Lemma Forall2_in_r_exists {A B : Type} (R : A -> B -> Prop)
    (l1 : list A) (l2 : list B) (v : B) :
  Forall2 R l1 l2 -> In v l2 -> exists e, In e l1 /\ R e v.
Proof.
  induction 1 as [|e w l1 l2 HR _ IH]; simpl; [contradiction|].
  intros [<- | Hin].
  - exists e. split; [left; reflexivity | exact HR].
  - destruct (IH Hin) as [e' [He' HR']]. exists e'. split; [right|]; assumption.
Qed.


(* ------------------------------------------------------------------ *)
(** ** The runnable [dist] meets [DistSpec] *)

Lemma sqrtQ_nonneg (q : Q) : (0 <= sqrtQ q)%Q.
Proof.
  unfold sqrtQ. rewrite Qred_correct. unfold Qle. simpl.
  rewrite Z.mul_1_r. apply Z.sqrt_nonneg.
Qed.

Lemma sqrtQ_zero (q : Q) : (q == 0)%Q -> (sqrtQ q == 0)%Q.
Proof.
  intro H. unfold sqrtQ. rewrite Qred_correct.
  assert (Hn : Qnum q = 0%Z).
  { unfold Qeq in H. simpl in H. lia. }
  rewrite Hn. reflexivity.
Qed.

Lemma distQ_spec : DistSpec distQ.
Proof.
  constructor.
  - intros x1 y1 x2 y2. unfold distQ.
    destruct (sub x2 x1), (sub y2 y1); try reflexivity.
    simpl. apply Qltb_false. apply sqrtQ_nonneg.
  - intros x1 y1 x2 y2. unfold distQ. simpl. apply finite_Fin.
  - intros x1 y1. unfold distQ. simpl. apply Qeq_bool_iff.
    apply sqrtQ_zero. ring.
Qed.

(* ------------------------------------------------------------------ *)
(** ** The embedding at work *)

(** [strokeA] has arc length 11: the middle of three samples lies 0.5 into
    its second segment. *)
Example resample_strokeA :
  exists out,
    resamplePointsLocal distQ (points strokeA) 3 = Ok out /\
    Forall2 pointEq out
      [pt 0 0; {| x := ofZ 3; y := Fin (9 # 2) |}; pt 3 10].
Proof.
  eexists. split; [vm_compute; reflexivity|].
  repeat constructor; vm_compute; reflexivity.
Qed.

(** The greedy matcher gives the cheaper partner to the first stroke. *)
Example match_three_two :
  matchStrokes distQ [strokeA; strokeB; strokeDot] [strokeB; strokeA]
  = {| pairs := [(0, 1); (1, 0)]%nat; unmatchedA := [2%nat];
       unmatchedB := [] |}.
Proof. vm_compute. reflexivity. Qed.

(** Half way through 900 ms and three keyframes: the second segment starts,
    and the frame is the second keyframe tweened towards the third. *)
Example drawFrame_midway :
  exists tween,
    drawFrame distQ clock900 (ofZ 450) threeFrames "Linear"
    = Ok (clock900, Some tween) /\
    length tween = 2%nat.
Proof.
  eexists. split; [vm_compute; reflexivity | reflexivity].
Qed.

(* ------------------------------------------------------------------ *)
(** ** The clock *)

Lemma Number_falsy (parse : string -> num) (d : JsValue) :
  truthy (Number parse d) = false <->
  d = JUndefined \/ d = JNull \/ d = JBool false \/ d = JNum NaN \/
  (exists q, d = JNum (Fin q) /\ (q == 0)%Q) \/
  (exists s, d = JStr s /\ truthy (parse s) = false).
Proof.
  split.
  - destruct d as [| |[|]|[| |q|]|s]; simpl; intro H; try discriminate; auto.
    + do 4 right. left. exists q. split; [reflexivity|].
      apply negb_false_iff, Qeq_bool_iff in H. exact H.
    + do 5 right. exists s. split; [reflexivity | exact H].
  - intros [-> | [-> | [-> | [-> | [[q [-> Hq]] | [s [-> Hs]]]]]]]; simpl; auto.
    apply negb_false_iff, Qeq_bool_iff, Hq.
Qed.

(** C3, as amended: [start(d)] records the start time and sets the clock
    running; it falls back to the default duration 10000 exactly for the
    arguments whose conversion [Number(d)] is falsy, that is [0] or [NaN]
    ([undefined], [null], [false], [0], [NaN], a string that reads as one of
    these), and keeps [Number(d)] as the duration otherwise, negative
    numbers included. *)
Theorem start_default_duration (parse : string -> num) (st : AnimState)
    (now : num) (d : JsValue) :
  running (start parse st now d) = true /\
  startMs (start parse st now d) = now /\
  (truthy (Number parse d) = false ->
   durationMs (start parse st now d) = ofZ 10000) /\
  (truthy (Number parse d) = true ->
   durationMs (start parse st now d) = Number parse d).
Proof.
  unfold start, orElse. simpl.
  repeat split; intro H; rewrite H; reflexivity.
Qed.

Lemma start_default_duration_witness :
  durationMs (start strToNumQ initialAnim (ofZ 42) JUndefined) = ofZ 10000 /\
  durationMs (start strToNumQ initialAnim (ofZ 42) (JNum (ofZ 2500)))
  = ofZ 2500.
Proof.
  split.
  - apply (start_default_duration strToNumQ initialAnim (ofZ 42) JUndefined).
    reflexivity.
  - apply (start_default_duration strToNumQ initialAnim (ofZ 42)
             (JNum (ofZ 2500))).
    reflexivity.
Defined.

(** C3 as stated fails: [-5] is not a positive number, yet [start(-5)] keeps
    [-5] as the duration. *)
Lemma start_negative_duration :
  ~ positiveNumber (JNum (ofZ (-5))) /\
  start strToNumQ initialAnim (ofZ 42) (JNum (ofZ (-5)))
  = {| running := true; startMs := ofZ 42; durationMs := ofZ (-5) |} /\
  ~ (ofZ (-5) =n= ofZ 10000)%num.
Proof.
  split; [|split].
  - intros [u [E H]]. injection E as <-. discriminate H.
  - reflexivity.
  - simpl. intro H. discriminate H.
Qed.

(** C8: with two keyframes or more and [tGlobal >= 1], [drawFrame] hands
    the strokes of the last keyframe to [drawDrawing] as they are and leaves
    the running state. *)
Theorem drawFrame_final (dist : num -> num -> num -> num -> num)
    (st : AnimState) (now : num) (storedDrawings : list Drawing)
    (easeName : string) :
  (2 <= length storedDrawings)%nat ->
  geb (tGlobalOf st now) (ofZ 1) = true ->
  exists final,
    nth_error storedDrawings (length storedDrawings - 1) = Some final /\
    drawFrame dist st now storedDrawings easeName
    = Ok ({| running := false; startMs := startMs st;
             durationMs := durationMs st |},
          Some (strokes final)).
Proof.
  intros Hn Ht.
  destruct (index_ok storedDrawings (length storedDrawings - 1) ltac:(lia))
    as [final [Ei En]].
  exists final. split; [exact En|].
  unfold drawFrame.
  destruct (length storedDrawings <? 2)%nat eqn:E.
  - apply Nat.ltb_lt in E. lia.
  - rewrite Ht, Ei. reflexivity.
Qed.

Lemma drawFrame_final_witness :
  exists final,
    nth_error threeFrames 2 = Some final /\
    drawFrame distQ clock1000 (ofZ 1000) threeFrames "Linear"
    = Ok ({| running := false; startMs := ofZ 0; durationMs := ofZ 1000 |},
          Some (strokes final)).
Proof.
  apply (drawFrame_final distQ clock1000 (ofZ 1000) threeFrames "Linear").
  - simpl. lia.
  - reflexivity.
Defined.





(* ------------------------------------------------------------------ *)
(** ** Resampling and tweening: the claims *)

(** C4: a polyline of two points or more resamples to exactly
    [max(2, N)] points, which is [N] for [N >= 2]; a smaller [N] is raised to
    2 first. *)
Theorem resample_length (dist : num -> num -> num -> num -> num)
    (P : list Point) (N : Z) :
  DistSpec dist -> (2 <= length P)%nat ->
  exists out,
    resamplePointsLocal dist P N = Ok out /\
    length out = Z.to_nat (Z.max 2 N) /\
    ((2 <= N)%Z -> Z.of_nat (length out) = N) /\
    ((N < 2)%Z -> length out = 2%nat).
Proof.
  intros Hd HP.
  destruct (resample_ok dist Hd P N) as [out [Eout [_ Hlen]]].
  exists out. specialize (Hlen HP).
  split; [exact Eout|]. split; [exact Hlen|]. split; intro HN; lia.
Qed.

Lemma resample_length_witness :
  exists out,
    resamplePointsLocal distQ (points strokeA) 7 = Ok out /\
    length out = Z.to_nat (Z.max 2 7) /\
    ((2 <= 7)%Z -> Z.of_nat (length out) = 7%Z) /\
    ((7 < 2)%Z -> length out = 2%nat).
Proof.
  apply (resample_length distQ (points strokeA) 7).
  - exact distQ_spec.
  - simpl. lia.
Defined.

(** C1, as amended.  [resamplePointsLocal] never throws: with fewer than two
    points it returns a copy of its input, otherwise [max(2, N)] points.
    [tweenTwoStrokes] returns a stroke of [max(0, N)] points, not an eraser,
    when both strokes have two points or more; it throws a TypeError when a
    stroke has fewer than two points and fewer than [N] points. *)
Theorem resample_and_tween_defined (dist : num -> num -> num -> num -> num) :
  DistSpec dist ->
  (forall (pts : list Point) (N : Z),
     exists out,
       resamplePointsLocal dist pts N = Ok out /\
       ((length pts < 2)%nat -> out = pts) /\
       ((2 <= length pts)%nat -> length out = Z.to_nat (Z.max 2 N))) /\
  (forall (a b : Stroke) (t : num) (N : Z),
     (2 <= length (points a))%nat -> (2 <= length (points b))%nat ->
     exists s,
       tweenTwoStrokes dist a b t N = Ok s /\
       length (points s) = Z.to_nat N /\ eraser s = false) /\
  (forall (a b : Stroke) (t : num) (N : Z),
     ((length (points a) < 2)%nat /\ (Z.of_nat (length (points a)) < N)%Z) \/
     ((length (points b) < 2)%nat /\ (Z.of_nat (length (points b)) < N)%Z) ->
     tweenTwoStrokes dist a b t N = Throw TypeError).
Proof.
  intro Hd. split; [|split].
  - intros pts N. apply resample_ok, Hd.
  - intros a b t N Ha Hb.
    destruct (tween_ok dist Hd a b t N Ha Hb)
      as [pa [pb [s [_ [_ [_ [_ [Es [_ [Hlen [Her _]]]]]]]]]]].
    exists s. repeat split; assumption.
  - intros a b t N H. apply tween_throws; assumption.
Qed.

Lemma resample_and_tween_defined_witness :
  (exists out,
     resamplePointsLocal distQ (points strokeDot) 60 = Ok out /\
     ((length (points strokeDot) < 2)%nat -> out = points strokeDot) /\
     ((2 <= length (points strokeDot))%nat ->
      length out = Z.to_nat (Z.max 2 60))) /\
  (exists s,
     tweenTwoStrokes distQ strokeA strokeB (Fin (1 # 2)) 60 = Ok s /\
     length (points s) = Z.to_nat 60 /\ eraser s = false).
Proof.
  destruct (resample_and_tween_defined distQ distQ_spec) as [H1 [H2 _]].
  split.
  - apply H1.
  - apply H2; simpl; lia.
Defined.

(** C1 as stated fails: a one-point stroke makes [tweenTwoStrokes] throw,
    here with the default [N = 60] and already with [N = 2]. *)
Lemma tween_short_stroke_throws :
  tweenTwoStrokes distQ strokeDot strokeB (ofZ 0) 60 = Throw TypeError /\
  tweenTwoStrokes distQ strokeDot strokeB (ofZ 0) 2 = Throw TypeError /\
  tweenTwoStrokes distQ strokeB strokeDot (Fin (1 # 2)) 60 = Throw TypeError.
Proof.
  repeat split; vm_compute; reflexivity.
Qed.

(* ------------------------------------------------------------------ *)
(** ** Matching: the claims *)

Lemma match_pairs_perm (dist : num -> num -> num -> num -> num)
    (A B : list Stroke) :
  Permutation (map fst (pairs (matchStrokes dist A B))
               ++ unmatchedA (matchStrokes dist A B))
              (seq 0 (length A)) /\
  Permutation (map snd (pairs (matchStrokes dist A B))
               ++ unmatchedB (matchStrokes dist A B))
              (seq 0 (length B)).
Proof.
  destruct (matchStrokes_inv dist A B) as [usedB [_ [Hs [Hf Hlt]]]].
  split.
  - apply chosen_and_rest; [exact Hf | | apply some_fst_In].
    intros i Hi. apply in_map_iff in Hi. destruct Hi as [p [<- Hp]].
    apply Hlt, Hp.
  - apply chosen_and_rest; [exact Hs | | apply some_snd_In].
    intros j Hj. apply in_map_iff in Hj. destruct Hj as [p [<- Hp]].
    apply Hlt, Hp.
Qed.

(** C5: in the result of [matchStrokes(A, B)] the first components of the
    pairs together with [unmatchedA] list every index of [A] exactly once,
    the second components together with [unmatchedB] every index of [B]
    exactly once, and no index is in two pairs. *)
Theorem match_totality (dist : num -> num -> num -> num -> num)
    (A B : list Stroke) :
  Permutation (map fst (pairs (matchStrokes dist A B))
               ++ unmatchedA (matchStrokes dist A B))
              (seq 0 (length A)) /\
  Permutation (map snd (pairs (matchStrokes dist A B))
               ++ unmatchedB (matchStrokes dist A B))
              (seq 0 (length B)) /\
  NoDup (map fst (pairs (matchStrokes dist A B))) /\
  NoDup (map snd (pairs (matchStrokes dist A B))).
Proof.
  destruct (matchStrokes_inv dist A B) as [usedB [_ [Hs [Hf _]]]].
  destruct (match_pairs_perm dist A B) as [PA PB].
  repeat split; assumption.
Qed.

(** ** Matching on doubles *)

Section MatchingOnDoubles.

Variable rnd : Q -> num.
Variable dist : num -> num -> num -> num -> num.

(** What the inner loop returns is the incoming best or a free index. *)
Lemma bestFrom_some_rounded (a : Stroke) (B : list Stroke) (j : nat)
    (usedB : list nat) (bestJ : option nat) (bestC : num) (r : nat) :
  Rounded.bestFrom rnd dist a B j usedB bestJ bestC = Some r ->
  bestJ = Some r \/ ((j <= r < j + length B)%nat /\ has usedB r = false).
Proof.
  revert j bestJ bestC.
  induction B as [|bj B IH]; intros j bestJ bestC H; simpl in H.
  - left. exact H.
  - destruct (has usedB j) eqn:Eu.
    + apply IH in H. destruct H as [H | [H1 H2]]; [left; exact H|].
      right. simpl. split; [lia | exact H2].
    + destruct (ltb (Rounded.strokeMatchCost rnd dist a bj) bestC).
      * apply IH in H. destruct H as [H | [H1 H2]].
        -- injection H as <-. right. simpl. split; [lia | exact Eu].
        -- right. simpl. split; [lia | exact H2].
      * apply IH in H. destruct H as [H | [H1 H2]]; [left; exact H|].
        right. simpl. split; [lia | exact H2].
Qed.

(** Once a candidate is held the inner loop ends with one. *)
Lemma bestFrom_keeps_rounded (a : Stroke) (B : list Stroke) (j : nat)
    (usedB : list nat) (r : nat) (bestC : num) :
  exists r', Rounded.bestFrom rnd dist a B j usedB (Some r) bestC = Some r'.
Proof.
  revert j r bestC. induction B as [|bj B IH]; intros j r bestC; simpl.
  - exists r. reflexivity.
  - destruct (has usedB j); [apply IH|].
    destruct (ltb (Rounded.strokeMatchCost rnd dist a bj) bestC); apply IH.
Qed.

(** With finite costs the inner loop comes back empty-handed only when
    every index it visits is used. *)
Lemma bestFrom_none_rounded (a : Stroke) (B : list Stroke) (j : nat)
    (usedB : list nat) :
  (forall bj, In bj B -> finite (Rounded.strokeMatchCost rnd dist a bj)) ->
  Rounded.bestFrom rnd dist a B j usedB None PInf = None ->
  forall r, (j <= r < j + length B)%nat -> has usedB r = true.
Proof.
  revert j. induction B as [|bj B IH]; intros j Hfin H r Hr; simpl in *.
  - lia.
  - destruct (has usedB j) eqn:Eu.
    + destruct (Nat.eq_dec r j) as [-> | Hne]; [exact Eu|].
      apply (IH (S j)); [intros; apply Hfin; right; assumption | exact H | lia].
    + rewrite (ltb_finite_PInf _ (Hfin bj (or_introl eq_refl))) in H.
      destruct (bestFrom_keeps_rounded a B (S j) usedB j (Rounded.strokeMatchCost rnd dist a bj))
        as [r' Hr'].
      rewrite Hr' in H. discriminate.
Qed.

Lemma matchFrom_inv_rounded (A B : list Stroke) (i : nat)
    (prs : list (nat * nat)) (usedB : list nat) :
  matchInv (length B) i prs usedB ->
  exists usedB',
    matchInv (length B) (i + length A) (Rounded.matchFrom rnd dist A B i prs usedB) usedB'.
Proof.
  revert i prs usedB. induction A as [|ai A IH]; intros i prs usedB Hinv.
  - exists usedB. simpl. rewrite Nat.add_0_r. exact Hinv.
  - simpl. replace (i + S (length A))%nat with (S i + length A)%nat by lia.
    destruct (Rounded.bestFrom rnd dist ai B 0 usedB None PInf) as [r|] eqn:Eb.
    + apply IH. apply bestFrom_some_rounded in Eb.
      destruct Eb as [Eb | [Hr Hu]]; [discriminate|].
      apply matchInv_push; [exact Hinv | lia | exact Hu].
    + apply IH. apply matchInv_skip, Hinv.
Qed.

Lemma matchStrokes_inv_rounded (A B : list Stroke) :
  exists usedB,
    matchInv (length B) (length A) (pairs (Rounded.matchStrokes rnd dist A B)) usedB.
Proof.
  destruct (matchFrom_inv_rounded A B 0 [] [] (matchInv_nil (length B)))
    as [usedB H].
  exists usedB. exact H.
Qed.

(** The pairs are built by pushing only. *)
Lemma matchFrom_incl_rounded (A B : list Stroke) (i : nat)
    (prs : list (nat * nat)) (usedB : list nat) (p : nat * nat) :
  In p prs -> In p (Rounded.matchFrom rnd dist A B i prs usedB).
Proof.
  revert i prs usedB. induction A as [|ai A IH]; intros i prs usedB Hp; simpl.
  - exact Hp.
  - destruct (Rounded.bestFrom rnd dist ai B 0 usedB None PInf) as [r|].
    + apply IH. apply in_app_iff. left. exact Hp.
    + apply IH. exact Hp.
Qed.

Variables A0 B : list Stroke.
Hypothesis cost_finite :
  forall a b, In a A0 -> In b B ->
              finite (Rounded.strokeMatchCost rnd dist a b).

(** When the inner loop finds nothing, every index of [B] is paired. *)
Lemma none_all_paired_rounded (a : Stroke) (i : nat) (prs : list (nat * nat))
    (usedB : list nat) :
  In a A0 -> matchInv (length B) i prs usedB ->
  Rounded.bestFrom rnd dist a B 0 usedB None PInf = None ->
  forall j, (j < length B)%nat -> In j (map snd prs).
Proof.
  intros Ha [Hu _] Hnone j Hj.
  apply Hu, has_In.
  apply (bestFrom_none_rounded a B 0 usedB); [|exact Hnone | lia].
  intros bj Hbj. apply cost_finite; assumption.
Qed.

Lemma matchFrom_count_rounded (A : list Stroke) (i : nat) (prs : list (nat * nat))
    (usedB : list nat) :
  incl A A0 -> matchInv (length B) i prs usedB ->
  length (Rounded.matchFrom rnd dist A B i prs usedB)
  = Nat.min (length prs + length A) (length B).
Proof.
  revert i prs usedB. induction A as [|ai A IH]; intros i prs usedB Hsub Hinv.
  - simpl. apply (matchInv_length B) in Hinv. lia.
  - assert (Hai : In ai A0) by (apply Hsub; left; reflexivity).
    assert (Hsub' : incl A A0) by (intros a Ha; apply Hsub; right; exact Ha).
    simpl. destruct (Rounded.bestFrom rnd dist ai B 0 usedB None PInf) as [r|] eqn:Eb.
    + apply bestFrom_some_rounded in Eb.
      destruct Eb as [Eb | [Hr Hu]]; [discriminate|].
      rewrite IH with (i := S i); [|exact Hsub'|].
      * rewrite length_app. simpl. f_equal. lia.
      * apply matchInv_push; [exact Hinv | lia | exact Hu].
    + rewrite IH with (i := S i);
        [|exact Hsub' | apply matchInv_skip, Hinv].
      assert (Hle := matchInv_length B i prs usedB Hinv).
      assert (Hge : (length B <= length prs)%nat).
      { rewrite <- (length_map snd prs), <- (length_seq (length B) 0).
        apply NoDup_incl_length; [apply seq_NoDup|].
        intros j Hj. apply in_seq in Hj.
        apply (none_all_paired_rounded ai i prs usedB Hai Hinv Eb). lia. }
      lia.
Qed.

(** An index of [A] left without a pair found all of [B] taken by earlier
    indices. *)
Lemma matchFrom_unmatched_rounded (A : list Stroke) (i : nat)
    (prs : list (nat * nat)) (usedB : list nat) (i0 : nat) :
  incl A A0 -> matchInv (length B) i prs usedB ->
  (i <= i0 < i + length A)%nat ->
  ~ In i0 (map fst (Rounded.matchFrom rnd dist A B i prs usedB)) ->
  forall j, (j < length B)%nat ->
  exists i', (i' < i0)%nat /\ In (i', j) (Rounded.matchFrom rnd dist A B i prs usedB).
Proof.
  revert i prs usedB.
  induction A as [|ai A IH]; intros i prs usedB Hsub Hinv Hi0 Hnot j Hj.
  - simpl in Hi0. lia.
  - assert (Hai : In ai A0) by (apply Hsub; left; reflexivity).
    assert (Hsub' : incl A A0) by (intros a Ha; apply Hsub; right; exact Ha).
    simpl in *. destruct (Rounded.bestFrom rnd dist ai B 0 usedB None PInf) as [r|] eqn:Eb.
    + destruct (Nat.eq_dec i0 i) as [-> | Hne].
      * exfalso. apply Hnot. apply in_map_iff. exists (i, r). split; [reflexivity|].
        apply matchFrom_incl_rounded, in_app_iff. right. left. reflexivity.
      * apply bestFrom_some_rounded in Eb.
        destruct Eb as [Eb | [Hr Hu]]; [discriminate|].
        apply (IH (S i)); auto; [|lia].
        apply matchInv_push; [exact Hinv | lia | exact Hu].
    + destruct (Nat.eq_dec i0 i) as [-> | Hne].
      * assert (Hin := none_all_paired_rounded ai i prs usedB Hai Hinv Eb j Hj).
        apply in_map_iff in Hin. destruct Hin as [[i' j'] [E Hp]].
        simpl in E. subst j'.
        destruct Hinv as [_ [_ [_ Hlt]]]. destruct (Hlt _ Hp) as [Hlt1 _].
        exists i'. split; [exact Hlt1 | apply matchFrom_incl_rounded, Hp].
      * apply (IH (S i)); auto; [apply matchInv_skip, Hinv | lia].
Qed.

End MatchingOnDoubles.

Lemma match_pairs_perm_rounded (rnd : Q -> num)
    (dist : num -> num -> num -> num -> num)
    (A B : list Stroke) :
  Permutation (map fst (pairs (Rounded.matchStrokes rnd dist A B))
               ++ unmatchedA (Rounded.matchStrokes rnd dist A B))
              (seq 0 (length A)) /\
  Permutation (map snd (pairs (Rounded.matchStrokes rnd dist A B))
               ++ unmatchedB (Rounded.matchStrokes rnd dist A B))
              (seq 0 (length B)).
Proof.
  destruct (matchStrokes_inv_rounded rnd dist A B) as [usedB [_ [Hs [Hf Hlt]]]].
  split.
  - apply chosen_and_rest; [exact Hf | | apply some_fst_In].
    intros i Hi. apply in_map_iff in Hi. destruct Hi as [p [<- Hp]].
    apply Hlt, Hp.
  - apply chosen_and_rest; [exact Hs | | apply some_snd_In].
    intros j Hj. apply in_map_iff in Hj. destruct Hj as [p [<- Hp]].
    apply Hlt, Hp.
Qed.

(** C10, as amended: on doubles, when every cost
    [strokeMatchCost(A[i], B[j])] is a finite number, [matchStrokes(A, B)]
    makes [min(|A|, |B|)] pairs and leaves [max(0, |A| - |B|)] indices of [A]
    and [max(0, |B| - |A|)] indices of [B] unmatched; an index of [A] is
    left unmatched only if every index of [B] is paired with an earlier
    index of [A].  This holds whatever the rounding and [dist] are. *)
Theorem match_counts (rnd : Q -> num)
    (dist : num -> num -> num -> num -> num) (A B : list Stroke) :
  (forall a b, In a A -> In b B ->
               finite (Rounded.strokeMatchCost rnd dist a b)) ->
  length (pairs (Rounded.matchStrokes rnd dist A B))
  = Nat.min (length A) (length B) /\
  length (unmatchedA (Rounded.matchStrokes rnd dist A B))
  = (length A - length B)%nat /\
  length (unmatchedB (Rounded.matchStrokes rnd dist A B))
  = (length B - length A)%nat /\
  (forall i, In i (unmatchedA (Rounded.matchStrokes rnd dist A B)) ->
   forall j, (j < length B)%nat ->
   exists i', (i' < i)%nat /\
              In (i', j) (pairs (Rounded.matchStrokes rnd dist A B))).
Proof.
  intros Hfin.
  assert (Hcount : length (pairs (Rounded.matchStrokes rnd dist A B))
                   = Nat.min (length A) (length B)).
  { apply (matchFrom_count_rounded rnd dist A B Hfin A 0 [] []);
      [apply incl_refl | apply matchInv_nil]. }
  destruct (match_pairs_perm_rounded rnd dist A B) as [PA PB].
  apply Permutation_length in PA, PB.
  rewrite length_app, length_map, length_seq in PA, PB.
  split; [exact Hcount|]. split; [lia|]. split; [lia|].
  intros i Hi j Hj.
  apply filter_In in Hi. destruct Hi as [Hi Hnot].
  apply in_seq in Hi. apply negb_true_iff in Hnot.
  apply (matchFrom_unmatched_rounded rnd dist A B Hfin A 0 [] [] i);
    [apply incl_refl | apply matchInv_nil | lia | | exact Hj].
  intro Hin. apply some_fst_In in Hin.
  unfold Rounded.matchStrokes in Hnot. simpl in Hnot. congruence.
Qed.

Lemma match_counts_witness :
  length (pairs (Rounded.matchStrokes roundDouble distQ
                   [strokeA; strokeB; strokeA] [strokeB]))
  = Nat.min 3 1 /\
  length (unmatchedA (Rounded.matchStrokes roundDouble distQ
                        [strokeA; strokeB; strokeA] [strokeB]))
  = (3 - 1)%nat.
Proof.
  destruct (match_counts roundDouble distQ [strokeA; strokeB; strokeA]
                         [strokeB]) as [H1 [H2 _]].
  - intros a b Ha Hb.
    destruct Hb as [<- | []].
    destruct Ha as [<- | [<- | [<- | []]]];
      eexists; vm_compute; reflexivity.
  - split; [exact H1 | exact H2].
Defined.

(** Finite coordinates do not make the cost finite: between two strokes at
    [x = -2^1023] and [x = 2^1023] the distance of the centroids is beyond the
    largest double, the cost is [Infinity], [c < bestC] fails and
    [matchStrokes] pairs nothing, where [min(|A|, |B|)] is 1. *)
Lemma match_overflow_unpaired :
  Forall finiteStroke [strokeFarLeft] /\
  Forall finiteStroke [strokeFarRight] /\
  Rounded.strokeMatchCost roundDouble distOverflow strokeFarLeft strokeFarRight
  = PInf /\
  Rounded.matchStrokes roundDouble distOverflow [strokeFarLeft] [strokeFarRight]
  = {| pairs := []; unmatchedA := [0%nat]; unmatchedB := [0%nat] |} /\
  length (pairs (Rounded.matchStrokes roundDouble distOverflow
                   [strokeFarLeft] [strokeFarRight]))
  <> Nat.min (length [strokeFarLeft]) (length [strokeFarRight]).
Proof.
  split; [repeat constructor; apply finite_ofZ|].
  split; [repeat constructor; apply finite_ofZ|].
  assert (E : Rounded.strokeMatchCost roundDouble distOverflow
                strokeFarLeft strokeFarRight = PInf)
    by (vm_compute; reflexivity).
  split; [exact E|].
  assert (M : Rounded.matchStrokes roundDouble distOverflow
                [strokeFarLeft] [strokeFarRight]
              = {| pairs := []; unmatchedA := [0%nat]; unmatchedB := [0%nat] |})
    by (vm_compute; reflexivity).
  split; [exact M|]. rewrite M. simpl. discriminate.
Qed.

(* ------------------------------------------------------------------ *)
(** ** Lists tweened point by point *)

Lemma map_combine_Forall2_l {A B : Type} (f : A * A -> B) (R : B -> A -> Prop)
    (la lb : list A) :
  length la = length lb ->
  (forall qa qb, In qa la -> In qb lb -> R (f (qa, qb)) qa) ->
  Forall2 R (map f (combine la lb)) la.
Proof.
  revert lb. induction la as [|qa la IH]; intros [|qb lb] Hlen HR;
    simpl in *; try discriminate; constructor.
  - apply HR; left; reflexivity.
  - apply IH; [lia|]. intros; apply HR; right; assumption.
Qed.

Lemma map_combine_Forall2_r {A B : Type} (f : A * A -> B) (R : B -> A -> Prop)
    (la lb : list A) :
  length la = length lb ->
  (forall qa qb, In qa la -> In qb lb -> R (f (qa, qb)) qb) ->
  Forall2 R (map f (combine la lb)) lb.
Proof.
  revert lb. induction la as [|qa la IH]; intros [|qb lb] Hlen HR;
    simpl in *; try discriminate; constructor.
  - apply HR; left; reflexivity.
  - apply IH; [lia|]. intros; apply HR; right; assumption.
Qed.


(* ------------------------------------------------------------------ *)
(** ** Tweening two drawings *)

Lemma filter_tweenable (A : list Stroke) (s : Stroke) :
  Forall tweenable A -> In s (filter (fun s => negb (eraser s)) A) ->
  (2 <= length (points s))%nat.
Proof.
  intros HA Hs. apply filter_In in Hs. destruct Hs as [Hin He].
  rewrite Forall_forall in HA. apply (HA s Hin).
  apply negb_true_iff, He.
Qed.

(** C9, as amended.  When every stroke of [A] and [B] that is not an eraser
    has two points or more, [tweenDrawingsMulti(A, B, t)] returns, for any
    [t], as many strokes as there are matched pairs, unmatched strokes of
    [A] and unmatched strokes of [B], all three counted on the
    eraser-filtered lists; that is the two filtered lengths together, less
    the number of pairs. *)
Theorem drawing_tween_length (dist : num -> num -> num -> num -> num)
    (A B : list Stroke) (t : num) :
  DistSpec dist -> Forall tweenable A -> Forall tweenable B ->
  exists out,
    tweenDrawingsMulti dist A B t = Ok out /\
    length out
    = (length (pairs (matchStrokes dist
                        (filter (fun s => negb (eraser s)) A)
                        (filter (fun s => negb (eraser s)) B)))
       + length (unmatchedA (matchStrokes dist
                        (filter (fun s => negb (eraser s)) A)
                        (filter (fun s => negb (eraser s)) B)))
       + length (unmatchedB (matchStrokes dist
                        (filter (fun s => negb (eraser s)) A)
                        (filter (fun s => negb (eraser s)) B))))%nat /\
    (length out
     + length (pairs (matchStrokes dist
                        (filter (fun s => negb (eraser s)) A)
                        (filter (fun s => negb (eraser s)) B)))
     = length (filter (fun s => negb (eraser s)) A)
       + length (filter (fun s => negb (eraser s)) B))%nat.
Proof.
  intros Hd HA HB. unfold tweenDrawingsMulti.
  set (AA := filter (fun s => negb (eraser s)) A).
  set (BB := filter (fun s => negb (eraser s)) B).
  set (m := matchStrokes dist AA BB).
  destruct (matchStrokes_inv dist AA BB) as [usedB [_ [_ [_ Hlt]]]].
  fold m in Hlt.
  destruct (match_pairs_perm dist AA BB) as [PA PB]. fold m in PA, PB.
  assert (Htw : forall sa sb N,
            In sa AA \/ (exists s0, In s0 BB /\ sa = ghostFromStrokeLike s0) ->
            In sb BB \/ (exists s0, In s0 AA /\ sb = ghostFromStrokeLike s0) ->
            exists s, tweenTwoStrokes dist sa sb t N = Ok s).
  { intros sa sb N Hsa Hsb.
    destruct (tween_ok dist Hd sa sb t N) as [_ [_ [s [_ [_ [_ [_ [Es _]]]]]]]].
    - destruct Hsa as [Hsa | [s0 [_ ->]]];
        [apply (filter_tweenable A sa HA Hsa) | simpl; lia].
    - destruct Hsb as [Hsb | [s0 [_ ->]]];
        [apply (filter_tweenable B sb HB Hsb) | simpl; lia].
    - exists s. exact Es. }
  match goal with
  | |- exists out, bind (mapM ?f1 _) _ = _ /\ _ =>
      destruct (mapM_ok f1 (pairs m)) as [o1 [E1 L1]]
  end.
  { intros p Hp. destruct (Hlt p Hp) as [Hp1 Hp2].
    destruct (index_ok AA (fst p) Hp1) as [sa [Ea _]].
    destruct (index_ok BB (snd p) Hp2) as [sb [Eb _]].
    rewrite Ea, Eb. simpl.
    apply Htw; left; eapply index_In; eassumption. }
  rewrite E1. cbn [bind].
  match goal with
  | |- exists out, bind (mapM ?f2 _) _ = _ /\ _ =>
      destruct (mapM_ok f2 (unmatchedA m)) as [o2 [E2 L2]]
  end.
  { intros ia Hia. apply filter_In in Hia. destruct Hia as [Hia _].
    apply in_seq in Hia.
    destruct (index_ok AA ia ltac:(lia)) as [sa [Ea _]].
    rewrite Ea. simpl. apply index_In in Ea.
    apply Htw; [left; exact Ea | right; exists sa; split; [exact Ea | reflexivity]]. }
  rewrite E2. cbn [bind].
  match goal with
  | |- exists out, bind (mapM ?f3 _) _ = _ /\ _ =>
      destruct (mapM_ok f3 (unmatchedB m)) as [o3 [E3 L3]]
  end.
  { intros ib Hib. apply filter_In in Hib. destruct Hib as [Hib _].
    apply in_seq in Hib.
    destruct (index_ok BB ib ltac:(lia)) as [sb [Eb _]].
    rewrite Eb. simpl. apply index_In in Eb.
    apply Htw; [right; exists sb; split; [exact Eb | reflexivity] | left; exact Eb]. }
  rewrite E3. cbn [bind].
  exists (o1 ++ o2 ++ o3). split; [reflexivity|].
  rewrite !length_app, L1, L2, L3.
  apply Permutation_length in PA, PB.
  rewrite length_app, length_map, length_seq in PA, PB.
  split; lia.
Qed.

Lemma drawing_tween_length_witness :
  exists out,
    tweenDrawingsMulti distQ [strokeA; strokeB] [strokeB] (Fin (1 # 2))
    = Ok out /\
    length out = 2%nat.
Proof.
  destruct (drawing_tween_length distQ [strokeA; strokeB] [strokeB] (Fin (1 # 2)))
    as [out [Eout [Hlen _]]].
  - exact distQ_spec.
  - repeat constructor; intros _; simpl; lia.
  - repeat constructor; intros _; simpl; lia.
  - exists out. split; [exact Eout|].
    rewrite Hlen. vm_compute. reflexivity.
Defined.

(** C9 as stated fails: a drawing holding a one-point stroke makes
    [tweenDrawingsMulti] throw, so there is no list to measure. *)
Lemma drawing_tween_short_stroke :
  tweenDrawingsMulti distQ [strokeDot] [] (Fin (1 # 2)) = Throw TypeError /\
  tweenDrawingsMulti distQ [strokeA; strokeDot] [strokeB] (ofZ 0)
  = Throw TypeError.
Proof.
  split; vm_compute; reflexivity.
Qed.

(* ------------------------------------------------------------------ *)
(** ** The easing curves *)

Lemma Linear_Fin (q : Q) : Linear (Fin q) = Fin q.
Proof. reflexivity. Qed.

Lemma EaseInOutQuad_Fin (q : Q) :
  EaseInOutQuad (Fin q)
  = if Qltb q (1 # 2)
    then Fin (inject_Z 2 * q * q)
    else Fin (inject_Z 1
              - (inject_Z (-2) * q + inject_Z 2)
                * (inject_Z (-2) * q + inject_Z 2) / inject_Z 2).
Proof.
  unfold EaseInOutQuad. cbn [ltb]. destruct (Qltb q (1 # 2)); reflexivity.
Qed.

Lemma EaseInOutCubic_Fin (q : Q) :
  EaseInOutCubic (Fin q)
  = if Qltb q (1 # 2)
    then Fin (inject_Z 4 * q * q * q)
    else Fin (inject_Z 1
              - (inject_Z (-2) * q + inject_Z 2)
                * (inject_Z (-2) * q + inject_Z 2)
                * (inject_Z (-2) * q + inject_Z 2) / inject_Z 2).
Proof.
  unfold EaseInOutCubic. cbn [ltb]. destruct (Qltb q (1 # 2)); reflexivity.
Qed.

(** Every name resolves to one of the three curves. *)
Lemma getEase_cases (name : string) :
  getEase name = Linear \/ getEase name = EaseInOutQuad \/
  getEase name = EaseInOutCubic.
Proof.
  unfold getEase.
  destruct (String.eqb name "Linear"); [left; reflexivity|].
  destruct (String.eqb name "EaseInOutQuad"); [right; left; reflexivity|].
  right; right; reflexivity.
Qed.

(** The two curved easings on a finite argument, as rationals. *)
Lemma quad_value (q : Q) :
  exists r, EaseInOutQuad (Fin q) = Fin r /\
    (((q < 1 # 2)%Q /\ (r == 2 * q * q)%Q) \/
     ((1 # 2 <= q)%Q /\ (r == 1 - 2 * (1 - q) * (1 - q))%Q)).
Proof.
  rewrite EaseInOutQuad_Fin. destruct (Qltb q (1 # 2)) eqn:E.
  - apply Qltb_true in E. eexists. split; [reflexivity|].
    left. split; [exact E|]. unfold inject_Z. ring.
  - apply Qltb_false in E. eexists. split; [reflexivity|].
    right. split; [exact E|]. unfold inject_Z. field.
Qed.

Lemma cubic_value (q : Q) :
  exists r, EaseInOutCubic (Fin q) = Fin r /\
    (((q < 1 # 2)%Q /\ (r == 4 * q * q * q)%Q) \/
     ((1 # 2 <= q)%Q /\ (r == 1 - 4 * (1 - q) * (1 - q) * (1 - q))%Q)).
Proof.
  rewrite EaseInOutCubic_Fin. destruct (Qltb q (1 # 2)) eqn:E.
  - apply Qltb_true in E. eexists. split; [reflexivity|].
    left. split; [exact E|]. unfold inject_Z. ring.
  - apply Qltb_false in E. eexists. split; [reflexivity|].
    right. split; [exact E|]. unfold inject_Z. field.
Qed.

Lemma sq_mono (q r : Q) : (0 <= q -> q <= r -> q * q <= r * r)%Q.
Proof. intros. nra. Qed.

Lemma cube_mono (q r : Q) : (0 <= q -> q <= r -> q * q * q <= r * r * r)%Q.
Proof.
  intros H H0. assert (H1 := sq_mono q r H H0).
  assert (0 <= q * q)%Q by nra.
  assert (q * q * q <= r * r * q)%Q by nra.
  assert (r * r * q <= r * r * r)%Q by nra. lra.
Qed.

Lemma sq_half (s : Q) :
  (0 <= s -> s <= 1 # 2 -> 0 <= 2 * s * s /\ 2 * s * s <= 1 # 2)%Q.
Proof.
  intros H H0. assert (H1 := sq_mono 0 s ltac:(lra) H).
  assert (H2 := sq_mono s (1 # 2) H H0). lra.
Qed.

Lemma cube_half (s : Q) :
  (0 <= s -> s <= 1 # 2 -> 0 <= 4 * s * s * s /\ 4 * s * s * s <= 1 # 2)%Q.
Proof.
  intros H H0. assert (H1 := cube_mono 0 s ltac:(lra) H).
  assert (H2 := cube_mono s (1 # 2) H H0). lra.
Qed.

(** An eased progress stays a progress. *)
Lemma getEase_unit (name : string) (q : Q) :
  (0 <= q)%Q -> (q <= 1)%Q ->
  exists r,
    getEase name (Fin q) = Fin r /\ (0 <= r)%Q /\ (r <= 1)%Q /\
    ((q == 0)%Q -> (r == 0)%Q) /\ ((q == 1)%Q -> (r == 1)%Q).
Proof.
  intros H0 H1. destruct (getEase_cases name) as [-> | [-> | ->]].
  - exists q. repeat split; try assumption; intro H; exact H.
  - destruct (quad_value q) as [r [E [[Hq Hr] | [Hq Hr]]]];
      exists r; (split; [exact E|]).
    + destruct (sq_half q H0 ltac:(lra)).
      repeat split; try lra; intro Hz; rewrite Hr, Hz; ring_simplify; lra.
    + destruct (sq_half (1 - q) ltac:(lra) ltac:(lra)).
      repeat split; try lra; intro Hz; rewrite Hr, Hz; ring_simplify; lra.
  - destruct (cubic_value q) as [r [E [[Hq Hr] | [Hq Hr]]]];
      exists r; (split; [exact E|]).
    + destruct (cube_half q H0 ltac:(lra)).
      repeat split; try lra; intro Hz; rewrite Hr, Hz; ring_simplify; lra.
    + destruct (cube_half (1 - q) ltac:(lra) ltac:(lra)).
      repeat split; try lra; intro Hz; rewrite Hr, Hz; ring_simplify; lra.
Qed.

(** X1: each of the three easings of the menu maps a progress in [0, 1] to a
    finite value in [0, 1], 0 to 0 and 1 to 1. *)
Theorem easing_unit_interval (name : string) (q : Q) :
  In name easeOptions -> (0 <= q)%Q -> (q <= 1)%Q ->
  exists r,
    getEase name (Fin q) = Fin r /\ (0 <= r)%Q /\ (r <= 1)%Q /\
    ((q == 0)%Q -> (r == 0)%Q) /\ ((q == 1)%Q -> (r == 1)%Q).
Proof.
  intros _ H0 H1. apply getEase_unit; assumption.
Qed.

Lemma easing_unit_interval_witness :
  exists r,
    getEase "EaseInOutQuad" (Fin (1 # 4)) = Fin r /\ (0 <= r)%Q /\ (r <= 1)%Q /\
    ((1 # 4 == 0)%Q -> (r == 0)%Q) /\ ((1 # 4 == 1)%Q -> (r == 1)%Q).
Proof.
  apply (easing_unit_interval "EaseInOutQuad" (1 # 4)).
  - right; right; left; reflexivity.
  - unfold Qle. simpl. lia.
  - unfold Qle. simpl. lia.
Defined.


(** X3: the three easings of the menu never go backwards on [0, 1]. *)
Theorem easing_monotone (name : string) (q q' : Q) :
  In name easeOptions -> (0 <= q)%Q -> (q <= q')%Q -> (q' <= 1)%Q ->
  exists r r',
    getEase name (Fin q) = Fin r /\ getEase name (Fin q') = Fin r' /\
    (r <= r')%Q.
Proof.
  intros _ H0 H1 H2. destruct (getEase_cases name) as [-> | [-> | ->]].
  - exists q, q'. repeat split. exact H1.
  - destruct (quad_value q) as [r [E [[Hq Hr] | [Hq Hr]]]];
      destruct (quad_value q') as [r' [E' [[Hq' Hr'] | [Hq' Hr']]]];
      exists r, r'; (split; [exact E|]); (split; [exact E'|]);
      rewrite Hr, Hr'.
    + assert (H := sq_mono q q' H0 H1). lra.
    + destruct (sq_half q H0 ltac:(lra)).
      destruct (sq_half (1 - q') ltac:(lra) ltac:(lra)). lra.
    + exfalso. lra.
    + assert (H := sq_mono (1 - q') (1 - q) ltac:(lra) ltac:(lra)). lra.
  - destruct (cubic_value q) as [r [E [[Hq Hr] | [Hq Hr]]]];
      destruct (cubic_value q') as [r' [E' [[Hq' Hr'] | [Hq' Hr']]]];
      exists r, r'; (split; [exact E|]); (split; [exact E'|]);
      rewrite Hr, Hr'.
    + assert (H := cube_mono q q' H0 H1). lra.
    + destruct (cube_half q H0 ltac:(lra)).
      destruct (cube_half (1 - q') ltac:(lra) ltac:(lra)). lra.
    + exfalso. lra.
    + assert (H := cube_mono (1 - q') (1 - q) ltac:(lra) ltac:(lra)). lra.
Qed.

Lemma easing_monotone_witness :
  exists r r',
    getEase "Linear" (Fin (1 # 4)) = Fin r /\
    getEase "Linear" (Fin (3 # 4)) = Fin r' /\
    (r <= r')%Q.
Proof.
  apply (easing_monotone "Linear" (1 # 4) (3 # 4)).
  - right; left; reflexivity.
  - unfold Qle. simpl. lia.
  - unfold Qle. simpl. lia.
  - unfold Qle. simpl. lia.
Defined.

(* ------------------------------------------------------------------ *)
(** ** What a drawing tween is made of *)

Lemma index_Ok_nth {A : Type} (arr : list A) (i : nat) (v : A) :
  index arr i = Ok v -> nth_error arr i = Some v.
Proof.
  unfold index. destruct (nth_error arr i); [|discriminate].
  intro H. injection H as ->. reflexivity.
Qed.

Lemma filter_idem {A : Type} (f : A -> bool) (l : list A) :
  filter f (filter f l) = filter f l.
Proof.
  induction l as [|v l IH]; simpl; [reflexivity|].
  destruct (f v) eqn:E; simpl; [rewrite E, IH|]; auto.
Qed.

(** The tween of two strokes, when it returns, has one point per turn of
    its loop and is no eraser. *)
Lemma tween_Ok_shape (dist : num -> num -> num -> num -> num)
    (a b : Stroke) (t : num) (N : Z) (s : Stroke) :
  tweenTwoStrokes dist a b t N = Ok s ->
  length (points s) = Z.to_nat N /\ eraser s = false.
Proof.
  unfold tweenTwoStrokes. intro H.
  destruct (resamplePointsLocal dist (points a) N) as [pa|]; [|discriminate].
  destruct (resamplePointsLocal dist (points b) N) as [pb|]; [|discriminate].
  cbn [bind] in H.
  match type of H with
  | bind (mapM ?f ?l) _ = _ => destruct (mapM f l) as [pts|] eqn:E
  end; [|discriminate].
  cbn [bind] in H. injection H as <-. simpl.
  split; [|reflexivity].
  rewrite (mapM_length _ _ _ E). apply upto_length.
Qed.

(** The three groups a returned drawing tween is made of. *)
Lemma tweenDrawings_inv (dist : num -> num -> num -> num -> num)
    (A B : list Stroke) (t : num) (out : list Stroke) :
  tweenDrawingsMulti dist A B t = Ok out ->
  exists o1 o2 o3,
    out = o1 ++ o2 ++ o3 /\
    Forall2 (fun p s => exists sa sb,
               nth_error (filter (fun s => negb (eraser s)) A) (fst p) = Some sa /\
               nth_error (filter (fun s => negb (eraser s)) B) (snd p) = Some sb /\
               tweenTwoStrokes dist sa sb t 60 = Ok s)
            (pairs (matchStrokes dist (filter (fun s => negb (eraser s)) A)
                                      (filter (fun s => negb (eraser s)) B)))
            o1 /\
    Forall2 (fun ia s => exists sa,
               nth_error (filter (fun s => negb (eraser s)) A) ia = Some sa /\
               tweenTwoStrokes dist sa (ghostFromStrokeLike sa) t 40 = Ok s)
            (unmatchedA (matchStrokes dist (filter (fun s => negb (eraser s)) A)
                                           (filter (fun s => negb (eraser s)) B)))
            o2 /\
    Forall2 (fun ib s => exists sb,
               nth_error (filter (fun s => negb (eraser s)) B) ib = Some sb /\
               tweenTwoStrokes dist (ghostFromStrokeLike sb) sb t 40 = Ok s)
            (unmatchedB (matchStrokes dist (filter (fun s => negb (eraser s)) A)
                                           (filter (fun s => negb (eraser s)) B)))
            o3.
Proof.
  unfold tweenDrawingsMulti.
  set (AA := filter (fun s => negb (eraser s)) A).
  set (BB := filter (fun s => negb (eraser s)) B).
  set (m := matchStrokes dist AA BB).
  intro H.
  match type of H with
  | bind (mapM ?f ?l) _ = _ => destruct (mapM f l) as [o1|] eqn:E1
  end; [|discriminate].
  cbn [bind] in H.
  match type of H with
  | bind (mapM ?f ?l) _ = _ => destruct (mapM f l) as [o2|] eqn:E2
  end; [|discriminate].
  cbn [bind] in H.
  match type of H with
  | bind (mapM ?f ?l) _ = _ => destruct (mapM f l) as [o3|] eqn:E3
  end; [|discriminate].
  cbn [bind] in H. injection H as <-.
  exists o1, o2, o3. split; [reflexivity|].
  apply mapM_Forall2 in E1, E2, E3.
  split; [|split].
  - eapply Forall2_impl; [|exact E1]. intros p s Hp. cbv beta in Hp.
    destruct (index AA (fst p)) as [sa|] eqn:Ea; [|discriminate].
    destruct (index BB (snd p)) as [sb|] eqn:Eb; [|discriminate].
    exists sa, sb. repeat split; try (apply index_Ok_nth; assumption). exact Hp.
  - eapply Forall2_impl; [|exact E2]. intros ia s Hp. cbv beta in Hp.
    destruct (index AA ia) as [sa|] eqn:Ea; [|discriminate].
    exists sa. split; [apply index_Ok_nth; assumption | exact Hp].
  - eapply Forall2_impl; [|exact E3]. intros ib s Hp. cbv beta in Hp.
    destruct (index BB ib) as [sb|] eqn:Eb; [|discriminate].
    exists sb. split; [apply index_Ok_nth; assumption | exact Hp].
Qed.

(** With strokes the tweener can resample, the drawing tween returns. *)
Lemma tweenDrawings_ok (dist : num -> num -> num -> num -> num)
    (A B : list Stroke) (t : num) :
  DistSpec dist -> Forall tweenable A -> Forall tweenable B ->
  exists out, tweenDrawingsMulti dist A B t = Ok out.
Proof.
  intros Hd HA HB. unfold tweenDrawingsMulti.
  set (AA := filter (fun s => negb (eraser s)) A).
  set (BB := filter (fun s => negb (eraser s)) B).
  set (m := matchStrokes dist AA BB).
  destruct (matchStrokes_inv dist AA BB) as [usedB [_ [_ [_ Hlt]]]].
  fold m in Hlt.
  assert (Htw : forall sa sb N,
            In sa AA \/ (exists s0, sa = ghostFromStrokeLike s0) ->
            In sb BB \/ (exists s0, sb = ghostFromStrokeLike s0) ->
            exists s, tweenTwoStrokes dist sa sb t N = Ok s).
  { intros sa sb N Hsa Hsb.
    destruct (tween_ok dist Hd sa sb t N) as [_ [_ [s [_ [_ [_ [_ [Es _]]]]]]]].
    - destruct Hsa as [Hsa | [s0 ->]];
        [apply (filter_tweenable A sa HA Hsa) | simpl; lia].
    - destruct Hsb as [Hsb | [s0 ->]];
        [apply (filter_tweenable B sb HB Hsb) | simpl; lia].
    - exists s. exact Es. }
  match goal with
  | |- exists out, bind (mapM ?f1 _) _ = _ =>
      destruct (mapM_ok f1 (pairs m)) as [o1 [E1 _]]
  end.
  { intros p Hp. destruct (Hlt p Hp) as [Hp1 Hp2].
    destruct (index_ok AA (fst p) Hp1) as [sa [Ea _]].
    destruct (index_ok BB (snd p) Hp2) as [sb [Eb _]].
    rewrite Ea, Eb. cbn [bind].
    apply Htw; left; eapply index_In; eassumption. }
  rewrite E1. cbn [bind].
  match goal with
  | |- exists out, bind (mapM ?f2 _) _ = _ =>
      destruct (mapM_ok f2 (unmatchedA m)) as [o2 [E2 _]]
  end.
  { intros ia Hia. apply filter_In in Hia. destruct Hia as [Hia _].
    apply in_seq in Hia.
    destruct (index_ok AA ia ltac:(lia)) as [sa [Ea _]].
    rewrite Ea. cbn [bind]. apply index_In in Ea.
    apply Htw; [left; exact Ea | right; exists sa; reflexivity]. }
  rewrite E2. cbn [bind].
  match goal with
  | |- exists out, bind (mapM ?f3 _) _ = _ =>
      destruct (mapM_ok f3 (unmatchedB m)) as [o3 [E3 _]]
  end.
  { intros ib Hib. apply filter_In in Hib. destruct Hib as [Hib _].
    apply in_seq in Hib.
    destruct (index_ok BB ib ltac:(lia)) as [sb [Eb _]].
    rewrite Eb. cbn [bind]. apply index_In in Eb.
    apply Htw; [right; exists sb; reflexivity | left; exact Eb]. }
  rewrite E3. cbn [bind]. eexists. reflexivity.
Qed.

(** X4: erasers play no part in a drawing tween: putting an eraser stroke
    anywhere into either drawing leaves the result, a throw included, as it
    was. *)
Theorem drawing_tween_skips_erasers (dist : num -> num -> num -> num -> num)
    (A1 A2 B1 B2 : list Stroke) (e : Stroke) (t : num) :
  eraser e = true ->
  tweenDrawingsMulti dist (A1 ++ e :: A2) (B1 ++ B2) t
  = tweenDrawingsMulti dist (A1 ++ A2) (B1 ++ B2) t /\
  tweenDrawingsMulti dist (A1 ++ A2) (B1 ++ e :: B2) t
  = tweenDrawingsMulti dist (A1 ++ A2) (B1 ++ B2) t.
Proof.
  intro He. unfold tweenDrawingsMulti.
  rewrite !filter_app. simpl. rewrite He. simpl. split; reflexivity.
Qed.

Lemma drawing_tween_skips_erasers_witness :
  tweenDrawingsMulti distQ ([strokeA] ++ strokeEraser :: [strokeB])
                     ([] ++ [strokeB]) (Fin (1 # 2))
  = tweenDrawingsMulti distQ ([strokeA] ++ [strokeB]) ([] ++ [strokeB])
                       (Fin (1 # 2)).
Proof.
  apply (drawing_tween_skips_erasers distQ [strokeA] [strokeB] [] [strokeB]
           strokeEraser (Fin (1 # 2))).
  reflexivity.
Defined.

(** X5: with strokes the tweener can resample, a drawing tween is the
    matched strokes, 60 points each, followed by the fading strokes, 40
    points each; none of them is an eraser, so every stroke handed to the
    renderer can be drawn. *)
Theorem drawing_tween_strokes (dist : num -> num -> num -> num -> num)
    (A B : list Stroke) (t : num) :
  DistSpec dist -> Forall tweenable A -> Forall tweenable B ->
  exists o1 o2,
    tweenDrawingsMulti dist A B t = Ok (o1 ++ o2) /\
    length o1
    = length (pairs (matchStrokes dist
                       (filter (fun s => negb (eraser s)) A)
                       (filter (fun s => negb (eraser s)) B))) /\
    Forall (fun s => length (points s) = 60%nat /\ eraser s = false) o1 /\
    Forall (fun s => length (points s) = 40%nat /\ eraser s = false) o2.
Proof.
  intros Hd HA HB.
  destruct (tweenDrawings_ok dist A B t Hd HA HB) as [out Eout].
  destruct (tweenDrawings_inv dist A B t out Eout)
    as [o1 [o2 [o3 [-> [F1 [F2 F3]]]]]].
  exists o1, (o2 ++ o3). split; [exact Eout|]. split; [|split].
  - symmetry. eapply Forall2_length, F1.
  - apply Forall_forall. intros s Hs.
    destruct (Forall2_in_r_exists _ _ _ _ F1 Hs) as [p [_ [sa [sb [_ [_ E]]]]]].
    apply tween_Ok_shape in E. exact E.
  - apply Forall_app. split; apply Forall_forall; intros s Hs.
    + destruct (Forall2_in_r_exists _ _ _ _ F2 Hs) as [p [_ [sa [_ E]]]].
      apply tween_Ok_shape in E. exact E.
    + destruct (Forall2_in_r_exists _ _ _ _ F3 Hs) as [p [_ [sb [_ E]]]].
      apply tween_Ok_shape in E. exact E.
Qed.

Lemma drawing_tween_strokes_witness :
  exists o1 o2,
    tweenDrawingsMulti distQ [strokeA; strokeEraser] [strokeB; strokeA]
                       (Fin (1 # 3))
    = Ok (o1 ++ o2) /\
    length o1 = 1%nat.
Proof.
  destruct (drawing_tween_strokes distQ [strokeA; strokeEraser]
              [strokeB; strokeA] (Fin (1 # 3)))
    as [o1 [o2 [E [L _]]]].
  - exact distQ_spec.
  - repeat constructor; unfold tweenable; simpl; intro H;
      first [lia | discriminate H].
  - repeat constructor; unfold tweenable; simpl; intro H; lia.
  - exists o1, o2. split; [exact E|]. rewrite L. vm_compute. reflexivity.
Defined.

(* ------------------------------------------------------------------ *)
(** ** Matching against nothing *)

Lemma filter_all {A : Type} (f : A -> bool) (l : list A) :
  (forall v, f v = true) -> filter f l = l.
Proof.
  intro H. induction l as [|v l IH]; simpl; [reflexivity|].
  rewrite H, IH. reflexivity.
Qed.

Lemma matchFrom_nil_r (dist : num -> num -> num -> num -> num)
    (A : list Stroke) (i : nat) (prs : list (nat * nat)) (usedB : list nat) :
  matchFrom dist A [] i prs usedB = prs.
Proof.
  revert i. induction A as [|ai A IH]; intro i; simpl; [reflexivity | apply IH].
Qed.

Lemma matchStrokes_nil_r (dist : num -> num -> num -> num -> num)
    (A : list Stroke) :
  matchStrokes dist A []
  = {| pairs := []; unmatchedA := seq 0 (length A); unmatchedB := [] |}.
Proof.
  unfold matchStrokes. rewrite matchFrom_nil_r. simpl.
  rewrite filter_all; [reflexivity | intro; reflexivity].
Qed.

Lemma matchStrokes_nil_l (dist : num -> num -> num -> num -> num)
    (B : list Stroke) :
  matchStrokes dist [] B
  = {| pairs := []; unmatchedA := []; unmatchedB := seq 0 (length B) |}.
Proof.
  unfold matchStrokes. simpl.
  rewrite filter_all; [reflexivity | intro; reflexivity].
Qed.

(** X6: matched against an empty list every stroke is unmatched: no pair
    is made and the unmatched indices are all of [0 .. n-1], in order. *)
Theorem match_empty_side (dist : num -> num -> num -> num -> num)
    (D : list Stroke) :
  matchStrokes dist D []
  = {| pairs := []; unmatchedA := seq 0 (length D); unmatchedB := [] |} /\
  matchStrokes dist [] D
  = {| pairs := []; unmatchedA := []; unmatchedB := seq 0 (length D) |}.
Proof.
  split; [apply matchStrokes_nil_r | apply matchStrokes_nil_l].
Qed.

(* ------------------------------------------------------------------ *)
(** ** A frame while the animation is in progress *)







(* ------------------------------------------------------------------ *)
(** ** From [start] to the last frame *)









(** X11: whatever a frame does, it leaves the start time and the duration of
    the clock alone, it can only turn [running] off, and that only when
    [tGlobal >= 1]; and unless it throws it calls [drawDrawing] exactly when
    there are two keyframes or more. *)
Theorem drawFrame_keeps_clock (dist : num -> num -> num -> num -> num)
    (st st' : AnimState) (now : num) (frames : list Drawing) (name : string)
    (rendered : option (list Stroke)) :
  drawFrame dist st now frames name = Ok (st', rendered) ->
  startMs st' = startMs st /\ durationMs st' = durationMs st /\
  (st' = st \/
   (running st' = false /\ geb (tGlobalOf st now) (ofZ 1) = true)) /\
  (rendered = None <-> (length frames < 2)%nat).
Proof.
  unfold drawFrame.
  destruct (length frames <? 2)%nat eqn:E2.
  - apply Nat.ltb_lt in E2. intro H. injection H as <- <-.
    repeat split; auto.
  - apply Nat.ltb_ge in E2. cbv zeta.
    destruct (geb (tGlobalOf st now) (ofZ 1)) eqn:Eg.
    + destruct (index frames (length frames - 1)) as [final|]; [|discriminate].
      cbn [bind]. intro H. injection H as <- <-. simpl.
      repeat split; auto; [discriminate | intro; lia].
    + destruct (indexNum frames (segIndexOf (length frames) (tGlobalOf st now)))
        as [A|]; [|discriminate].
      cbn [bind].
      destruct (indexNum frames
                  (add (segIndexOf (length frames) (tGlobalOf st now)) (ofZ 1)))
        as [B|]; [|discriminate].
      cbn [bind].
      match goal with
      | |- bind ?m _ = _ -> _ => destruct m as [tween|]; [|discriminate]
      end.
      cbn [bind]. intro H. injection H as <- <-.
      repeat split; auto; [discriminate | intro; lia].
Qed.

Lemma drawFrame_keeps_clock_witness :
  startMs {| running := false; startMs := ofZ 0; durationMs := ofZ 1000 |}
  = startMs clock1000 /\
  durationMs {| running := false; startMs := ofZ 0; durationMs := ofZ 1000 |}
  = durationMs clock1000 /\
  ({| running := false; startMs := ofZ 0; durationMs := ofZ 1000 |} = clock1000 \/
   (running {| running := false; startMs := ofZ 0; durationMs := ofZ 1000 |}
    = false /\
    geb (tGlobalOf clock1000 (ofZ 1200)) (ofZ 1) = true)) /\
  (Some [strokeA; strokeB] = None <-> (length threeFrames < 2)%nat).
Proof.
  apply (drawFrame_keeps_clock distQ clock1000
           {| running := false; startMs := ofZ 0; durationMs := ofZ 1000 |}
           (ofZ 1200) threeFrames "Linear" (Some [strokeA; strokeB])).
  reflexivity.
Defined.

(* ------------------------------------------------------------------ *)
(** ** The runnable [dist] does not depend on the order of its points *)

Lemma Qsq_sub_swap (a b : Q) : ((a - b) * (a - b) = (b - a) * (b - a))%Q.
Proof.
  destruct a as [an ad], b as [bn bd].
  unfold Qminus, Qplus, Qopp, Qmult. cbn [Qnum Qden].
  f_equal; [ring | rewrite (Pos.mul_comm ad bd); reflexivity].
Qed.

Lemma distQ_symmetric : distSymmetric distQ.
Proof.
  intros x1 y1 x2 y2. unfold distQ.
  destruct x1 as [| |a|], x2 as [| |b|], y1 as [| |c|], y2 as [| |d|];
    cbn [sub]; try reflexivity.
  rewrite (Qsq_sub_swap b a), (Qsq_sub_swap d c). reflexivity.
Qed.


(* ------------------------------------------------------------------ *)
(** ** The matcher is greedy *)

Lemma ltb_below (u v w : num) :
  finite u -> finite v -> finite w ->
  ltb u v = true -> ltb w v = false ->
  ltb u w = true /\ ltb w u = false.
Proof.
  intros [p ->] [q ->] [r ->]. cbn [ltb].
  rewrite !Qltb_true, !Qltb_false. intros H1 H2. split; lra.
Qed.

Lemma ltb_irrefl (u : num) : ltb u u = false.
Proof.
  destruct u as [| |q|]; try reflexivity.
  cbn [ltb]. apply Qltb_false. lra.
Qed.

Section GreedyFacts.

Variable dist : num -> num -> num -> num -> num.

Lemma bestFrom_bestOK (a : Stroke) (usedB : list nat) (B seen : list Stroke)
    (bestJ : option nat) (bestC : num) :
  (forall b, In b (seen ++ B) -> finite (strokeMatchCost dist a b)) ->
  bestOK dist a usedB seen bestJ bestC ->
  exists bestC',
    bestOK dist a usedB (seen ++ B)
           (bestFrom dist a B (length seen) usedB bestJ bestC) bestC'.
Proof.
  revert seen bestJ bestC.
  induction B as [|bj B IH]; intros seen bestJ bestC Hfin Hok.
  - exists bestC. rewrite app_nil_r. exact Hok.
  - assert (Happ : seen ++ bj :: B = (seen ++ [bj]) ++ B)
      by (rewrite <- app_assoc; reflexivity).
    assert (Hlen : S (length seen) = length (seen ++ [bj]))
      by (rewrite length_app; simpl; lia).
    assert (Hcj : finite (strokeMatchCost dist a bj)).
    { apply Hfin. apply in_app_iff. right. left. reflexivity. }
    cbn [bestFrom]. rewrite Happ, Hlen. rewrite Happ in Hfin.
    destruct (has usedB (length seen)) eqn:Eu.
    + apply IH; [exact Hfin|].
      destruct bestJ as [r|].
      * destruct Hok as [Hr [br [Nr [Ec Hall]]]].
        split; [exact Hr|]. exists br.
        split; [rewrite nth_error_app1; [exact Nr | apply nth_error_Some; congruence]|].
        split; [exact Ec|].
        intros j' b' Nj Hj.
        destruct (Nat.lt_ge_cases j' (length seen)) as [Hlt | Hge].
        -- rewrite nth_error_app1 in Nj by exact Hlt. apply Hall; assumption.
        -- assert (j' = length seen).
           { assert (H := proj1 (nth_error_Some _ _) ltac:(rewrite Nj; discriminate)).
             rewrite length_app in H. simpl in H. lia. }
           subst j'. congruence.
      * destruct Hok as [Ec Hall]. split; [exact Ec|].
        intros j' Hj'. rewrite length_app in Hj'. simpl in Hj'.
        destruct (Nat.eq_dec j' (length seen)) as [-> | Hne];
          [exact Eu | apply Hall; lia].
    + destruct (ltb (strokeMatchCost dist a bj) bestC) eqn:Elt.
      * apply IH; [exact Hfin|].
        split; [exact Eu|]. exists bj.
        split; [rewrite nth_error_app2, Nat.sub_diag by lia; reflexivity|].
        split; [reflexivity|].
        intros j' b' Nj Hj.
        destruct (Nat.lt_ge_cases j' (length seen)) as [Hlt | Hge].
        -- rewrite nth_error_app1 in Nj by exact Hlt.
           destruct bestJ as [r|].
           ++ destruct Hok as [Hr [br [Nr [Ec Hall]]]].
              destruct (Hall j' b' Nj Hj) as [H1 _].
              assert (Hb' : finite (strokeMatchCost dist a b')).
              { apply Hfin. apply in_app_iff. left. apply in_app_iff. left.
                eapply nth_error_In, Nj. }
              assert (Hbr : finite bestC).
              { rewrite Ec. apply Hfin. apply in_app_iff. left.
                apply in_app_iff. left. eapply nth_error_In, Nr. }
              destruct (ltb_below _ _ _ Hcj Hbr Hb' Elt H1) as [H2 H3].
              split; [exact H3 | intros _; exact H2].
           ++ destruct Hok as [_ Hall]. rewrite (Hall j' Hlt) in Hj.
              discriminate.
        -- assert (j' = length seen).
           { assert (H := proj1 (nth_error_Some _ _) ltac:(rewrite Nj; discriminate)).
             rewrite length_app in H. simpl in H. lia. }
           subst j'. rewrite nth_error_app2, Nat.sub_diag in Nj by lia.
           injection Nj as <-.
           split; [apply ltb_irrefl | intro; lia].
      * apply IH; [exact Hfin|].
        destruct bestJ as [r|].
        -- destruct Hok as [Hr [br [Nr [Ec Hall]]]].
           assert (Hrlt : (r < length seen)%nat)
             by (apply nth_error_Some; congruence).
           split; [exact Hr|]. exists br.
           split; [rewrite nth_error_app1; [exact Nr | exact Hrlt]|].
           split; [exact Ec|].
           intros j' b' Nj Hj.
           destruct (Nat.lt_ge_cases j' (length seen)) as [Hlt | Hge].
           ++ rewrite nth_error_app1 in Nj by exact Hlt. apply Hall; assumption.
           ++ assert (j' = length seen).
              { assert (H := proj1 (nth_error_Some _ _) ltac:(rewrite Nj; discriminate)).
                rewrite length_app in H. simpl in H. lia. }
              subst j'. rewrite nth_error_app2, Nat.sub_diag in Nj by lia.
              injection Nj as <-.
              split; [exact Elt | intro; lia].
        -- destruct Hok as [Ec _]. subst bestC.
           rewrite (ltb_finite_PInf _ Hcj) in Elt. discriminate.
Qed.

(** The partner the inner loop returns for [a]. *)
Lemma bestFrom_greedy (a : Stroke) (usedB : list nat) (B : list Stroke)
    (r : nat) :
  (forall b, In b B -> finite (strokeMatchCost dist a b)) ->
  bestFrom dist a B 0 usedB None PInf = Some r ->
  exists br,
    nth_error B r = Some br /\
    forall j' b',
      nth_error B j' = Some b' -> has usedB j' = false ->
      ltb (strokeMatchCost dist a b') (strokeMatchCost dist a br) = false /\
      ((j' < r)%nat ->
       ltb (strokeMatchCost dist a br) (strokeMatchCost dist a b') = true).
Proof.
  intros Hfin Hbest.
  destruct (bestFrom_bestOK a usedB B [] None PInf) as [bestC' Hok].
  { exact Hfin. }
  { split; [reflexivity | intros j' Hj'; simpl in Hj'; lia]. }
  simpl in Hok. rewrite Hbest in Hok.
  destruct Hok as [_ [br [Nr [Ec Hall]]]]. subst bestC'.
  exists br. split; [exact Nr | exact Hall].
Qed.

Lemma greedyPairs_step (Afull B : list Stroke) (i r : nat)
    (prs : list (nat * nat)) (usedB : list nat) (ai : Stroke) :
  (forall b, In b B -> finite (strokeMatchCost dist ai b)) ->
  matchInv (length B) i prs usedB ->
  nth_error Afull i = Some ai ->
  bestFrom dist ai B 0 usedB None PInf = Some r ->
  greedyPairs dist Afull B prs ->
  greedyPairs dist Afull B (prs ++ [(i, r)]).
Proof.
  intros Hfin Hinv Nai Hbest Hg i0 j0 Hin.
  apply in_app_iff in Hin. destruct Hin as [Hin | [Heq | []]].
  - destruct (Hg i0 j0 Hin) as [a [b [Na [Nb Hall]]]].
    exists a, b. split; [exact Na|]. split; [exact Nb|].
    intros j' b' Nj Hfree. apply Hall; [exact Nj|].
    intros i' Hi'. apply Hfree. apply in_app_iff. left. exact Hi'.
  - injection Heq as <- <-.
    destruct (bestFrom_greedy ai usedB B r Hfin Hbest) as [br [Nr Hall]].
    exists ai, br. split; [exact Nai|]. split; [exact Nr|].
    intros j' b' Nj Hfree. apply Hall; [exact Nj|].
    destruct (has usedB j') eqn:Eu; [|reflexivity].
    exfalso. apply has_In in Eu.
    destruct Hinv as [Hu [_ [_ Hlt]]].
    apply Hu in Eu. apply in_map_iff in Eu. destruct Eu as [[i' j''] [E Hp]].
    simpl in E. subst j''.
    assert (H1 := Hfree i' ltac:(apply in_app_iff; left; exact Hp)).
    destruct (Hlt _ Hp) as [H2 _]. simpl in H2. lia.
Qed.

Lemma matchFrom_greedy (Afull B : list Stroke) (pre A : list Stroke)
    (prs : list (nat * nat)) (usedB : list nat) :
  Afull = pre ++ A ->
  (forall a b, In a Afull -> In b B -> finite (strokeMatchCost dist a b)) ->
  matchInv (length B) (length pre) prs usedB ->
  greedyPairs dist Afull B prs ->
  greedyPairs dist Afull B (matchFrom dist A B (length pre) prs usedB).
Proof.
  revert pre prs usedB.
  induction A as [|ai A IH]; intros pre prs usedB Hfull Hfin Hinv Hg.
  - exact Hg.
  - assert (Hfull' : Afull = (pre ++ [ai]) ++ A)
      by (rewrite <- app_assoc; exact Hfull).
    assert (Hlen : S (length pre) = length (pre ++ [ai]))
      by (rewrite length_app; simpl; lia).
    assert (Nai : nth_error Afull (length pre) = Some ai).
    { rewrite Hfull, nth_error_app2, Nat.sub_diag by lia. reflexivity. }
    assert (Hai : forall b, In b B -> finite (strokeMatchCost dist ai b)).
    { intros b Hb. apply Hfin; [|exact Hb].
      eapply nth_error_In, Nai. }
    cbn [matchFrom].
    destruct (bestFrom dist ai B 0 usedB None PInf) as [r|] eqn:Eb.
    + rewrite Hlen. apply IH; [exact Hfull' | exact Hfin | |].
      * rewrite <- Hlen. assert (Eb' := Eb). apply bestFrom_some in Eb'.
        destruct Eb' as [Eb' | [Hr Hu]]; [discriminate|].
        apply matchInv_push; [exact Hinv | lia | exact Hu].
      * eapply greedyPairs_step; eassumption.
    + rewrite Hlen. apply IH; [exact Hfull' | exact Hfin | | exact Hg].
      rewrite <- Hlen. apply matchInv_skip, Hinv.
Qed.

(** The pairs come out in the order of [A]. *)
Lemma matchFrom_sorted (A B : list Stroke) (i : nat)
    (prs : list (nat * nat)) (usedB : list nat) :
  exists added,
    map fst (matchFrom dist A B i prs usedB) = map fst prs ++ added /\
    StronglySorted lt added /\ Forall (fun k => (i <= k)%nat) added.
Proof.
  revert i prs usedB. induction A as [|ai A IH]; intros i prs usedB.
  - exists []. simpl. rewrite app_nil_r. repeat constructor.
  - cbn [matchFrom].
    destruct (bestFrom dist ai B 0 usedB None PInf) as [r|].
    + destruct (IH (S i) (prs ++ [(i, r)]) (r :: usedB))
        as [added [E [Hs Hf]]].
      exists (i :: added). split; [|split].
      * rewrite E, map_app, <- app_assoc. reflexivity.
      * constructor; [exact Hs|].
        eapply Forall_impl; [|exact Hf]. intros k Hk. simpl in Hk. lia.
      * constructor; [lia|].
        eapply Forall_impl; [|exact Hf]. intros k Hk. simpl in Hk. lia.
    + destruct (IH (S i) prs usedB) as [added [E [Hs Hf]]].
      exists added. split; [exact E|]. split; [exact Hs|].
      eapply Forall_impl; [|exact Hf]. intros k Hk. simpl in Hk. lia.
Qed.

End GreedyFacts.

(** X16: the matcher is greedy.  With finite coordinates, every pair
    [(i, j)] joins [A[i]] to the cheapest stroke of [B] that no earlier
    stroke of [A] has taken, and to the first such stroke when several cost
    the same. *)
Theorem match_greedy (dist : num -> num -> num -> num -> num)
    (A B : list Stroke) :
  DistSpec dist -> Forall finiteStroke A -> Forall finiteStroke B ->
  greedyPairs dist A B (pairs (matchStrokes dist A B)).
Proof.
  intros Hd HA HB.
  apply (matchFrom_greedy dist A B [] A [] []).
  - reflexivity.
  - intros a b Ha Hb. rewrite Forall_forall in HA, HB.
    apply strokeMatchCost_finite; [exact Hd | apply HA, Ha | apply HB, Hb].
  - apply matchInv_nil.
  - intros i j [].
Qed.

Lemma match_greedy_witness :
  greedyPairs distQ [strokeA; strokeB] [strokeB; strokeA]
              (pairs (matchStrokes distQ [strokeA; strokeB] [strokeB; strokeA])).
Proof.
  apply (match_greedy distQ [strokeA; strokeB] [strokeB; strokeA]).
  - exact distQ_spec.
  - repeat constructor; apply finite_ofZ.
  - repeat constructor; apply finite_ofZ.
Defined.

(** X17: the pairs of [matchStrokes] are listed in the order of [A]: their
    first components increase strictly. *)
Theorem match_pairs_in_order (dist : num -> num -> num -> num -> num)
    (A B : list Stroke) :
  StronglySorted lt (map fst (pairs (matchStrokes dist A B))).
Proof.
  destruct (matchFrom_sorted dist A B 0 [] []) as [added [E [Hs _]]].
  unfold matchStrokes. cbn [pairs]. rewrite E. exact Hs.
Qed.

(* ------------------------------------------------------------------ *)
(** ** The frame store *)

Lemma In_skipn {A : Type} (n : nat) (l : list A) (v : A) :
  In v (skipn n l) -> In v l.
Proof.
  revert l. induction n as [|n IH]; intros [|w l]; simpl; try tauto.
  intro H. right. apply IH, H.
Qed.

Lemma point_eta (p : Point) : {| x := x p; y := y p |} = p.
Proof. destruct p. reflexivity. Qed.

Lemma map_point_eta (l : list Point) :
  map (fun p => {| x := x p; y := y p |}) l = l.
Proof.
  induction l as [|p l IH]; simpl; [reflexivity|].
  rewrite point_eta, IH. reflexivity.
Qed.

Section StoreFacts.

Variable Color : Type.
Variables hue saturation brightness alpha : Color -> num.

Local Notation "'clone'" :=
  (_cloneVector Color hue saturation brightness alpha).
Local Notation "'addFrame'" :=
  (addFrameFrom Color hue saturation brightness alpha).

Lemma clone_cons (s : LiveStroke Color) (ss : list (LiveStroke Color)) :
  clone (s :: ss)
  = if (2 <=? length (livePoints Color s))%nat
    then {| colHSB := _getStrokeHSB Color hue saturation brightness alpha
                        (col Color s);
            thickness := liveThickness Color s;
            opacity := liveOpacity Color s;
            eraser := liveEraser Color s;
            points := livePoints Color s |} :: clone ss
    else clone ss.
Proof.
  unfold _cloneVector. cbn [map filter points].
  rewrite map_point_eta. reflexivity.
Qed.

Lemma clone_long (ss : list (LiveStroke Color)) :
  Forall (fun s => (2 <= length (points s))%nat) (clone ss).
Proof.
  unfold _cloneVector. apply Forall_forall. intros s Hs.
  apply filter_In in Hs. destruct Hs as [_ Hs]. apply Nat.leb_le, Hs.
Qed.

Lemma clone_keeps (ss : list (LiveStroke Color)) :
  map points (clone ss)
  = map (livePoints Color)
        (filter (fun s => (2 <=? length (livePoints Color s))%nat) ss) /\
  map eraser (clone ss)
  = map (liveEraser Color)
        (filter (fun s => (2 <=? length (livePoints Color s))%nat) ss) /\
  map thickness (clone ss)
  = map (liveThickness Color)
        (filter (fun s => (2 <=? length (livePoints Color s))%nat) ss) /\
  map opacity (clone ss)
  = map (liveOpacity Color)
        (filter (fun s => (2 <=? length (livePoints Color s))%nat) ss).
Proof.
  induction ss as [|s ss [IH1 [IH2 [IH3 IH4]]]].
  - repeat split.
  - rewrite clone_cons. cbn [filter].
    destruct (2 <=? length (livePoints Color s))%nat; cbn [map points eraser
      thickness opacity]; rewrite ?IH1, ?IH2, ?IH3, ?IH4; repeat split.
Qed.

Lemma clone_nonempty (ss : list (LiveStroke Color)) :
  (exists s, In s ss /\ (2 <= length (livePoints Color s))%nat) <->
  clone ss <> [].
Proof.
  induction ss as [|s ss IH].
  - split; [intros [s [[] _]] | intro H; contradiction H; reflexivity].
  - rewrite clone_cons.
    destruct (2 <=? length (livePoints Color s))%nat eqn:E.
    + split; [intros _; discriminate|]. intros _. exists s.
      split; [left; reflexivity | apply Nat.leb_le, E].
    + apply Nat.leb_gt in E. rewrite <- IH. split.
      * intros [s' [[<- | Hin] Hl]]; [lia|]. exists s'. split; assumption.
      * intros [s' [Hin Hl]]. exists s'. split; [right|]; assumption.
Qed.

Lemma addFrame_cases (st : StoreState) (ss : list (LiveStroke Color)) :
  (addFrame st ss
   = ({| storedDrawings := storedDrawings st ++ [ {| strokes := clone ss |} ];
         selectedFrameIdx := Z.of_nat (length (storedDrawings st)) |},
      Stored (Z.of_nat (length (storedDrawings st)))) /\
   (length (storedDrawings st) < MAX_SLOTS)%nat /\ clone ss <> []) \/
  (addFrame st ss = (st, StorageFull) /\
   (MAX_SLOTS <= length (storedDrawings st))%nat /\ ss <> []) \/
  (addFrame st ss = (st, NothingToStore) /\ clone ss = []).
Proof.
  unfold addFrameFrom.
  destruct ss as [|s ss].
  - right; right. split; reflexivity.
  - cbn [length Nat.eqb].
    destruct (MAX_SLOTS <=? length (storedDrawings st))%nat eqn:Efull.
    + right; left. apply Nat.leb_le in Efull.
      split; [reflexivity|]. split; [exact Efull | discriminate].
    + apply Nat.leb_gt in Efull. cbv zeta.
      destruct (clone (s :: ss)) as [|c cs] eqn:Ec.
      * right; right. split; reflexivity.
      * left. cbn [length Nat.eqb]. split; [|split; [exact Efull | discriminate]].
        rewrite length_app. cbn [length].
        replace (Z.of_nat (length (storedDrawings st) + 1) - 1)%Z
          with (Z.of_nat (length (storedDrawings st))) by lia.
        reflexivity.
Qed.

Lemma storeInv_add (st : StoreState) (ss : list (LiveStroke Color)) :
  storeInv st -> storeInv (fst (addFrame st ss)).
Proof.
  intros [Hlen [Hall Hsel]].
  destruct (addFrame_cases st ss) as [[E [Hlt Hne]] | [[E _] | [E _]]];
    rewrite E; cbn [fst]; [|split; [|split]; assumption ..].
  split; [|split]; cbn [storedDrawings selectedFrameIdx].
  - rewrite length_app. cbn [length]. lia.
  - apply Forall_app. split; [exact Hall|].
    constructor; [|constructor]. cbn [strokes].
    split; [exact Hne | apply clone_long].
  - rewrite length_app. cbn [length]. lia.
Qed.

End StoreFacts.

Lemma storeInv_delete (st : StoreState) (i : nat) :
  storeInv st -> storeInv (deleteFrame st i).
Proof.
  intros [Hlen [Hall Hsel]]. unfold deleteFrame, storeInv.
  cbn [storedDrawings selectedFrameIdx].
  assert (Hnew : length (firstn i (storedDrawings st)
                         ++ skipn (S i) (storedDrawings st))
                 = if (i <? length (storedDrawings st))%nat
                   then (length (storedDrawings st) - 1)%nat
                   else length (storedDrawings st)).
  { rewrite length_app, length_firstn, length_skipn.
    destruct (i <? length (storedDrawings st))%nat eqn:E;
      [apply Nat.ltb_lt in E | apply Nat.ltb_ge in E]; lia. }
  split; [|split].
  - rewrite Hnew. destruct (i <? length (storedDrawings st))%nat; lia.
  - rewrite Forall_forall in Hall. apply Forall_forall. intros d Hd.
    apply Hall. apply in_app_iff in Hd.
    destruct Hd as [Hd | Hd]; [eapply In_firstn | eapply In_skipn]; exact Hd.
  - rewrite Hnew.
    destruct (selectedFrameIdx st =? Z.of_nat i)%Z eqn:E1;
      [apply Z.eqb_eq in E1 | apply Z.eqb_neq in E1].
    + destruct (Z.of_nat i <? -1)%Z eqn:E2; [apply Z.ltb_lt in E2; lia|].
      destruct (i <? length (storedDrawings st))%nat eqn:E3;
        [apply Nat.ltb_lt in E3 | apply Nat.ltb_ge in E3]; lia.
    + destruct (Z.of_nat i <? selectedFrameIdx st)%Z eqn:E2;
        [apply Z.ltb_lt in E2 | apply Z.ltb_ge in E2];
        (destruct (i <? length (storedDrawings st))%nat eqn:E3;
         [apply Nat.ltb_lt in E3 | apply Nat.ltb_ge in E3]); lia.
Qed.


(** X23: a frame is stored as the strokes of two points or more, in their
    order, each with its points, eraser flag, thickness and opacity; strokes
    of fewer points are left behind. *)
Theorem clone_keeps_long_strokes (Color : Type)
    (hue saturation brightness alpha : Color -> num)
    (ss : list (LiveStroke Color)) :
  Forall (fun s => (2 <= length (points s))%nat)
         (_cloneVector Color hue saturation brightness alpha ss) /\
  map points (_cloneVector Color hue saturation brightness alpha ss)
  = map (livePoints Color)
        (filter (fun s => (2 <=? length (livePoints Color s))%nat) ss) /\
  map eraser (_cloneVector Color hue saturation brightness alpha ss)
  = map (liveEraser Color)
        (filter (fun s => (2 <=? length (livePoints Color s))%nat) ss) /\
  map thickness (_cloneVector Color hue saturation brightness alpha ss)
  = map (liveThickness Color)
        (filter (fun s => (2 <=? length (livePoints Color s))%nat) ss) /\
  map opacity (_cloneVector Color hue saturation brightness alpha ss)
  = map (liveOpacity Color)
        (filter (fun s => (2 <=? length (livePoints Color s))%nat) ss).
Proof.
  split; [apply clone_long | apply clone_keeps].
Qed.

(** X24: how [addFrameFrom] ends.  It stores a frame, at the next index and
    selected, exactly when fewer than 10 frames are stored and some stroke
    has two points or more; with 10 frames stored and a stroke to store it
    reports the storage full; otherwise there is nothing to store.  Unless it
    stores, the store is as before. *)
Theorem addFrameFrom_outcome (Color : Type)
    (hue saturation brightness alpha : Color -> num)
    (st : StoreState) (ss : list (LiveStroke Color)) :
  ((count st < 10)%nat /\
   (exists s, In s ss /\ (2 <= length (livePoints Color s))%nat) ->
   addFrameFrom Color hue saturation brightness alpha st ss
   = ({| storedDrawings :=
           storedDrawings st
           ++ [ {| strokes :=
                     _cloneVector Color hue saturation brightness alpha ss |} ];
         selectedFrameIdx := Z.of_nat (count st) |},
      Stored (Z.of_nat (count st)))) /\
  ((10 <= count st)%nat /\ ss <> [] ->
   addFrameFrom Color hue saturation brightness alpha st ss
   = (st, StorageFull)) /\
  (ss = [] \/
   ((count st < 10)%nat /\
    forall s, In s ss -> (length (livePoints Color s) < 2)%nat) ->
   addFrameFrom Color hue saturation brightness alpha st ss
   = (st, NothingToStore)).
Proof.
  unfold count.
  destruct (addFrame_cases Color hue saturation brightness alpha st ss)
    as [[E [Hlt Hne]] | [[E [Hfull Hss]] | [E Hempty]]];
    unfold MAX_SLOTS in *.
  - split; [intros _; exact E|]. split.
    + intros [H _]. lia.
    + intros [-> | [_ Hshort]]; [contradiction Hne; reflexivity|].
      apply clone_nonempty in Hne. destruct Hne as [s [Hin Hl]].
      specialize (Hshort s Hin). lia.
  - split; [intros [H _]; lia|]. split; [intros _; exact E|].
    intros [-> | [H _]]; [contradiction Hss; reflexivity | lia].
  - split.
    + intros [_ Hex].
      apply (clone_nonempty Color hue saturation brightness alpha) in Hex.
      contradiction.
    + split; [|intros _; exact E].
      intros [Hfull Hss]. destruct ss as [|s ss]; [contradiction Hss; reflexivity|].
      unfold addFrameFrom. cbn [length Nat.eqb].
      destruct (MAX_SLOTS <=? length (storedDrawings st))%nat eqn:Ef;
        [reflexivity|].
      apply Nat.leb_gt in Ef. unfold MAX_SLOTS in Ef. lia.
Qed.

(** X25: the store keeps its frames in order: never more than 10, none of
    them empty, every stored stroke of two points or more, and the selection
    at [-1] or at a stored frame.  This holds of the empty store and is kept
    by storing a frame, deleting a tile and selecting a tile. *)
Theorem store_invariant (Color : Type)
    (hue saturation brightness alpha : Color -> num)
    (st : StoreState) (ss : list (LiveStroke Color)) (i : nat) :
  storeInv st ->
  storeInv emptyStore /\
  storeInv (fst (addFrameFrom Color hue saturation brightness alpha st ss)) /\
  storeInv (deleteFrame st i) /\
  ((i < count st)%nat -> storeInv (selectFrame st i)).
Proof.
  intro Hinv. split; [|split; [|split]].
  - unfold storeInv, emptyStore, MAX_SLOTS. simpl.
    split; [lia|]. split; [constructor | lia].
  - apply storeInv_add, Hinv.
  - apply storeInv_delete, Hinv.
  - intro Hi. destruct Hinv as [Hlen [Hall Hsel]].
    unfold storeInv, selectFrame, count in *. simpl.
    split; [exact Hlen|]. split; [exact Hall | lia].
Qed.

Lemma store_invariant_witness :
  storeInv (fst (addFrameFrom DemoColor demoChannel demoChannel demoChannel
                   demoChannel emptyStore [liveA; liveDot])) /\
  storeInv (deleteFrame emptyStore 0).
Proof.
  destruct (store_invariant DemoColor demoChannel demoChannel demoChannel
              demoChannel emptyStore [liveA; liveDot] 0) as [_ [H1 [H2 _]]].
  - unfold storeInv, emptyStore, MAX_SLOTS. simpl.
    split; [lia|]. split; [constructor | lia].
  - split; [exact H1 | exact H2].
Defined.

(* ------------------------------------------------------------------ *)
(** ** From the animate button to the last frame *)




(* ------------------------------------------------------------------ *)
(** ** Doubles: what the rounding keeps *)

Section RoundingFacts.

Variable rnd : Q -> num.
Hypothesis rnd_ok : RoundSpec rnd.

Lemma rnd_zero : rnd 0 = Fin 0.
Proof.
  apply (rnd_int rnd rnd_ok 0). vm_compute. discriminate.
Qed.

Lemma rnd_one : rnd 1 = Fin 1.
Proof.
  apply (rnd_int rnd rnd_ok 1). vm_compute. discriminate.
Qed.

Lemma rnd_cases (q : Q) :
  rnd q = PInf \/ rnd q = NInf \/ exists q', rnd q = Fin q'.
Proof.
  destruct (rnd q) as [| |q'|] eqn:E.
  - exfalso. exact (rnd_not_nan rnd rnd_ok q E).
  - right; left; reflexivity.
  - right; right. exists q'. reflexivity.
  - left; reflexivity.
Qed.

Lemma rnd_nonneg (q : Q) : (0 <= q)%Q -> notNegative (rnd q).
Proof.
  intro H. unfold notNegative.
  assert (Hm := rnd_mono rnd rnd_ok 0 q H). rewrite rnd_zero in Hm.
  exact Hm.
Qed.

Lemma rounded_notNegative (u : num) :
  notNegative u -> notNegative (rounded rnd u).
Proof.
  destruct u as [| |q|]; simpl; intro H; try exact H.
  apply rnd_nonneg. unfold notNegative in H. cbn [ltb ofZ] in H.
  apply Qltb_false in H. unfold inject_Z in H. exact H.
Qed.

Lemma add_notNegative (u v : num) :
  notNegative u -> notNegative v -> notNegative (Rounded.add rnd u v).
Proof.
  intros Hu Hv. apply rounded_notNegative, notNegative_add; assumption.
Qed.

(** What comes out of an operation finite is a double. *)
Lemma rounded_double (u : num) (q : Q) :
  rounded rnd u = Fin q -> rnd q = Fin q.
Proof.
  destruct u as [| |p|]; simpl; intro H; try discriminate H.
  exact (rnd_idem rnd rnd_ok p q H).
Qed.

(** The fraction [k / (N - 1)] of the sampling loop is within [0, 1]. *)
Lemma sample_fraction (N : Z) (k : nat) :
  (2 <= N)%Z -> (Z.of_nat k <= N - 1)%Z ->
  exists r, Rounded.div rnd (ofNat k) (ofZ (N - 1)) = Fin r /\
            (0 <= r)%Q /\ (r <= 1)%Q.
Proof.
  intros HN Hk. unfold Rounded.div, ofNat, ofZ. cbn [div].
  assert (Hden : (0 < inject_Z (N - 1))%Q).
  { change 0%Q with (inject_Z 0). rewrite <- Zlt_Qlt. lia. }
  assert (Hne : Qeq_bool (inject_Z (N - 1)) 0 = false)
    by (apply Qeq_bool_false; lra).
  rewrite Hne. cbn [rounded].
  set (f := (inject_Z (Z.of_nat k) / inject_Z (N - 1))%Q).
  assert (Hf0 : (0 <= f)%Q).
  { unfold f. apply Qle_shift_div_l; [exact Hden|]. rewrite Qmult_0_l.
    change 0%Q with (inject_Z 0). rewrite <- Zle_Qle. lia. }
  assert (Hf1 : (f <= 1)%Q).
  { unfold f. apply Qle_shift_div_r; [exact Hden|].
    rewrite Qmult_1_l, <- Zle_Qle. exact Hk. }
  assert (H0 := rnd_mono rnd rnd_ok 0 f Hf0). rewrite rnd_zero in H0.
  assert (H1 := rnd_mono rnd rnd_ok f 1 Hf1). rewrite rnd_one in H1.
  destruct (rnd_cases f) as [E | [E | [r E]]]; rewrite E in H0, H1.
  - discriminate H1.
  - discriminate H0.
  - exists r. split; [exact E|]. cbn [ltb] in H0, H1.
    apply Qltb_false in H0, H1. split; assumption.
Qed.

(** A sampling position is never beyond a total that is a double. *)
Lemma sample_position_bound (total : num) (N : Z) (k : nat) :
  notNegative total -> (forall T, total = Fin T -> rnd T = Fin T) ->
  (2 <= N)%Z -> (Z.of_nat k <= N - 1)%Z ->
  ltb total
      (Rounded.mul rnd (Rounded.div rnd (ofNat k) (ofZ (N - 1))) total)
  = false.
Proof.
  intros Hnn Hrep HN Hk.
  destruct (sample_fraction N k HN Hk) as [r [-> [Hr0 Hr1]]].
  destruct total as [| |T|]; try reflexivity.
  - discriminate Hnn.
  - unfold Rounded.mul. cbn [mul rounded].
    unfold notNegative in Hnn. cbn [ltb ofZ] in Hnn.
    apply Qltb_false in Hnn. unfold inject_Z in Hnn.
    assert (Hle : (r * T <= T)%Q) by nra.
    assert (Hm := rnd_mono rnd rnd_ok (r * T) T Hle).
    rewrite (Hrep T eq_refl) in Hm. exact Hm.
  - destruct (Rounded.mul rnd (Fin r) PInf); reflexivity.
Qed.

Section Resampling.

Variable dist : num -> num -> num -> num -> num.
Hypothesis dist_nn : forall x1 y1 x2 y2, notNegative (dist x1 y1 x2 y2).

Lemma cumulative_length_rounded (acc : num) (p : Point) (rest : list Point) :
  length (Rounded.cumulative rnd dist acc p rest) = length rest.
Proof.
  revert acc p. induction rest as [|q rest IH]; intros acc p; simpl.
  - reflexivity.
  - rewrite IH. reflexivity.
Qed.

(** The last entry of the table is not below zero, and a double when it is
    finite. *)
Lemma table_last_rounded (acc : num) (p : Point) (rest : list Point) :
  notNegative acc -> (forall T, acc = Fin T -> rnd T = Fin T) ->
  notNegative (last (acc :: Rounded.cumulative rnd dist acc p rest) NaN) /\
  (forall T,
     last (acc :: Rounded.cumulative rnd dist acc p rest) NaN = Fin T ->
     rnd T = Fin T).
Proof.
  revert acc p. induction rest as [|q rest IH]; intros acc p Hacc Hrep.
  - split; [exact Hacc | exact Hrep].
  - change (last (acc :: Rounded.cumulative rnd dist acc p (q :: rest)) NaN)
      with (last (Rounded.add rnd acc (distPts dist p q)
                  :: Rounded.cumulative rnd dist
                       (Rounded.add rnd acc (distPts dist p q)) q rest) NaN).
    apply IH.
    + apply add_notNegative; [exact Hacc | apply dist_nn].
    + intros T E. exact (rounded_double _ T E).
Qed.

Lemma samplePoint_rounded_returns (p0 : Point) (rest : list Point) (N : Z)
    (k : nat) :
  rest <> [] -> (2 <= N)%Z -> (Z.of_nat k < N)%Z ->
  let L := ofZ 0 :: Rounded.cumulative rnd dist (ofZ 0) p0 rest in
  exists p, Rounded.samplePoint rnd (p0 :: rest) L (last L NaN) N k = Ok p.
Proof.
  intros Hne HN Hk L.
  assert (Hrep0 : forall T, ofZ 0 = Fin T -> rnd T = Fin T).
  { intros T E. injection E as <-. exact rnd_zero. }
  destruct (table_last_rounded (ofZ 0) p0 rest notNegative_zero Hrep0)
    as [Hnn Hrep].
  fold L in Hnn, Hrep.
  assert (Hpos := sample_position_bound (last L NaN) N k Hnn Hrep HN
                    ltac:(lia)).
  set (t := Rounded.mul rnd (Rounded.div rnd (ofNat k) (ofZ (N - 1)))
                        (last L NaN)) in *.
  assert (Htl : tl L = Rounded.cumulative rnd dist (ofZ 0) p0 rest)
    by reflexivity.
  assert (Hcne : Rounded.cumulative rnd dist (ofZ 0) p0 rest <> []).
  { intro E. apply (f_equal (@length num)) in E.
    rewrite cumulative_length_rounded in E.
    destruct rest; [contradiction | discriminate]. }
  assert (Hlast : last L NaN
                  = last (Rounded.cumulative rnd dist (ofZ 0) p0 rest) NaN).
  { unfold L. destruct (Rounded.cumulative rnd dist (ofZ 0) p0 rest);
      [contradiction | reflexivity]. }
  assert (Hj := scan_bound (Rounded.cumulative rnd dist (ofZ 0) p0 rest) t 1
                  Hcne ltac:(rewrite <- Hlast; exact Hpos)).
  assert (Hj1 := scan_ge (Rounded.cumulative rnd dist (ofZ 0) p0 rest) t 1).
  rewrite cumulative_length_rounded in Hj.
  unfold Rounded.samplePoint. fold t. rewrite Htl.
  set (j := scan (Rounded.cumulative rnd dist (ofZ 0) p0 rest) t 1) in *.
  destruct (@index_ok _ (p0 :: rest) (Nat.max 1 j - 1)) as [q0 [E0 _]];
    [simpl length; lia|].
  destruct (@index_ok _ (p0 :: rest) (Nat.max 1 j)) as [q1 [E1 _]];
    [simpl length; lia|].
  rewrite E0, E1. simpl. eexists. reflexivity.
Qed.

(** On doubles too [resamplePointsLocal] returns, and with how many
    points. *)
Lemma resample_rounded_returns (pts : list Point) (N : Z) :
  exists out,
    Rounded.resamplePointsLocal rnd dist pts N = Ok out /\
    ((length pts < 2)%nat -> out = pts) /\
    ((2 <= length pts)%nat -> length out = Z.to_nat (Z.max 2 N)).
Proof.
  destruct pts as [|p0 [|p1 rest]].
  - exists []. simpl. repeat split; auto. intro H. simpl in H. lia.
  - exists [p0]. simpl. repeat split; auto. intro H. simpl in H. lia.
  - unfold Rounded.resamplePointsLocal.
    set (L := ofZ 0 :: Rounded.cumulative rnd dist (ofZ 0) p0 (p1 :: rest)).
    destruct (seq_num (last L NaN) (ofZ 0)).
    + eexists. split; [reflexivity|]. split.
      * simpl. lia.
      * intros _. apply repeat_length.
    + destruct (@mapM_ok _ _
                  (Rounded.samplePoint rnd (p0 :: p1 :: rest) L (last L NaN)
                                       (Z.max 2 N))
                  (upto (Z.max 2 N))) as [out [Hout Hlen]].
      { intros k Hk. apply upto_In in Hk.
        apply samplePoint_rounded_returns; [discriminate | lia | exact Hk]. }
      exists out. split; [exact Hout|]. split.
      * simpl. lia.
      * intros _. rewrite Hlen. apply upto_length.
Qed.

(** With two points or more on each side the tween returns; its points are
    the pointwise [lerp] of the first [N] resampled points. *)
Lemma tween_rounded_returns (a b : Stroke) (t : num) (N : Z) :
  (2 <= length (points a))%nat -> (2 <= length (points b))%nat ->
  exists pa pb s,
    Rounded.resamplePointsLocal rnd dist (points a) N = Ok pa /\
    Rounded.resamplePointsLocal rnd dist (points b) N = Ok pb /\
    length pa = Z.to_nat (Z.max 2 N) /\
    length pb = Z.to_nat (Z.max 2 N) /\
    Rounded.tweenTwoStrokes rnd dist a b t N = Ok s /\
    points s =
      map (fun qq => {| x := Rounded.lerp rnd (x (fst qq)) (x (snd qq)) t;
                        y := Rounded.lerp rnd (y (fst qq)) (y (snd qq)) t |})
          (combine (firstn (Z.to_nat N) pa) (firstn (Z.to_nat N) pb)) /\
    length (points s) = Z.to_nat N /\
    eraser s = false /\
    opacity s =
      Some (Rounded.lerp rnd (nullish (opacity a) (ofZ 100))
                         (nullish (opacity b) (ofZ 100)) t) /\
    thickness s =
      Some (Rounded.lerp rnd (falsyOr (thickness a) (ofZ 4))
                         (falsyOr (thickness b) (ofZ 4)) t) /\
    hsb_h (colHSB s)
    = Rounded.lerp rnd (hsb_h (colHSB a)) (hsb_h (colHSB b)) t /\
    hsb_s (colHSB s)
    = Rounded.lerp rnd (hsb_s (colHSB a)) (hsb_s (colHSB b)) t /\
    hsb_b (colHSB s)
    = Rounded.lerp rnd (hsb_b (colHSB a)) (hsb_b (colHSB b)) t /\
    hsb_a (colHSB s) =
      Some (Rounded.lerp rnd
        (nullish (opacity a) (nullish (hsb_a (colHSB a)) (ofZ 100)))
        (nullish (opacity b) (nullish (hsb_a (colHSB b)) (ofZ 100))) t).
Proof.
  intros Ha Hb.
  destruct (resample_rounded_returns (points a) N) as [pa [Epa [_ Lpa]]].
  destruct (resample_rounded_returns (points b) N) as [pb [Epb [_ Lpb]]].
  specialize (Lpa Ha). specialize (Lpb Hb).
  exists pa, pb. unfold Rounded.tweenTwoStrokes. rewrite Epa, Epb. simpl.
  unfold upto.
  rewrite (mapM_index2
             (fun qa qb => {| x := Rounded.lerp rnd (x qa) (x qb) t;
                              y := Rounded.lerp rnd (y qa) (y qb) t |})
             pa pb (Z.to_nat N) 0) by lia.
  simpl. eexists.
  split; [reflexivity|]. split; [reflexivity|].
  split; [exact Lpa|]. split; [exact Lpb|].
  split; [reflexivity|]. split; [reflexivity|].
  split; [|repeat split].
  simpl. rewrite length_map, length_combine, !length_firstn. lia.
Qed.

End Resampling.

End RoundingFacts.

(* ------------------------------------------------------------------ *)
(** ** Doubles: [lerp] at the two ends *)

Lemma unitRoundoff_range : (0 <= unitRoundoff)%Q /\ (unitRoundoff <= 1)%Q.
Proof. split; vm_compute; discriminate. Qed.

Lemma underflowUnit_range : (0 <= underflowUnit)%Q /\ (underflowUnit <= 1)%Q.
Proof. split; vm_compute; discriminate. Qed.

Lemma Qabs_bounds (v b : Q) : (Qabs v <= b)%Q <-> (- b <= v)%Q /\ (v <= b)%Q.
Proof. apply Qabs_Qle_condition. Qed.

Lemma Qmult_le_nonneg_l (x y z : Q) :
  (0 <= z)%Q -> (x <= y)%Q -> (z * x <= z * y)%Q.
Proof.
  intros Hz Hxy. rewrite (Qmult_comm z x), (Qmult_comm z y).
  apply Qmult_le_compat_r; assumption.
Qed.

Lemma doubleWithin_le (rnd : Q -> num) (M M' : Q) (u : num) :
  doubleWithin rnd M u -> (M <= M')%Q -> doubleWithin rnd M' u.
Proof.
  intros [q [-> [Hq HM]]] Hle. exists q.
  split; [reflexivity|]. split; [exact Hq | lra].
Qed.

Lemma Qabs_sub_le (p q M : Q) :
  (Qabs p <= M)%Q -> (Qabs q <= M)%Q -> (Qabs (q - p) <= 2 * M)%Q.
Proof.
  intros Hp Hq. apply Qabs_bounds in Hp, Hq. apply Qabs_bounds. lra.
Qed.

Section LerpEnds.

Variable rnd : Q -> num.
Hypothesis rnd_ok : RoundSpec rnd.

(** At [amt = 0] a [lerp] between doubles is its start, exactly, as long as
    the difference of the two does not overflow. *)
Lemma lerp_at_zero (p q : Q) :
  rnd p = Fin p -> (Qabs (q - p) <= maxDouble)%Q ->
  Rounded.lerp rnd (Fin p) (Fin q) (ofZ 0) = Fin p.
Proof.
  intros Hp Hd. unfold Rounded.lerp, Rounded.add, Rounded.mul, Rounded.sub.
  cbn [sub rounded].
  destruct (rnd_range rnd rnd_ok (q - p) Hd) as [d ->].
  unfold ofZ. cbn [mul rounded].
  rewrite (rnd_ext rnd rnd_ok (inject_Z 0 * d) 0) by (unfold inject_Z; ring).
  rewrite (rnd_zero rnd rnd_ok). cbn [add rounded].
  rewrite (rnd_ext rnd rnd_ok (0 + p) p) by ring.
  exact Hp.
Qed.

(** At [amt = 1] a [lerp] between doubles of magnitude at most [M] is its
    stop within [lerpTolerance M]. *)
Lemma lerp_at_one (p q M : Q) :
  rnd p = Fin p -> (Qabs p <= M)%Q -> (Qabs q <= M)%Q ->
  (4 * M + 1 <= maxDouble)%Q ->
  exists r,
    Rounded.lerp rnd (Fin p) (Fin q) (ofZ 1) = Fin r /\
    (Qabs (r - q) <= lerpTolerance M)%Q.
Proof.
  intros Hp HpM HqM Hbig.
  destruct unitRoundoff_range as [Hu0 Hu1].
  destruct underflowUnit_range as [He0 He1].
  assert (HM : (0 <= M)%Q).
  { assert (H := Qabs_nonneg p). lra. }
  assert (Hqp := Qabs_sub_le p q M HpM HqM).
  assert (Hqp0 := Qabs_nonneg (q - p)).
  unfold Rounded.lerp, Rounded.add, Rounded.mul, Rounded.sub.
  cbn [sub rounded].
  destruct (rnd_range rnd rnd_ok (q - p) ltac:(lra)) as [d Ed].
  rewrite Ed. unfold ofZ. cbn [mul rounded].
  assert (Hd := rnd_idem rnd rnd_ok _ _ Ed).
  rewrite (rnd_ext rnd rnd_ok (inject_Z 1 * d) d) by (unfold inject_Z; ring).
  rewrite Hd. cbn [add rounded].
  assert (Herr1 := rnd_err rnd rnd_ok _ _ Ed).
  set (u := unitRoundoff) in *. set (eta := underflowUnit) in *.
  set (A := Qabs (q - p)) in *.
  assert (HuA : (u * A <= 2 * (u * M))%Q) by nra.
  assert (HuM : (0 <= u * M)%Q) by nra.
  apply Qabs_bounds in Herr1. apply Qabs_bounds in HpM, HqM.
  assert (Hdp : (Qabs (d + p) <= M + 2 * (u * M) + eta)%Q).
  { apply Qabs_bounds. lra. }
  assert (Hdp0 := Qabs_nonneg (d + p)).
  destruct (rnd_range rnd rnd_ok (d + p) ltac:(nra)) as [r Er].
  exists r. split; [exact Er|].
  assert (Herr2 := rnd_err rnd rnd_ok _ _ Er).
  fold u in Herr2. fold eta in Herr2.
  set (B := Qabs (d + p)) in *.
  assert (HuB : (u * B <= u * M + 2 * (u * M) + eta)%Q) by nra.
  apply Qabs_bounds in Herr2.
  unfold lerpTolerance. fold u. fold eta. apply Qabs_bounds. lra.
Qed.

Lemma lerp_double_start (M : Q) (a b : num) :
  doubleWithin rnd M a -> doubleWithin rnd M b ->
  (4 * M + 1 <= maxDouble)%Q ->
  (Rounded.lerp rnd a b (ofZ 0) =n= a)%num.
Proof.
  intros [p [-> [Hp HpM]]] [q [-> [_ HqM]]] Hbig.
  assert (H := Qabs_sub_le p q M HpM HqM).
  assert (HM : (0 <= M)%Q) by (assert (H0 := Qabs_nonneg p); lra).
  rewrite (lerp_at_zero p q Hp ltac:(lra)). simpl. reflexivity.
Qed.

Lemma lerp_double_stop (M : Q) (a b : num) :
  doubleWithin rnd M a -> doubleWithin rnd M b ->
  (4 * M + 1 <= maxDouble)%Q ->
  closeNum (lerpTolerance M) (Rounded.lerp rnd a b (ofZ 1)) b.
Proof.
  intros [p [-> [Hp HpM]]] [q [-> [_ HqM]]] Hbig.
  destruct (lerp_at_one p q M Hp HpM HqM Hbig) as [r [Er Hr]].
  exists r, q. split; [exact Er|]. split; [reflexivity | exact Hr].
Qed.

End LerpEnds.

(* ------------------------------------------------------------------ *)
(** ** Rounding to the nearest double meets [RoundSpec] *)

Lemma Qred_inject_Z (z : Z) : Qred (inject_Z z) = inject_Z z.
Proof.
  unfold Qred, inject_Z. cbn [Qnum Qden].
  assert (Hg := Z.ggcd_gcd z 1). assert (Hd := Z.ggcd_correct_divisors z 1).
  destruct (Z.ggcd z 1) as [g [aa bb]]. cbn [fst snd] in *.
  rewrite Z.gcd_1_r in Hg. subst g. destruct Hd as [Ha Hb].
  rewrite Z.mul_1_l in Ha, Hb. subst aa bb. reflexivity.
Qed.

Lemma Qltb_ext (p q : Q) : (p == q)%Q -> Qltb 0 p = Qltb 0 q.
Proof.
  intro H. destruct (Qltb 0 p) eqn:E1, (Qltb 0 q) eqn:E2; try reflexivity.
  - apply Qltb_true in E1. apply Qltb_false in E2. lra.
  - apply Qltb_false in E1. apply Qltb_true in E2. lra.
Qed.

Lemma roundHalfEven_ext (m m' : Q) :
  (m == m')%Q -> roundHalfEven m = roundHalfEven m'.
Proof.
  intro H. unfold roundHalfEven. rewrite (Qfloor_comp m m' H).
  assert (E : (m - inject_Z (Qfloor m') ?= 1 # 2)
              = (m' - inject_Z (Qfloor m') ?= 1 # 2)).
  { apply Qcompare_comp; [rewrite H; reflexivity | reflexivity]. }
  rewrite E. reflexivity.
Qed.

Lemma roundHalfEven_floor (m : Q) :
  (Qfloor m <= roundHalfEven m <= Qfloor m + 1)%Z.
Proof.
  unfold roundHalfEven.
  destruct (m - inject_Z (Qfloor m) ?= 1 # 2); [destruct (Z.even (Qfloor m))| |];
    lia.
Qed.

Lemma roundHalfEven_Z (k : Z) : roundHalfEven (inject_Z k) = k.
Proof.
  unfold roundHalfEven. rewrite Qfloor_Z.
  destruct (Qcompare_spec (inject_Z k - inject_Z k) (1 # 2)) as [A | A | A].
  - exfalso. lra.
  - reflexivity.
  - exfalso. lra.
Qed.

Lemma roundHalfEven_err (m : Q) :
  (Qabs (inject_Z (roundHalfEven m) - m) <= 1 # 2)%Q.
Proof.
  assert (H1 := Qfloor_le m). assert (H2 := Qlt_floor m).
  rewrite inject_Z_plus in H2. change (inject_Z 1) with 1%Q in H2.
  unfold roundHalfEven.
  destruct (Qcompare_spec (m - inject_Z (Qfloor m)) (1 # 2)) as [E | E | E].
  - destruct (Z.even (Qfloor m)).
    + apply Qabs_Qle_condition. split; lra.
    + rewrite inject_Z_plus. change (inject_Z 1) with 1%Q.
      apply Qabs_Qle_condition. split; lra.
  - apply Qabs_Qle_condition. split; lra.
  - rewrite inject_Z_plus. change (inject_Z 1) with 1%Q.
    apply Qabs_Qle_condition. split; lra.
Qed.

Lemma roundHalfEven_mono (m m' : Q) :
  (m <= m')%Q -> (roundHalfEven m <= roundHalfEven m')%Z.
Proof.
  intro H.
  assert (Hf := Qfloor_resp_le m m' H).
  destruct (Z.eq_dec (Qfloor m) (Qfloor m')) as [E | E].
  - unfold roundHalfEven. rewrite <- E.
    destruct (Qcompare_spec (m - inject_Z (Qfloor m)) (1 # 2)) as [A | A | A];
      destruct (Qcompare_spec (m' - inject_Z (Qfloor m)) (1 # 2))
        as [B | B | B];
      try destruct (Z.even (Qfloor m)); try lia; exfalso; lra.
  - assert (A := roundHalfEven_floor m). assert (B := roundHalfEven_floor m').
    lia.
Qed.

Lemma roundHalfEven_le (m : Q) (k : Z) :
  (m <= inject_Z k)%Q -> (roundHalfEven m <= k)%Z.
Proof.
  intro H. rewrite <- (roundHalfEven_Z k). apply roundHalfEven_mono, H.
Qed.

Lemma roundHalfEven_ge (m : Q) (k : Z) :
  (inject_Z k <= m)%Q -> (k <= roundHalfEven m)%Z.
Proof.
  intro H. rewrite <- (roundHalfEven_Z k). apply roundHalfEven_mono, H.
Qed.

(** Powers of two. *)
Lemma two_pow_pos (k : Z) : (0 <= k)%Z -> (0 < 2 ^ k)%Z.
Proof. intro H. apply Z.pow_pos_nonneg; lia. Qed.

Lemma two_pow_posQ (k : Z) : (0 <= k)%Z -> (0 < inject_Z (2 ^ k))%Q.
Proof.
  intro H. change 0%Q with (inject_Z 0). rewrite <- Zlt_Qlt.
  apply two_pow_pos, H.
Qed.

Lemma two_pow_add (a b : Z) :
  (0 <= a)%Z -> (0 <= b)%Z ->
  (inject_Z (2 ^ (a + b)) == inject_Z (2 ^ a) * inject_Z (2 ^ b))%Q.
Proof.
  intros Ha Hb. rewrite Z.pow_add_r by assumption. rewrite inject_Z_mult.
  reflexivity.
Qed.

Lemma shiftOf_nonneg (X : Q) : (0 <= shiftOf X)%Z.
Proof. unfold shiftOf. lia. Qed.

Lemma shiftOf_mono (X Y : Q) : (X <= Y)%Q -> (shiftOf X <= shiftOf Y)%Z.
Proof.
  intro H. unfold shiftOf.
  assert (A := Z.log2_le_mono _ _ (Qfloor_resp_le X Y H)). lia.
Qed.

Lemma shiftOf_ext (X Y : Q) : (X == Y)%Q -> shiftOf X = shiftOf Y.
Proof. intro H. unfold shiftOf. rewrite (Qfloor_comp X Y H). reflexivity. Qed.

(** Below the shift there are at most 53 digits. *)
Lemma shiftOf_upper (X : Q) :
  (X < inject_Z (2 ^ (shiftOf X + 53)))%Q.
Proof.
  assert (H2 := Qlt_floor X).
  assert (Hs := shiftOf_nonneg X).
  apply Qlt_le_trans with (inject_Z (Qfloor X + 1)); [exact H2|].
  rewrite <- Zle_Qle.
  destruct (Z_le_gt_dec (Qfloor X) 0) as [Hf | Hf].
  - assert (P : (1 <= 2 ^ (shiftOf X + 53))%Z).
    { assert (Q0 := two_pow_pos (shiftOf X + 53) ltac:(lia)). lia. }
    lia.
  - assert (L := Z.log2_spec (Qfloor X) ltac:(lia)).
    assert (Hle : (Z.succ (Z.log2 (Qfloor X)) <= shiftOf X + 53)%Z)
      by (unfold shiftOf; lia).
    assert (P := Z.pow_le_mono_r 2 _ _ ltac:(lia) Hle). lia.
Qed.

(** Above a positive shift there are 53 digits. *)
Lemma shiftOf_lower (X : Q) :
  (0 < shiftOf X)%Z -> (inject_Z (2 ^ (shiftOf X + 52)) <= X)%Q.
Proof.
  intro Hpos. assert (H1 := Qfloor_le X).
  apply Qle_trans with (inject_Z (Qfloor X)); [|exact H1].
  rewrite <- Zle_Qle.
  assert (Hl : (52 < Z.log2 (Qfloor X))%Z) by (unfold shiftOf in Hpos; lia).
  assert (Hf : (0 < Qfloor X)%Z).
  { destruct (Z_le_gt_dec (Qfloor X) 0) as [Hf | Hf]; [|lia].
    rewrite (Z.log2_nonpos _ Hf) in Hl. lia. }
  assert (L := Z.log2_spec (Qfloor X) Hf).
  replace (shiftOf X + 52)%Z with (Z.log2 (Qfloor X))
    by (unfold shiftOf; lia).
  lia.
Qed.

Lemma keep53_unfold (X : Q) :
  keep53 X
  = (roundHalfEven (X / inject_Z (2 ^ shiftOf X)) * 2 ^ shiftOf X)%Z.
Proof. reflexivity. Qed.

Lemma keep53_ext (X Y : Q) : (X == Y)%Q -> keep53 X = keep53 Y.
Proof.
  intro H. rewrite !keep53_unfold, (shiftOf_ext X Y H).
  rewrite (roundHalfEven_ext (X / inject_Z (2 ^ shiftOf Y))
                             (Y / inject_Z (2 ^ shiftOf Y)))
    by (rewrite H; reflexivity).
  reflexivity.
Qed.

(** The digits kept: at most [2^53], and at least [2^52] above a positive
    shift. *)
Lemma keep53_digits (X : Q) :
  (0 <= X)%Q ->
  (0 <= roundHalfEven (X / inject_Z (2 ^ shiftOf X)) <= 2 ^ 53)%Z /\
  ((0 < shiftOf X)%Z ->
   (2 ^ 52 <= roundHalfEven (X / inject_Z (2 ^ shiftOf X)))%Z).
Proof.
  intro HX. assert (Hs := shiftOf_nonneg X).
  assert (HP := two_pow_posQ (shiftOf X) Hs).
  split; [split|].
  - apply roundHalfEven_ge. change (inject_Z 0) with 0%Q.
    apply Qle_shift_div_l; [exact HP | lra].
  - apply roundHalfEven_le. apply Qle_shift_div_r; [exact HP|].
    assert (U := shiftOf_upper X).
    rewrite (Z.add_comm (shiftOf X) 53), two_pow_add in U by lia. lra.
  - intro Hpos. apply roundHalfEven_ge.
    apply Qle_shift_div_l; [exact HP|].
    assert (Lw := shiftOf_lower X Hpos).
    rewrite (Z.add_comm (shiftOf X) 52), two_pow_add in Lw by lia. lra.
Qed.

Lemma keep53_nonneg (X : Q) : (0 <= X)%Q -> (0 <= keep53 X)%Z.
Proof.
  intro HX. rewrite keep53_unfold.
  destruct (keep53_digits X HX) as [[H0 _] _].
  assert (P := two_pow_pos (shiftOf X) (shiftOf_nonneg X)). nia.
Qed.

Lemma keep53_mono (X Y : Q) :
  (0 <= X)%Q -> (X <= Y)%Q -> (keep53 X <= keep53 Y)%Z.
Proof.
  intros HX HXY. assert (HY : (0 <= Y)%Q) by lra.
  assert (Hm := shiftOf_mono X Y HXY).
  assert (HsX := shiftOf_nonneg X). assert (HsY := shiftOf_nonneg Y).
  rewrite !keep53_unfold.
  destruct (Z.eq_dec (shiftOf X) (shiftOf Y)) as [E | E].
  - rewrite E. apply Z.mul_le_mono_nonneg_r.
    + assert (P := two_pow_pos (shiftOf Y) HsY). lia.
    + apply roundHalfEven_mono.
      assert (HP := two_pow_posQ (shiftOf Y) HsY).
      unfold Qdiv. apply Qmult_le_compat_r; [exact HXY|].
      apply Qlt_le_weak, Qinv_lt_0_compat, HP.
  - destruct (keep53_digits X HX) as [[_ HXhi] _].
    destruct (keep53_digits Y HY) as [_ HYlo].
    specialize (HYlo ltac:(lia)).
    assert (PX := two_pow_pos (shiftOf X) HsX).
    assert (PY := two_pow_pos (shiftOf Y) HsY).
    apply Z.le_trans with (2 ^ 53 * 2 ^ shiftOf X)%Z; [nia|].
    apply Z.le_trans with (2 ^ 52 * 2 ^ shiftOf Y)%Z; [|nia].
    rewrite <- !Z.pow_add_r by lia.
    apply Z.pow_le_mono_r; lia.
Qed.

(** A number of at most 53 digits followed by zeros is kept as it is. *)
Lemma keep53_grid (m k : Z) :
  (0 <= m <= 2 ^ 53)%Z -> (0 <= k)%Z ->
  keep53 (inject_Z (m * 2 ^ k)) = (m * 2 ^ k)%Z.
Proof.
  intros Hm Hk. rewrite keep53_unfold.
  set (n := (m * 2 ^ k)%Z).
  set (j := shiftOf (inject_Z n)).
  assert (Hj : (0 <= j)%Z) by apply shiftOf_nonneg.
  assert (Pk := two_pow_pos k Hk). assert (Pj := two_pow_pos j Hj).
  assert (Hdiv : exists r, n = (r * 2 ^ j)%Z).
  { destruct (Z_le_gt_dec j k) as [Hjk | Hjk].
    - exists (m * 2 ^ (k - j))%Z. unfold n.
      replace k with ((k - j) + j)%Z at 1 by lia.
      rewrite Z.pow_add_r by lia. ring.
    - assert (Hpos : (0 < j)%Z) by lia.
      assert (Lw := shiftOf_lower (inject_Z n) Hpos). fold j in Lw.
      rewrite <- Zle_Qle in Lw.
      assert (Hn : (n <= 2 ^ (53 + k))%Z).
      { rewrite Z.pow_add_r by lia. unfold n. nia. }
      assert (Hle : (2 ^ (53 + k) <= 2 ^ (j + 52))%Z)
        by (apply Z.pow_le_mono_r; lia).
      exists (2 ^ 52)%Z. rewrite <- Z.pow_add_r by lia.
      replace (52 + j)%Z with (j + 52)%Z by lia. lia. }
  destruct Hdiv as [r Hr].
  assert (E : (inject_Z n / inject_Z (2 ^ j) == inject_Z r)%Q).
  { rewrite Hr, inject_Z_mult. field.
    assert (HP := two_pow_posQ j Hj). lra. }
  rewrite (roundHalfEven_ext _ _ E), roundHalfEven_Z. symmetry. exact Hr.
Qed.

Lemma keep53_fix (X : Q) :
  (0 <= X)%Q -> keep53 (inject_Z (keep53 X)) = keep53 X.
Proof.
  intro HX. rewrite (keep53_unfold X).
  destruct (keep53_digits X HX) as [Hd _].
  apply keep53_grid; [exact Hd | apply shiftOf_nonneg].
Qed.

(** The error of [keep53]: half a unit, or half a unit of the last digit
    kept. *)
Lemma keep53_err (X : Q) :
  (0 <= X)%Q ->
  (Qabs (inject_Z (keep53 X) - X) <= unitRoundoff * X + (1 # 2))%Q.
Proof.
  intro HX. rewrite keep53_unfold.
  set (j := shiftOf X). assert (Hj : (0 <= j)%Z) by apply shiftOf_nonneg.
  assert (HP := two_pow_posQ j Hj).
  set (P := inject_Z (2 ^ j)) in *.
  assert (He := roundHalfEven_err (X / P)).
  set (r := inject_Z (roundHalfEven (X / P))) in *.
  rewrite inject_Z_mult. fold r P.
  assert (Hexp : (r * P - X == (r - X / P) * P)%Q) by (field; lra).
  rewrite Hexp, Qabs_Qmult, (Qabs_pos P) by lra.
  assert (Hhalf : (Qabs (r - X / P) * P <= (1 # 2) * P)%Q).
  { apply Qmult_le_compat_r; [exact He | lra]. }
  assert (Hu : (0 <= unitRoundoff * X)%Q).
  { apply Qmult_le_0_compat; [vm_compute; discriminate | exact HX]. }
  destruct (Z.eq_dec j 0) as [E | E].
  - assert (HP1 : (P == 1)%Q) by (unfold P; rewrite E; reflexivity).
    rewrite HP1 in Hhalf. rewrite HP1. lra.
  - assert (Lw := shiftOf_lower X ltac:(fold j; lia)). fold j in Lw.
    rewrite (Z.add_comm j 52), two_pow_add in Lw by lia. fold P in Lw.
    assert (Hc : (unitRoundoff * (inject_Z (2 ^ 52) * P) == (1 # 2) * P)%Q).
    { assert (Hk : (unitRoundoff * inject_Z (2 ^ 52) == 1 # 2)%Q)
        by (vm_compute; reflexivity).
      rewrite Qmult_assoc, Hk. reflexivity. }
    assert (Hux : (unitRoundoff * (inject_Z (2 ^ 52) * P)
                   <= unitRoundoff * X)%Q).
    { apply Qmult_le_nonneg_l; [vm_compute; discriminate | exact Lw]. }
    lra.
Qed.

(** Rounding to the nearest double. *)

Lemma Qltb_ext_l (p q : Q) : (p == q)%Q -> Qltb p 0 = Qltb q 0.
Proof.
  intro H. destruct (Qltb p 0) eqn:E1, (Qltb q 0) eqn:E2; try reflexivity.
  - apply Qltb_true in E1. apply Qltb_false in E2. lra.
  - apply Qltb_false in E1. apply Qltb_true in E2. lra.
Qed.

Lemma doubleUnits_ext (p q : Q) : (p == q)%Q -> doubleUnits p = doubleUnits q.
Proof.
  intro H. unfold doubleUnits. apply keep53_ext. rewrite H. reflexivity.
Qed.

Lemma doubleUnits_nonneg (q : Q) : (0 <= doubleUnits q)%Z.
Proof.
  unfold doubleUnits. apply keep53_nonneg.
  apply Qmult_le_0_compat; [apply Qabs_nonneg|].
  apply Qlt_le_weak, two_pow_posQ. lia.
Qed.

Lemma doubleUnits_zero (q : Q) : (q == 0)%Q -> doubleUnits q = 0%Z.
Proof.
  intro H. rewrite (doubleUnits_ext q 0 H). vm_compute. reflexivity.
Qed.

Lemma doubleUnits_opp (q : Q) : doubleUnits (- q) = doubleUnits q.
Proof.
  unfold doubleUnits. apply keep53_ext. rewrite Qabs_opp. reflexivity.
Qed.

Lemma doubleUnits_mono (p q : Q) :
  (Qabs p <= Qabs q)%Q -> (doubleUnits p <= doubleUnits q)%Z.
Proof.
  intro H. unfold doubleUnits.
  assert (HS := two_pow_posQ 1074 ltac:(lia)).
  apply keep53_mono.
  - apply Qmult_le_0_compat; [apply Qabs_nonneg | lra].
  - apply Qmult_le_compat_r; [exact H | lra].
Qed.

(** The value of a rounding that is finite. *)
Lemma roundDouble_finite (q q' : Q) :
  roundDouble q = Fin q' ->
  (doubleUnits q < 2 ^ 2098)%Z /\
  ((q < 0)%Q ->
   q' = Qred (- (inject_Z (doubleUnits q) / inject_Z (2 ^ 1074)))) /\
  ((0 <= q)%Q ->
   q' = Qred (inject_Z (doubleUnits q) / inject_Z (2 ^ 1074))).
Proof.
  unfold roundDouble. cbv zeta.
  destruct (2 ^ 2098 <=? doubleUnits q)%Z eqn:E.
  - destruct (Qltb 0 q); discriminate.
  - apply Z.leb_gt in E. intro H. split; [exact E|].
    destruct (Qltb q 0) eqn:Es; injection H as <-.
    + apply Qltb_true in Es. split; [reflexivity | intro; lra].
    + apply Qltb_false in Es. split; [intro; lra | reflexivity].
Qed.

Lemma roundDouble_neg (q : Q) :
  (q < 0)%Q ->
  roundDouble q
  = if (2 ^ 2098 <=? doubleUnits q)%Z then NInf
    else Fin (Qred (- (inject_Z (doubleUnits q) / inject_Z (2 ^ 1074)))).
Proof.
  intro H. unfold roundDouble. cbv zeta.
  assert (E1 : Qltb 0 q = false) by (apply Qltb_false; lra).
  assert (E2 : Qltb q 0 = true) by (apply Qltb_true; exact H).
  rewrite E1, E2. reflexivity.
Qed.

Lemma roundDouble_pos (q : Q) :
  (0 <= q)%Q ->
  roundDouble q
  = if (2 ^ 2098 <=? doubleUnits q)%Z then PInf
    else Fin (Qred (inject_Z (doubleUnits q) / inject_Z (2 ^ 1074))).
Proof.
  intro H. unfold roundDouble. cbv zeta.
  assert (E2 : Qltb q 0 = false) by (apply Qltb_false; exact H).
  rewrite E2.
  destruct (2 ^ 2098 <=? doubleUnits q)%Z eqn:E; [|reflexivity].
  apply Z.leb_le in E.
  destruct (Qltb 0 q) eqn:E1; [reflexivity|].
  apply Qltb_false in E1.
  assert (Hz : (q == 0)%Q) by lra.
  rewrite (doubleUnits_zero q Hz) in E. exfalso. revert E.
  vm_compute. intro E. apply E. reflexivity.
Qed.

Lemma units_value_le (n m : Z) :
  (n <= m)%Z ->
  (inject_Z n / inject_Z (2 ^ 1074) <= inject_Z m / inject_Z (2 ^ 1074))%Q.
Proof.
  intro H. assert (HS := two_pow_posQ 1074 ltac:(lia)).
  unfold Qdiv. apply Qmult_le_compat_r.
  - rewrite <- Zle_Qle. exact H.
  - apply Qlt_le_weak, Qinv_lt_0_compat, HS.
Qed.

Lemma units_value_nonneg (n : Z) :
  (0 <= n)%Z -> (0 <= inject_Z n / inject_Z (2 ^ 1074))%Q.
Proof.
  intro H. assert (HS := two_pow_posQ 1074 ltac:(lia)).
  apply Qle_shift_div_l; [exact HS|]. rewrite Qmult_0_l.
  change 0%Q with (inject_Z 0). rewrite <- Zle_Qle. exact H.
Qed.

Lemma roundDouble_mono (p q : Q) :
  (p <= q)%Q -> ltb (roundDouble q) (roundDouble p) = false.
Proof.
  intro H.
  destruct (Qlt_le_dec q 0) as [Hq | Hq].
  - (* both below zero *)
    assert (Hp : (p < 0)%Q) by lra.
    rewrite (roundDouble_neg q Hq), (roundDouble_neg p Hp).
    assert (Hm : (doubleUnits q <= doubleUnits p)%Z).
    { apply doubleUnits_mono. rewrite !Qabs_neg by lra. lra. }
    destruct (2 ^ 2098 <=? doubleUnits q)%Z eqn:Eq;
      destruct (2 ^ 2098 <=? doubleUnits p)%Z eqn:Ep; try reflexivity.
    + apply Z.leb_le in Eq. apply Z.leb_gt in Ep. lia.
    + cbn [ltb]. apply Qltb_false. rewrite !Qred_correct.
      assert (V := units_value_le _ _ Hm). lra.
  - destruct (Qlt_le_dec p 0) as [Hp | Hp].
    + rewrite (roundDouble_pos q Hq), (roundDouble_neg p Hp).
      destruct (2 ^ 2098 <=? doubleUnits q)%Z eqn:Eq;
        destruct (2 ^ 2098 <=? doubleUnits p)%Z eqn:Ep; try reflexivity.
      cbn [ltb]. apply Qltb_false. rewrite !Qred_correct.
      assert (V1 := units_value_nonneg _ (doubleUnits_nonneg p)).
      assert (V2 := units_value_nonneg _ (doubleUnits_nonneg q)). lra.
    + rewrite (roundDouble_pos q Hq), (roundDouble_pos p Hp).
      assert (Hm : (doubleUnits p <= doubleUnits q)%Z).
      { apply doubleUnits_mono. rewrite !Qabs_pos by lra. lra. }
      destruct (2 ^ 2098 <=? doubleUnits q)%Z eqn:Eq;
        destruct (2 ^ 2098 <=? doubleUnits p)%Z eqn:Ep; try reflexivity.
      * apply Z.leb_gt in Eq. apply Z.leb_le in Ep. lia.
      * cbn [ltb]. apply Qltb_false. rewrite !Qred_correct.
        apply units_value_le, Hm.
Qed.

Lemma roundDouble_ext (p q : Q) : (p == q)%Q -> roundDouble p = roundDouble q.
Proof.
  intro H. unfold roundDouble. cbv zeta.
  rewrite (doubleUnits_ext p q H), (Qltb_ext p q H), (Qltb_ext_l p q H).
  reflexivity.
Qed.

Lemma roundDouble_opp (q : Q) : roundDouble (- q) = neg (roundDouble q).
Proof.
  destruct (Qlt_le_dec q 0) as [Hq | Hq].
  - rewrite (roundDouble_neg q Hq), (roundDouble_pos (- q)) by lra.
    rewrite doubleUnits_opp.
    destruct (2 ^ 2098 <=? doubleUnits q)%Z; [reflexivity|].
    cbn [neg]. rewrite Qred_opp.
    destruct (Qred (inject_Z (doubleUnits q) / inject_Z (2 ^ 1074)))
      as [a b].
    unfold Qopp. cbn [Qnum Qden]. rewrite Z.opp_involutive. reflexivity.
  - destruct (Qlt_le_dec 0 q) as [Hpos | Hz].
    + rewrite (roundDouble_pos q Hq), (roundDouble_neg (- q)) by lra.
      rewrite doubleUnits_opp.
      destruct (2 ^ 2098 <=? doubleUnits q)%Z; [reflexivity|].
      cbn [neg]. rewrite Qred_opp. reflexivity.
    + assert (E : (q == 0)%Q) by lra.
      assert (E' : (- q == 0)%Q) by lra.
      rewrite (roundDouble_ext (- q) 0 E'), (roundDouble_ext q 0 E).
      vm_compute. reflexivity.
Qed.

Lemma roundDouble_idem (q q' : Q) :
  roundDouble q = Fin q' -> roundDouble q' = Fin q'.
Proof.
  intro H. destruct (roundDouble_finite q q' H) as [Hn [Hneg Hpos]].
  assert (HS := two_pow_posQ 1074 ltac:(lia)).
  assert (Hn0 := doubleUnits_nonneg q).
  set (n := doubleUnits q) in *.
  set (v := (inject_Z n / inject_Z (2 ^ 1074))%Q) in *.
  assert (Hv : (0 <= v)%Q) by (apply units_value_nonneg; exact Hn0).
  assert (Hval : (Qabs q' == v)%Q).
  { destruct (Qlt_le_dec q 0) as [Hq | Hq].
    - rewrite (Hneg Hq), Qred_correct, Qabs_opp. apply Qabs_pos, Hv.
    - rewrite (Hpos Hq), Qred_correct. apply Qabs_pos, Hv. }
  assert (Hu : doubleUnits q' = n).
  { unfold doubleUnits.
    rewrite (keep53_ext (Qabs q' * inject_Z (2 ^ 1074)) (inject_Z n)).
    - unfold n, doubleUnits. apply keep53_fix.
      apply Qmult_le_0_compat; [apply Qabs_nonneg | lra].
    - rewrite Hval. unfold v. field. lra. }
  assert (Hlt : (2 ^ 2098 <=? n)%Z = false) by (apply Z.leb_gt; exact Hn).
  destruct (Qlt_le_dec q' 0) as [Hq' | Hq'].
  - rewrite (roundDouble_neg q' Hq'), Hu, Hlt. fold v.
    destruct (Qlt_le_dec q 0) as [Hq | Hq].
    + rewrite (Hneg Hq). reflexivity.
    + exfalso. rewrite (Hpos Hq), Qred_correct in Hq'. lra.
  - rewrite (roundDouble_pos q' Hq'), Hu, Hlt. fold v.
    destruct (Qlt_le_dec q 0) as [Hq | Hq].
    + assert (E := Hneg Hq).
      assert (Hz : (v == 0)%Q).
      { rewrite E, Qred_correct in Hq'. lra. }
      rewrite E. f_equal. apply Qred_complete. rewrite Hz. reflexivity.
    + rewrite (Hpos Hq). reflexivity.
Qed.

Lemma roundDouble_int (z : Z) :
  (Z.abs z <= 2 ^ 53)%Z -> roundDouble (inject_Z z) = Fin (inject_Z z).
Proof.
  intro Hz. assert (HS := two_pow_posQ 1074 ltac:(lia)).
  assert (Hu : doubleUnits (inject_Z z) = (Z.abs z * 2 ^ 1074)%Z).
  { unfold doubleUnits.
    rewrite (keep53_ext _ (inject_Z (Z.abs z * 2 ^ 1074))).
    - apply keep53_grid; lia.
    - rewrite inject_Z_mult. reflexivity. }
  assert (Hlt : (2 ^ 2098 <=? Z.abs z * 2 ^ 1074)%Z = false).
  { apply Z.leb_gt.
    apply Z.le_lt_trans with (2 ^ 53 * 2 ^ 1074)%Z.
    - apply Z.mul_le_mono_nonneg_r; [apply Z.lt_le_incl, two_pow_pos; lia|].
      exact Hz.
    - vm_compute. reflexivity. }
  assert (Hv : (inject_Z (Z.abs z * 2 ^ 1074) / inject_Z (2 ^ 1074)
                == inject_Z (Z.abs z))%Q).
  { rewrite inject_Z_mult. field. lra. }
  destruct (Z_lt_le_dec z 0) as [Hneg | Hpos].
  - rewrite roundDouble_neg, Hu, Hlt
      by (change 0%Q with (inject_Z 0); rewrite <- Zlt_Qlt; exact Hneg).
    f_equal. rewrite <- (Qred_inject_Z z). apply Qred_complete.
    rewrite Hv. rewrite <- inject_Z_opp. replace (- Z.abs z)%Z with z by lia.
    reflexivity.
  - rewrite roundDouble_pos, Hu, Hlt
      by (change 0%Q with (inject_Z 0); rewrite <- Zle_Qle; exact Hpos).
    f_equal. rewrite <- (Qred_inject_Z z). apply Qred_complete.
    rewrite Hv. replace (Z.abs z) with z by lia. reflexivity.
Qed.

Lemma roundDouble_err (q q' : Q) :
  roundDouble q = Fin q' ->
  (Qabs (q' - q) <= unitRoundoff * Qabs q + underflowUnit)%Q.
Proof.
  intro H. destruct (roundDouble_finite q q' H) as [_ [Hneg Hpos]].
  assert (HS := two_pow_posQ 1074 ltac:(lia)).
  set (S := inject_Z (2 ^ 1074)) in *.
  assert (Ha : (0 <= Qabs q)%Q) by apply Qabs_nonneg.
  assert (HX : (0 <= Qabs q * S)%Q) by (apply Qmult_le_0_compat; lra).
  assert (He := keep53_err (Qabs q * S) HX).
  change (keep53 (Qabs q * S)) with (doubleUnits q) in He.
  set (n := inject_Z (doubleUnits q)) in *.
  apply Qabs_bounds in He. destruct He as [He1 He2].
  set (t := (/ S)%Q).
  assert (Ht : (0 < t)%Q) by (apply Qinv_lt_0_compat; exact HS).
  assert (Eeta : ((1 # 2) * t == underflowUnit)%Q)
    by (vm_compute; reflexivity).
  assert (E1 : ((n - Qabs q * S) * t == n / S - Qabs q)%Q)
    by (unfold t; field; lra).
  assert (E2 : ((unitRoundoff * (Qabs q * S) + (1 # 2)) * t
                == unitRoundoff * Qabs q + (1 # 2) * t)%Q)
    by (unfold t; field; lra).
  assert (U1 : ((n - Qabs q * S) * t
                <= (unitRoundoff * (Qabs q * S) + (1 # 2)) * t)%Q)
    by (apply Qmult_le_compat_r; lra).
  assert (U2 : (- (unitRoundoff * (Qabs q * S) + (1 # 2)) * t
                <= (n - Qabs q * S) * t)%Q)
    by (apply Qmult_le_compat_r; lra).
  assert (E3 : (- (unitRoundoff * (Qabs q * S) + (1 # 2)) * t
                == - ((unitRoundoff * (Qabs q * S) + (1 # 2)) * t))%Q)
    by ring.
  assert (Hv : (Qabs (n / S - Qabs q)
                <= unitRoundoff * Qabs q + underflowUnit)%Q).
  { apply Qabs_bounds. split; lra. }
  destruct (Qlt_le_dec q 0) as [Hq | Hq].
  - rewrite (Hneg Hq), Qred_correct. fold n.
    rewrite (Qabs_neg q) in Hv |- * by lra.
    assert (Ex : (- (n / S) - q == - (n / S - - q))%Q) by ring.
    rewrite Ex, Qabs_opp. exact Hv.
  - rewrite (Hpos Hq), Qred_correct. fold n.
    rewrite (Qabs_pos q) in Hv |- * by lra. exact Hv.
Qed.

Lemma roundDouble_range (q : Q) :
  (Qabs q <= maxDouble)%Q -> finite (roundDouble q).
Proof.
  intro H.
  assert (Hn : (doubleUnits q < 2 ^ 2098)%Z).
  { assert (Hm : (doubleUnits q <= doubleUnits maxDouble)%Z).
    { apply doubleUnits_mono. rewrite (Qabs_pos maxDouble); [exact H|].
      vm_compute. discriminate. }
    assert (E : doubleUnits maxDouble = ((2 ^ 53 - 1) * 2 ^ 2045)%Z).
    { unfold doubleUnits.
      rewrite (keep53_ext _ (inject_Z ((2 ^ 53 - 1) * 2 ^ 2045))).
      - apply keep53_grid; [vm_compute; split; discriminate | lia].
      - vm_compute. reflexivity. }
    rewrite E in Hm.
    assert (Hc : ((2 ^ 53 - 1) * 2 ^ 2045 < 2 ^ 2098)%Z)
      by (vm_compute; reflexivity).
    lia. }
  apply Z.leb_gt in Hn. unfold roundDouble. cbv zeta. rewrite Hn.
  destruct (Qltb q 0); eexists; reflexivity.
Qed.

Lemma roundDouble_spec : RoundSpec roundDouble.
Proof.
  constructor.
  - exact roundDouble_ext.
  - intros q. unfold roundDouble. cbv zeta.
    destruct (2 ^ 2098 <=? doubleUnits q)%Z, (Qltb 0 q), (Qltb q 0);
      discriminate.
  - exact roundDouble_idem.
  - exact roundDouble_int.
  - exact roundDouble_opp.
  - exact roundDouble_mono.
  - exact roundDouble_err.
  - exact roundDouble_range.
Qed.

(* ------------------------------------------------------------------ *)
(** ** Resampling on doubles stays where the polyline is *)

Lemma scan_spec (Ltail : list num) (t : num) (j : nat) :
  (forall m, (j <= m < scan Ltail t j)%nat ->
             ltb (nth (m - j) Ltail NaN) t = true) /\
  ((scan Ltail t j < j + length Ltail)%nat ->
   ltb (nth (scan Ltail t j - j) Ltail NaN) t = false).
Proof.
  revert j. induction Ltail as [|l Ltail IH]; intro j; cbn [scan length].
  - split; [intros m Hm; lia | intro H; lia].
  - destruct (ltb l t) eqn:E.
    + destruct (IH (S j)) as [IH1 IH2].
      assert (Hge := scan_ge Ltail t (S j)). split.
      * intros m Hm. destruct (Nat.eq_dec m j) as [-> | Hne].
        -- rewrite Nat.sub_diag. exact E.
        -- replace (m - j)%nat with (S (m - S j)) by lia. cbn [nth].
           apply IH1. lia.
      * intro H.
        replace (scan Ltail t (S j) - j)%nat
          with (S (scan Ltail t (S j) - S j)) by lia.
        cbn [nth]. apply IH2. lia.
    + split; [intros m Hm; lia|]. intros _. rewrite Nat.sub_diag. exact E.
Qed.

Lemma mapM_all {A B : Type} (P : B -> Prop) (f : A -> result B)
    (l : list A) (vs : list B) :
  (forall e v, In e l -> f e = Ok v -> P v) ->
  mapM f l = Ok vs -> Forall P vs.
Proof.
  intros Hf H. apply mapM_Forall2 in H.
  induction H as [|e v l vs Hev _ IH]; constructor.
  - apply (Hf e v); [left; reflexivity | exact Hev].
  - apply IH. intros e' v' Hin. apply Hf. right. exact Hin.
Qed.

Lemma sampleBound_ge (M : Q) : (0 <= M)%Q -> (M <= sampleBound M)%Q.
Proof.
  intro HM. unfold sampleBound.
  destruct unitRoundoff_range as [Hu0 _].
  destruct underflowUnit_range as [He0 _].
  assert (H : (0 <= unitRoundoff * M)%Q)
    by (apply Qmult_le_0_compat; assumption).
  lra.
Qed.

Section SamplingOnDoubles.

Variable rnd : Q -> num.
Hypothesis rnd_ok : RoundSpec rnd.

(** Rounding keeps a result that is between two doubles between them. *)
Lemma rnd_between (lo q hi : Q) :
  rnd lo = Fin lo -> rnd hi = Fin hi -> (lo <= q)%Q -> (q <= hi)%Q ->
  exists r, rnd q = Fin r /\ (lo <= r)%Q /\ (r <= hi)%Q.
Proof.
  intros Hlo Hhi H1 H2.
  assert (A := rnd_mono rnd rnd_ok lo q H1). rewrite Hlo in A.
  assert (B := rnd_mono rnd rnd_ok q hi H2). rewrite Hhi in B.
  destruct (rnd_cases rnd rnd_ok q) as [E | [E | [r E]]]; rewrite E in A, B.
  - discriminate B.
  - discriminate A.
  - exists r. split; [exact E|]. cbn [ltb] in A, B.
    apply Qltb_false in A, B. split; assumption.
Qed.

(** The double next to [1e-9] is above zero. *)
Lemma rnd_tiny : exists e, rnd (1 # 1000000000) = Fin e /\ (0 < e)%Q.
Proof.
  destruct (rnd_range rnd rnd_ok (1 # 1000000000)) as [e E].
  { vm_compute. discriminate. }
  exists e. split; [exact E|].
  assert (H := rnd_err rnd rnd_ok _ _ E). apply Qabs_bounds in H.
  assert (K : (unitRoundoff * Qabs (1 # 1000000000) + underflowUnit
               < 1 # 1000000000)%Q) by (vm_compute; reflexivity).
  lra.
Qed.

(** A [lerp] with its amount in [0, 1] stays within the rounding of its two
    ends. *)
Lemma lerp_between (M p q w : Q) :
  (Qabs p <= M)%Q -> (Qabs q <= M)%Q -> (0 <= w)%Q -> (w <= 1)%Q ->
  (4 * M + 1 <= maxDouble)%Q ->
  doubleWithin rnd (sampleBound M) (Rounded.lerp rnd (Fin p) (Fin q) (Fin w)).
Proof.
  intros HpM HqM Hw0 Hw1 Hbig.
  destruct unitRoundoff_range as [Hu0 Hu1].
  destruct underflowUnit_range as [He0 He1].
  assert (Hhalf : (2 * unitRoundoff <= 1)%Q) by (vm_compute; discriminate).
  assert (HM : (0 <= M)%Q) by (assert (H := Qabs_nonneg p); lra).
  assert (Hqp := Qabs_sub_le p q M HpM HqM).
  unfold Rounded.lerp, Rounded.add, Rounded.mul, Rounded.sub.
  cbn [sub rounded].
  destruct (rnd_range rnd rnd_ok (q - p)) as [d Ed]; [lra|].
  assert (Hd := rnd_err rnd rnd_ok _ _ Ed).
  assert (Hdd := rnd_idem rnd rnd_ok _ _ Ed).
  rewrite Ed. cbn [mul rounded].
  set (u := unitRoundoff) in *. set (eta := underflowUnit) in *.
  assert (HuM : (0 <= u * M)%Q) by (apply Qmult_le_0_compat; assumption).
  assert (HuM1 : (u * M <= M)%Q).
  { assert (H := Qmult_le_compat_r u 1 M Hu1 HM). lra. }
  assert (Hud : (u * Qabs (q - p) <= u * (2 * M))%Q).
  { apply Qmult_le_nonneg_l; assumption. }
  assert (Hderr : (Qabs (d - (q - p)) <= 2 * (u * M) + eta)%Q) by lra.
  apply Qabs_bounds in Hderr. apply Qabs_bounds in HpM, HqM.
  set (K := (M + 2 * (u * M) + eta)%Q).
  assert (Hpi : exists pi, rnd (w * d) = Fin pi /\
                           (- K <= pi + p)%Q /\ (pi + p <= K)%Q).
  { destruct (Qlt_le_dec d 0) as [Hneg | Hpos].
    - destruct (rnd_between d (w * d) 0 Hdd (rnd_zero rnd rnd_ok))
        as [pi [E [H1 H2]]]; [nra | nra |].
      exists pi. split; [exact E|]. unfold K. split; lra.
    - destruct (rnd_between 0 (w * d) d (rnd_zero rnd rnd_ok) Hdd)
        as [pi [E [H1 H2]]]; [nra | nra |].
      exists pi. split; [exact E|]. unfold K. split; lra. }
  destruct Hpi as [pi [-> [Hlo Hhi]]]. cbn [add rounded].
  assert (HK : (Qabs (pi + p) <= K)%Q) by (apply Qabs_bounds; split; lra).
  assert (HK0 : (0 <= K)%Q) by (unfold K; lra).
  destruct (rnd_range rnd rnd_ok (pi + p)) as [s Es]; [unfold K in HK; lra|].
  assert (Hs := rnd_err rnd rnd_ok _ _ Es). fold u eta in Hs.
  assert (Hss := rnd_idem rnd rnd_ok _ _ Es).
  exists s. split; [exact Es|]. split; [exact Hss|].
  assert (HuK : (u * Qabs (pi + p) <= u * K)%Q).
  { apply Qmult_le_nonneg_l; assumption. }
  assert (Huu : (u * (u * M) <= (1 # 2) * (u * M))%Q).
  { assert (H : (u * (u * M) == (u * M) * u)%Q) by ring. rewrite H.
    assert (H' : ((1 # 2) * (u * M) == (u * M) * (1 # 2))%Q) by ring.
    rewrite H'. apply Qmult_le_nonneg_l; [exact HuM | lra]. }
  assert (Hue : (u * eta <= eta)%Q).
  { assert (H : (u * eta == eta * u)%Q) by ring. rewrite H.
    assert (H' : (eta == eta * 1)%Q) by ring. rewrite H' at 2.
    apply Qmult_le_nonneg_l; [exact He0 | exact Hu1]. }
  assert (HuKx : (u * K == u * M + 2 * (u * (u * M)) + u * eta)%Q)
    by (unfold K; ring).
  apply Qabs_bounds in Hs. apply Qabs_bounds.
  unfold sampleBound. fold u eta.
  assert (Hexp : ((1 + 4 * u) * M + 3 * eta == M + 4 * (u * M) + 3 * eta)%Q)
    by ring.
  assert (HKx : (K == M + 2 * (u * M) + eta)%Q) by (unfold K; ring).
  rewrite Hexp. split; lra.
Qed.

Section Table.

Variable dist : num -> num -> num -> num -> num.
Hypothesis dist_nn : forall x1 y1 x2 y2, notNegative (dist x1 y1 x2 y2).

Lemma rounded_add_finite (u v : num) :
  finite (Rounded.add rnd u v) -> finite u /\ finite v.
Proof.
  intros [q H]. unfold Rounded.add in H.
  destruct u as [| |p|], v as [| |r|]; try discriminate H.
  split; eexists; reflexivity.
Qed.

(** The last entry of the table is the length of the polyline. *)
Lemma table_last_length (acc : num) (p : Point) (rest : list Point) :
  last (acc :: Rounded.cumulative rnd dist acc p rest) NaN
  = Rounded.lengthFrom rnd dist acc p rest.
Proof.
  revert acc p. induction rest as [|q rest IH]; intros acc p.
  - reflexivity.
  - change (last (acc :: Rounded.cumulative rnd dist acc p (q :: rest)) NaN)
      with (last (Rounded.add rnd acc (distPts dist p q)
                  :: Rounded.cumulative rnd dist
                       (Rounded.add rnd acc (distPts dist p q)) q rest) NaN).
    rewrite IH. reflexivity.
Qed.

(** A table that ends finite is finite all along. *)
Lemma table_finite (acc : num) (p : Point) (rest : list Point) :
  finite (last (acc :: Rounded.cumulative rnd dist acc p rest) NaN) ->
  finite acc /\ Forall finite (Rounded.cumulative rnd dist acc p rest).
Proof.
  revert acc p. induction rest as [|q rest IH]; intros acc p H.
  - split; [exact H | constructor].
  - change (last (acc :: Rounded.cumulative rnd dist acc p (q :: rest)) NaN)
      with (last (Rounded.add rnd acc (distPts dist p q)
                  :: Rounded.cumulative rnd dist
                       (Rounded.add rnd acc (distPts dist p q)) q rest) NaN)
      in H.
    destruct (IH _ _ H) as [Hl Hrest].
    split; [exact (proj1 (rounded_add_finite _ _ Hl))|].
    cbn [Rounded.cumulative]. constructor; assumption.
Qed.

(** Its entries are doubles and none is below zero. *)
Lemma table_doubles (acc : num) (p : Point) (rest : list Point) :
  notNegative acc ->
  Forall (fun l => notNegative l /\ forall T, l = Fin T -> rnd T = Fin T)
         (Rounded.cumulative rnd dist acc p rest).
Proof.
  revert acc p. induction rest as [|q rest IH]; intros acc p Hacc.
  - constructor.
  - cbn [Rounded.cumulative]. constructor.
    + split; [apply (add_notNegative rnd rnd_ok); [exact Hacc | apply dist_nn]|].
      intros T E. exact (rounded_double rnd rnd_ok _ T E).
    + apply IH. apply (add_notNegative rnd rnd_ok); [exact Hacc | apply dist_nn].
Qed.

Lemma table_entries (p0 : Point) (rest : list Point) :
  finite (Rounded.lengthOf rnd dist (p0 :: rest)) ->
  Forall (lengthDouble rnd)
         (ofZ 0 :: Rounded.cumulative rnd dist (ofZ 0) p0 rest).
Proof.
  intro Hfin. unfold Rounded.lengthOf in Hfin.
  rewrite <- table_last_length in Hfin.
  destruct (table_finite _ _ _ Hfin) as [_ Hall].
  assert (Hd := table_doubles (ofZ 0) p0 rest notNegative_zero).
  constructor.
  - exists 0%Q. split; [reflexivity|].
    split; [exact (rnd_zero rnd rnd_ok) | lra].
  - rewrite Forall_forall in Hall, Hd. apply Forall_forall. intros l Hl.
    destruct (Hall l Hl) as [T ->]. destruct (Hd _ Hl) as [Hnn Hrep].
    exists T. split; [reflexivity|]. split; [exact (Hrep T eq_refl)|].
    unfold notNegative in Hnn. cbn [ltb ofZ] in Hnn.
    apply Qltb_false in Hnn. unfold inject_Z in Hnn. exact Hnn.
Qed.

(** One sample lies between two points of the polyline. *)
Lemma samplePoint_within (M : Q) (p0 : Point) (rest : list Point) (N : Z)
    (k : nat) (p : Point) :
  rest <> [] -> (2 <= N)%Z -> (Z.of_nat k < N)%Z ->
  (4 * M + 1 <= maxDouble)%Q ->
  (forall c, In c (p0 :: rest) ->
     exists cx cy, c = {| x := Fin cx; y := Fin cy |} /\
                   (Qabs cx <= M)%Q /\ (Qabs cy <= M)%Q) ->
  finite (Rounded.lengthOf rnd dist (p0 :: rest)) ->
  let L := ofZ 0 :: Rounded.cumulative rnd dist (ofZ 0) p0 rest in
  Rounded.samplePoint rnd (p0 :: rest) L (last L NaN) N k = Ok p ->
  pointWithin rnd (sampleBound M) p.
Proof.
  intros Hne HN Hk Hbig Hpts Hfin L Hs.
  assert (HL : Forall (lengthDouble rnd) L) by (apply table_entries, Hfin).
  assert (HLne : L <> []) by discriminate.
  destruct (last_Forall (lengthDouble rnd) L NaN HLne HL)
    as [T [ET [HT HT0]]].
  assert (Hlen : length (Rounded.cumulative rnd dist (ofZ 0) p0 rest)
                 = length rest) by apply cumulative_length_rounded.
  assert (Hcne : Rounded.cumulative rnd dist (ofZ 0) p0 rest <> []).
  { intro E. rewrite E in Hlen. destruct rest; [contradiction | discriminate]. }
  assert (Hlast : last L NaN
                  = last (Rounded.cumulative rnd dist (ofZ 0) p0 rest) NaN).
  { unfold L. destruct (Rounded.cumulative rnd dist (ofZ 0) p0 rest);
      [contradiction | reflexivity]. }
  destruct (sample_fraction rnd rnd_ok N k HN ltac:(lia)) as [r [Er [Hr0 Hr1]]].
  unfold Rounded.samplePoint in Hs. cbv zeta in Hs. rewrite Er, ET in Hs.
  unfold Rounded.mul in Hs. cbn [mul rounded] in Hs.
  destruct (rnd_between 0 (r * T) T (rnd_zero rnd rnd_ok) HT)
    as [tau [Etau [Htau0 HtauT]]]; [nra | nra |].
  rewrite Etau in Hs.
  assert (Htl : tl L = Rounded.cumulative rnd dist (ofZ 0) p0 rest)
    by reflexivity.
  rewrite Htl in Hs.
  set (C := Rounded.cumulative rnd dist (ofZ 0) p0 rest) in *.
  assert (Hj := scan_bound C (Fin tau) 1 Hcne).
  rewrite <- Hlast, ET in Hj. cbn [ltb] in Hj.
  specialize (Hj (proj2 (Qltb_false T tau) HtauT)).
  assert (Hj1 := scan_ge C (Fin tau) 1).
  destruct (scan_spec C (Fin tau) 1) as [Hbelow Hstop].
  specialize (Hstop Hj).
  set (j := scan C (Fin tau) 1) in *.
  replace (Nat.max 1 j) with j in Hs by lia.
  assert (HLlen : length L = S (length rest)).
  { unfold L. cbn [length]. fold C. rewrite Hlen. reflexivity. }
  rewrite Forall_forall in HL.
  destruct (HL (nth (j - 1) L NaN)) as [a0 [E0 [D0 P0]]].
  { apply nth_In. lia. }
  destruct (HL (nth j L NaN)) as [a1 [E1 [D1 P1]]].
  { apply nth_In. lia. }
  assert (Hnth1 : nth j L NaN = nth (j - 1) C NaN).
  { unfold L. fold C. destruct j as [|j']; [lia|].
    cbn [nth]. replace (S j' - 1)%nat with j' by lia. reflexivity. }
  assert (Hup : (tau <= a1)%Q).
  { rewrite <- Hnth1, E1 in Hstop. cbn [ltb] in Hstop.
    apply Qltb_false in Hstop. exact Hstop. }
  assert (Hdown : (a0 <= tau)%Q).
  { destruct (Nat.eq_dec j 1) as [Ej | Ej].
    - rewrite Ej in E0. unfold L in E0. cbn [nth Nat.sub] in E0.
      injection E0 as E0. unfold inject_Z in E0. rewrite <- E0. exact Htau0.
    - assert (Hb := Hbelow (j - 1)%nat ltac:(lia)).
      assert (Hn : nth (j - 1) L NaN = nth (j - 1 - 1) C NaN).
      { unfold L. fold C. destruct (j - 1)%nat as [|j'] eqn:Ej'; [lia|].
        cbn [nth]. replace (S j' - 1)%nat with j' by lia. reflexivity. }
      rewrite <- Hn, E0 in Hb. cbn [ltb] in Hb. apply Qltb_true in Hb.
      lra. }
  rewrite E0, E1 in Hs.
  unfold Rounded.sub in Hs. cbn [sub rounded] in Hs.
  destruct (rnd_between 0 (a1 - a0) a1 (rnd_zero rnd rnd_ok) D1)
    as [b [Eb [Hb0 Hb1]]]; [lra | lra |].
  destruct (rnd_between 0 (tau - a0) a1 (rnd_zero rnd rnd_ok) D1)
    as [a [Ea [Ha0 Ha1]]]; [lra | lra |].
  assert (Hab : (a <= b)%Q).
  { assert (Hm := rnd_mono rnd rnd_ok (tau - a0) (a1 - a0) ltac:(lra)).
    rewrite Ea, Eb in Hm. cbn [ltb] in Hm. apply Qltb_false in Hm. exact Hm. }
  rewrite Ea, Eb in Hs.
  assert (Hu : exists w,
             Rounded.div rnd (Fin a)
                         (orElse (Fin b) (rnd (1 # 1000000000))) = Fin w /\
             (0 <= w)%Q /\ (w <= 1)%Q).
  { unfold orElse, truthy. destruct (Qeq_bool b 0) eqn:Eb0; cbn [negb].
    - apply Qeq_bool_iff in Eb0.
      destruct rnd_tiny as [e [Ee He]]. rewrite Ee.
      unfold Rounded.div. cbn [div].
      assert (Hne0 : Qeq_bool e 0 = false) by (apply Qeq_bool_false; lra).
      rewrite Hne0. cbn [rounded].
      assert (Hz : (a / e == 0)%Q).
      { assert (Haz : (a == 0)%Q) by lra. rewrite Haz.
        unfold Qdiv. ring. }
      rewrite (rnd_ext rnd rnd_ok _ _ Hz), (rnd_zero rnd rnd_ok).
      exists 0%Q. split; [reflexivity | split; lra].
    - assert (Hbne : ~ (b == 0)%Q) by (apply Qeq_bool_false; exact Eb0).
      assert (Hbpos : (0 < b)%Q) by lra.
      unfold Rounded.div. cbn [div]. rewrite Eb0. cbn [rounded].
      destruct (rnd_between 0 (a / b) 1 (rnd_zero rnd rnd_ok)
                  (rnd_one rnd rnd_ok)) as [w [Ew [Hw0 Hw1]]].
      + apply Qle_shift_div_l; [exact Hbpos | lra].
      + apply Qle_shift_div_r; [exact Hbpos | lra].
      + exists w. split; [exact Ew | split; assumption]. }
  destruct Hu as [w [Ew [Hw0 Hw1]]]. rewrite Ew in Hs.
  destruct (@index_ok _ (p0 :: rest) (j - 1)) as [q0 [I0 N0]];
    [cbn [length]; lia|].
  destruct (@index_ok _ (p0 :: rest) j) as [q1 [I1 N1]];
    [cbn [length]; lia|].
  rewrite I0, I1 in Hs. cbn [bind] in Hs. injection Hs as <-.
  apply nth_error_In in N0, N1.
  destruct (Hpts q0 N0) as [x0 [y0 [-> [Bx0 By0]]]].
  destruct (Hpts q1 N1) as [x1 [y1 [-> [Bx1 By1]]]].
  split; cbn [x y]; apply lerp_between; assumption.
Qed.

(** The resampled positions of a polyline of finite length, between points
    of magnitude at most [M], are doubles of magnitude at most
    [sampleBound M]. *)
Lemma resample_within (M : Q) (pts out : list Point) (N : Z) :
  (2 <= length pts)%nat -> (4 * M + 1 <= maxDouble)%Q ->
  (forall c, In c pts ->
     exists cx cy, c = {| x := Fin cx; y := Fin cy |} /\
                   (Qabs cx <= M)%Q /\ (Qabs cy <= M)%Q) ->
  (forall c, In c pts -> pointWithin rnd (sampleBound M) c) ->
  finite (Rounded.lengthOf rnd dist pts) ->
  Rounded.resamplePointsLocal rnd dist pts N = Ok out ->
  Forall (pointWithin rnd (sampleBound M)) out.
Proof.
  intros Hlen Hbig Hpts Hdbl Hfin Hout.
  destruct pts as [|p0 [|p1 rest]]; try (simpl in Hlen; lia).
  unfold Rounded.resamplePointsLocal in Hout.
  set (L := ofZ 0 :: Rounded.cumulative rnd dist (ofZ 0) p0 (p1 :: rest)) in *.
  destruct (seq_num (last L NaN) (ofZ 0)).
  - injection Hout as <-. apply Forall_forall. intros c Hc.
    apply repeat_spec in Hc. subst c. apply Hdbl. left. reflexivity.
  - apply (mapM_all _ _ _ _ (fun k p Hk Hp =>
             samplePoint_within M p0 (p1 :: rest) (Z.max 2 N) k p
               ltac:(discriminate) ltac:(lia)
               (proj1 (upto_In (Z.max 2 N) k) Hk) Hbig Hpts Hfin Hp) Hout).
Qed.

End Table.

End SamplingOnDoubles.

(* ------------------------------------------------------------------ *)
(** ** The two ends of a tween, on doubles *)

(** C6, as amended.  On doubles, for strokes of two points or more and of
    finite length, whose coordinates and attributes are doubles of
    magnitude at most [M], the attributes present, [4 * sampleBound M + 1]
    being no more than the largest double: [tweenTwoStrokes(a, b, 0, N)] has
    the attributes of [a] and the first [max(0, N)] resampled positions of
    [a], exactly; [tweenTwoStrokes(a, b, 1, N)] has the attributes of [b]
    and the first [max(0, N)] resampled positions of [b] within
    [tweenTolerance M]; for [N >= 2] these are all the resampled
    positions. *)
Theorem tween_boundaries (rnd : Q -> num)
    (dist : num -> num -> num -> num -> num) (a b : Stroke) (N : Z) (M : Q) :
  RoundSpec rnd ->
  (forall x1 y1 x2 y2, notNegative (dist x1 y1 x2 y2)) ->
  (2 <= length (points a))%nat -> (2 <= length (points b))%nat ->
  attrsWithin rnd M a -> attrsWithin rnd M b ->
  Forall (pointWithin rnd M) (points a) ->
  Forall (pointWithin rnd M) (points b) ->
  finite (Rounded.lengthOf rnd dist (points a)) ->
  finite (Rounded.lengthOf rnd dist (points b)) ->
  (4 * sampleBound M + 1 <= maxDouble)%Q ->
  exists pa pb s0 s1,
    Rounded.resamplePointsLocal rnd dist (points a) N = Ok pa /\
    Rounded.resamplePointsLocal rnd dist (points b) N = Ok pb /\
    Rounded.tweenTwoStrokes rnd dist a b (ofZ 0) N = Ok s0 /\
    Rounded.tweenTwoStrokes rnd dist a b (ofZ 1) N = Ok s1 /\
    sameAttrs s0 a /\ closeAttrs (tweenTolerance M) s1 b /\
    Forall2 pointEq (points s0) (firstn (Z.to_nat N) pa) /\
    Forall2 (closePoint (tweenTolerance M)) (points s1)
            (firstn (Z.to_nat N) pb) /\
    ((2 <= N)%Z ->
     Forall2 pointEq (points s0) pa /\
     Forall2 (closePoint (tweenTolerance M)) (points s1) pb).
Proof.
  intros Hr Hnn Ha Hb HAa HAb HPa HPb HLa HLb Hbig.
  assert (HM : (0 <= M)%Q).
  { destruct HAa as [[h [_ [_ Hh]]] _]. assert (H := Qabs_nonneg h). lra. }
  assert (HMs := sampleBound_ge M HM).
  assert (Hbig0 : (4 * M + 1 <= maxDouble)%Q) by lra.
  assert (Hup : forall u, doubleWithin rnd M u ->
                          doubleWithin rnd (sampleBound M) u).
  { intros u Hu. apply (doubleWithin_le rnd M); assumption. }
  destruct HAa as [Ah [As [Ab [[tha [Etha [Dtha Ttha]]] [oa [Eoa Doa]]]]]].
  destruct HAb as [Bh [Bs [Bb [[thb [Ethb [Dthb Tthb]]] [ob [Eob Dob]]]]]].
  apply Hup in Ah, As, Ab, Dtha, Doa, Bh, Bs, Bb, Dthb, Dob.
  destruct (tween_rounded_returns rnd Hr dist Hnn a b (ofZ 0) N Ha Hb)
    as [pa [pb [s0 [Epa [Epb [Lpa [Lpb [Es0 [Ep0 [_ [_ [Eo0 [Et0
        [Eh0 [Es0' [Eb0 Ea0]]]]]]]]]]]]]]]].
  destruct (tween_rounded_returns rnd Hr dist Hnn a b (ofZ 1) N Ha Hb)
    as [pa' [pb' [s1 [Epa' [Epb' [_ [_ [Es1 [Ep1 [_ [_ [Eo1 [Et1
        [Eh1 [Es1' [Eb1 Ea1]]]]]]]]]]]]]]]].
  rewrite Epa in Epa'. injection Epa' as <-.
  rewrite Epb in Epb'. injection Epb' as <-.
  assert (Hweak : forall pts, Forall (pointWithin rnd M) pts ->
            forall c, In c pts ->
              exists cx cy, c = {| x := Fin cx; y := Fin cy |} /\
                            (Qabs cx <= M)%Q /\ (Qabs cy <= M)%Q).
  { intros pts HP c Hc. rewrite Forall_forall in HP.
    destruct (HP c Hc) as [[cx [Ex [_ Bx]]] [cy [Ey [_ By]]]].
    exists cx, cy. destruct c as [u v]. cbn [x y] in Ex, Ey. subst u v.
    split; [reflexivity | split; assumption]. }
  assert (Hlift : forall pts, Forall (pointWithin rnd M) pts ->
            forall c, In c pts -> pointWithin rnd (sampleBound M) c).
  { intros pts HP c Hc. rewrite Forall_forall in HP.
    destruct (HP c Hc) as [Hx Hy]. split; apply Hup; assumption. }
  assert (Wa := resample_within rnd Hr dist Hnn M (points a) pa N Ha Hbig0
                  (Hweak _ HPa) (Hlift _ HPa) HLa Epa).
  assert (Wb := resample_within rnd Hr dist Hnn M (points b) pb N Hb Hbig0
                  (Hweak _ HPb) (Hlift _ HPb) HLb Epb).
  exists pa, pb, s0, s1.
  split; [exact Epa|]. split; [exact Epb|].
  split; [exact Es0|]. split; [exact Es1|]. split; [|split].
  - unfold sameAttrs. rewrite Eh0, Es0', Eb0, Ea0, Et0, Eo0, Eoa, Eob, Etha, Ethb.
    simpl nullish. simpl falsyOr. unfold orElse. rewrite Ttha, Tthb.
    simpl optEq.
    repeat split; apply (lerp_double_start rnd Hr (sampleBound M)); assumption.
  - unfold closeAttrs, tweenTolerance.
    rewrite Eh1, Es1', Eb1, Ea1, Et1, Eo1, Eoa, Eob, Etha, Ethb.
    simpl nullish. simpl falsyOr. unfold orElse. rewrite Ttha, Tthb.
    simpl closeOpt.
    repeat split; apply (lerp_double_stop rnd Hr (sampleBound M)); assumption.
  - rewrite Forall_forall in Wa, Wb.
    assert (Hlen : length (firstn (Z.to_nat N) pa)
                   = length (firstn (Z.to_nat N) pb)).
    { rewrite !length_firstn, Lpa, Lpb. reflexivity. }
    assert (H0 : Forall2 pointEq (points s0) (firstn (Z.to_nat N) pa)).
    { rewrite Ep0. apply map_combine_Forall2_l; [exact Hlen|].
      intros qa qb Hqa Hqb. apply In_firstn in Hqa, Hqb.
      destruct (Wa qa Hqa) as [Wax Way]. destruct (Wb qb Hqb) as [Wbx Wby].
      split; cbn [x y fst snd];
        apply (lerp_double_start rnd Hr (sampleBound M)); assumption. }
    assert (H1 : Forall2 (closePoint (tweenTolerance M)) (points s1)
                         (firstn (Z.to_nat N) pb)).
    { rewrite Ep1. apply map_combine_Forall2_r; [exact Hlen|].
      intros qa qb Hqa Hqb. apply In_firstn in Hqa, Hqb.
      destruct (Wa qa Hqa) as [Wax Way]. destruct (Wb qb Hqb) as [Wbx Wby].
      split; cbn [x y fst snd]; unfold tweenTolerance;
        apply (lerp_double_stop rnd Hr (sampleBound M)); assumption. }
    split; [exact H0|]. split; [exact H1|].
    intro HN. rewrite (firstn_all2 pa) in H0 by lia.
    rewrite (firstn_all2 pb) in H1 by lia. split; assumption.
Qed.

Lemma doubleWithin_int (rnd : Q -> num) (M : Q) (z : Z) :
  RoundSpec rnd -> (Z.abs z <= 2 ^ 53)%Z -> (Qabs (inject_Z z) <= M)%Q ->
  doubleWithin rnd M (ofZ z).
Proof.
  intros Hr Hz HM. exists (inject_Z z).
  split; [reflexivity|]. split; [apply (rnd_int rnd Hr z Hz) | exact HM].
Qed.

(** The attributes of the example strokes: whole numbers up to 200. *)
Lemma exampleAttrs (s : Stroke) :
  colHSB s = exampleColor ->
  (thickness s = Some (ofZ 4) \/ thickness s = Some (ofZ 6)) ->
  (opacity s = Some (ofZ 80) \/ opacity s = Some (ofZ 50)) ->
  attrsWithin roundDouble 1000 s.
Proof.
  intros Ec Et Eo. unfold attrsWithin. rewrite Ec. cbn [exampleColor hsb_h hsb_s hsb_b].
  assert (D : forall z, (0 <= z <= 200)%Z ->
                        doubleWithin roundDouble 1000 (ofZ z)).
  { intros z Hz. apply doubleWithin_int; [exact roundDouble_spec | lia |].
    apply Qabs_bounds. split.
    - apply Qle_trans with 0%Q; [vm_compute; discriminate|].
      change 0%Q with (inject_Z 0). rewrite <- Zle_Qle. lia.
    - change 1000%Q with (inject_Z 1000). rewrite <- Zle_Qle. lia. }
  split; [apply D; lia|]. split; [apply D; lia|]. split; [apply D; lia|].
  split.
  - destruct Et as [-> | ->]; eexists; (split; [reflexivity|]);
      (split; [apply D; lia | reflexivity]).
  - destruct Eo as [-> | ->]; eexists; (split; [reflexivity|]);
      apply D; lia.
Qed.

(** The points of the example strokes: whole numbers up to 10. *)
Lemma examplePoints (pts : list Point) :
  Forall (fun p => exists u v, p = pt u v /\ (0 <= u <= 10)%Z /\
                                (0 <= v <= 10)%Z) pts ->
  Forall (pointWithin roundDouble 1000) pts.
Proof.
  assert (D : forall z, (0 <= z <= 10)%Z ->
                        doubleWithin roundDouble 1000 (ofZ z)).
  { intros z Hz. apply doubleWithin_int; [exact roundDouble_spec | lia |].
    apply Qabs_bounds. split.
    - apply Qle_trans with 0%Q; [vm_compute; discriminate|].
      change 0%Q with (inject_Z 0). rewrite <- Zle_Qle. lia.
    - change 1000%Q with (inject_Z 1000). rewrite <- Zle_Qle. lia. }
  intro H. eapply Forall_impl; [|exact H].
  intros p [u [v [-> [Hu Hv]]]]. split; cbn [pt x y]; apply D; assumption.
Qed.

Lemma tween_boundaries_witness :
  exists pa pb s0 s1,
    Rounded.resamplePointsLocal roundDouble distQ (points strokeA) 3 = Ok pa /\
    Rounded.resamplePointsLocal roundDouble distQ (points strokeB) 3 = Ok pb /\
    Rounded.tweenTwoStrokes roundDouble distQ strokeA strokeB (ofZ 0) 3
    = Ok s0 /\
    Rounded.tweenTwoStrokes roundDouble distQ strokeA strokeB (ofZ 1) 3
    = Ok s1 /\
    sameAttrs s0 strokeA /\ closeAttrs (tweenTolerance 1000) s1 strokeB /\
    Forall2 pointEq (points s0) pa /\
    Forall2 (closePoint (tweenTolerance 1000)) (points s1) pb.
Proof.
  destruct (tween_boundaries roundDouble distQ strokeA strokeB 3 1000)
    as [pa [pb [s0 [s1 [Epa [Epb [E0 [E1 [A0 [A1 [_ [_ H2]]]]]]]]]]]].
  - exact roundDouble_spec.
  - apply (dist_nonneg distQ distQ_spec).
  - simpl. lia.
  - simpl. lia.
  - apply exampleAttrs; [reflexivity | left; reflexivity | left; reflexivity].
  - apply exampleAttrs; [reflexivity | right; reflexivity | right; reflexivity].
  - apply examplePoints. cbn [strokeA points].
    repeat (apply Forall_cons || apply Forall_nil);
      eexists; eexists; (split; [reflexivity|]); split; lia.
  - apply examplePoints. cbn [strokeB points].
    repeat (apply Forall_cons || apply Forall_nil);
      eexists; eexists; (split; [reflexivity|]); split; lia.
  - eexists. vm_compute. reflexivity.
  - eexists. vm_compute. reflexivity.
  - vm_compute. discriminate.
  - exists pa, pb, s0, s1.
    split; [exact Epa|]. split; [exact Epb|]. split; [exact E0|].
    split; [exact E1|]. split; [exact A0|]. split; [exact A1|].
    destruct (H2 ltac:(lia)) as [P0 P1]. split; assumption.
Defined.

(** C6 as stated fails twice.  For [N = 1] the resampling still returns two
    positions and the tween only one.  And between two strokes with present
    attributes and finite coordinates, at [x = -2^1023] and at
    [x = 2^1023], the difference [stop - start] of [lerp] is beyond the
    largest double: every position of the tween at [t = 0] has the [x]
    NaN, while the resampled positions of the first stroke are its two
    points. *)
Lemma tween_boundary_failures :
  (exists pa s0,
     Rounded.resamplePointsLocal roundDouble distQ (points strokeA) 1 = Ok pa /\
     Rounded.tweenTwoStrokes roundDouble distQ strokeA strokeB (ofZ 0) 1
     = Ok s0 /\
     length pa = 2%nat /\ length (points s0) = 1%nat) /\
  (exists s0,
     Rounded.resamplePointsLocal roundDouble distOverflow
       (points strokeLeftEdge) 2 = Ok (points strokeLeftEdge) /\
     Rounded.tweenTwoStrokes roundDouble distOverflow
       strokeLeftEdge strokeRightEdge (ofZ 0) 2 = Ok s0 /\
     length (points s0) = 2%nat /\
     Forall (fun p => x p = NaN) (points s0)).
Proof.
  split.
  - eexists. eexists. split; [vm_compute; reflexivity|].
    split; [vm_compute; reflexivity|]. split; reflexivity.
  - eexists. split; [vm_compute; reflexivity|].
    split; [vm_compute; reflexivity|].
    split; [reflexivity|]. repeat constructor.
Qed.

(* ------------------------------------------------------------------ *)
(** ** The centroid on doubles and the arithmetic mean *)

Lemma errAfter_ge (M : Q) (j : nat) (e : Q) (n : nat) :
  (0 <= M)%Q -> (0 <= e)%Q -> (e <= errAfter M j e n)%Q.
Proof.
  intros HM. revert j e. induction n as [|n IH]; intros j e He; simpl.
  - apply Qle_refl.
  - destruct unitRoundoff_range as [Hu0 _].
    destruct underflowUnit_range as [He0 _].
    assert (HJ : (0 <= inject_Z (Z.of_nat (S j)))%Q).
    { change 0%Q with (inject_Z 0). rewrite <- Zle_Qle. lia. }
    set (J := inject_Z (Z.of_nat (S j))) in *.
    set (u := unitRoundoff) in *. set (eta := underflowUnit) in *.
    assert (HJM : (0 <= J * M)%Q) by (apply Qmult_le_0_compat; assumption).
    assert (HuJM : (0 <= u * (J * M))%Q)
      by (apply Qmult_le_0_compat; assumption).
    assert (Hue : (0 <= u * e)%Q) by (apply Qmult_le_0_compat; assumption).
    assert (Hstep : (e <= (1 + u) * e + u * (J * M) + eta)%Q) by lra.
    eapply Qle_trans; [exact Hstep|]. apply IH.
    apply Qle_trans with e; [exact He | exact Hstep].
Qed.

Lemma sumError_nonneg (M : Q) (n : nat) : (0 <= M)%Q -> (0 <= sumError M n)%Q.
Proof.
  intro HM. unfold sumError. apply errAfter_ge; [exact HM | apply Qle_refl].
Qed.

Lemma inject_succ (j : nat) :
  (inject_Z (Z.of_nat (S j)) == inject_Z (Z.of_nat j) + 1)%Q.
Proof.
  rewrite Nat2Z.inj_succ. unfold Z.succ. rewrite inject_Z_plus. reflexivity.
Qed.

Section CentroidOnDoubles.

Variable rnd : Q -> num.
Hypothesis rnd_ok : RoundSpec rnd.

(** The running sum of [centroidOf] stays within [errAfter] of the exact
    sum. *)
Lemma fold_sum_rounded (f : Point -> num) (M : Q) (vs : list Q) :
  (0 <= M)%Q -> Forall (fun v => (Qabs v <= M)%Q) vs ->
  forall (pts : list Point) (j : nat) (s t e : Q),
    map f pts = map Fin vs ->
    (Qabs (s - t) <= e)%Q -> (Qabs t <= inject_Z (Z.of_nat j) * M)%Q ->
    (inject_Z (Z.of_nat (j + length vs)) * M
     + errAfter M j e (length vs) <= maxDouble)%Q ->
    exists s',
      fold_left (fun acc p => Rounded.add rnd acc (f p)) pts (Fin s) = Fin s' /\
      (Qabs (s' - (t + fold_right Qplus 0 vs)) <= errAfter M j e (length vs))%Q.
Proof.
  intros HM Hall. induction Hall as [|v vs Hv Hall IH];
    intros pts j s t e Hmap Hst Ht Hcap.
  - destruct pts; [|discriminate Hmap]. exists s. split; [reflexivity|].
    cbn [length errAfter fold_right].
    apply Qabs_bounds in Hst. apply Qabs_bounds. lra.
  - destruct pts as [|p pts]; [discriminate Hmap|].
    cbn [map] in Hmap. injection Hmap as Hp Hmap.
    destruct unitRoundoff_range as [Hu0 Hu1].
    destruct underflowUnit_range as [He0 He1].
    assert (He : (0 <= e)%Q).
    { assert (H := Qabs_nonneg (s - t)). lra. }
    cbn [length errAfter] in Hcap |- *.
    assert (HJ0 : (0 <= inject_Z (Z.of_nat j))%Q).
    { change 0%Q with (inject_Z 0). rewrite <- Zle_Qle. lia. }
    assert (HJs := inject_succ j).
    assert (HL0 : (0 <= inject_Z (Z.of_nat (length vs)))%Q).
    { change 0%Q with (inject_Z 0). rewrite <- Zle_Qle. lia. }
    assert (HJL : (inject_Z (Z.of_nat (j + S (length vs)))
                   == inject_Z (Z.of_nat (S j)) + inject_Z (Z.of_nat (length vs)))%Q).
    { rewrite <- inject_Z_plus. replace (Z.of_nat (j + S (length vs)))
        with (Z.of_nat (S j) + Z.of_nat (length vs))%Z by lia. reflexivity. }
    set (J := inject_Z (Z.of_nat j)) in *.
    set (J1 := inject_Z (Z.of_nat (S j))) in *.
    set (Ln := inject_Z (Z.of_nat (length vs))) in *.
    set (u := unitRoundoff) in *. set (eta := underflowUnit) in *.
    assert (HJ10 : (0 <= J1)%Q) by lra.
    assert (HJ1M : (J1 * M == J * M + M)%Q) by (rewrite HJs; ring).
    assert (HJM0 : (0 <= J * M)%Q) by (apply Qmult_le_0_compat; assumption).
    assert (HLM0 : (0 <= Ln * M)%Q) by (apply Qmult_le_0_compat; assumption).
    assert (HuJM : (0 <= u * (J1 * M))%Q).
    { apply Qmult_le_0_compat; [assumption|]. lra. }
    assert (Hue : (0 <= u * e)%Q) by (apply Qmult_le_0_compat; assumption).
    set (e1 := ((1 + u) * e + u * (J1 * M) + eta)%Q) in *.
    assert (He1e : (e <= e1)%Q) by (unfold e1; lra).
    assert (Hge := errAfter_ge M (S j) e1 (length vs) HM ltac:(lra)).
    apply Qabs_bounds in Hst, Ht, Hv.
    assert (Hsv : (Qabs (s + v) <= J1 * M + e)%Q).
    { apply Qabs_bounds. lra. }
    assert (Hsv0 := Qabs_nonneg (s + v)).
    simpl fold_left. rewrite Hp. unfold Rounded.add at 2. cbn [add rounded].
    destruct (rnd_range rnd rnd_ok (s + v)) as [s1 Es1].
    { assert (Hc : ((J1 + Ln) * M == J1 * M + Ln * M)%Q) by ring.
      rewrite HJL, Hc in Hcap. lra. }
    rewrite Es1.
    assert (Herr := rnd_err rnd rnd_ok _ _ Es1). fold u in Herr. fold eta in Herr.
    set (A := Qabs (s + v)) in *.
    assert (HuA : (u * A <= u * (J1 * M) + u * e)%Q) by nra.
    apply Qabs_bounds in Herr.
    destruct (IH pts (S j) s1 (t + v)%Q e1 Hmap) as [s' [Es' Hs']].
    + apply Qabs_bounds. unfold e1. lra.
    + apply Qabs_bounds. fold J1. lra.
    + replace (S j + length vs)%nat with (j + S (length vs))%nat by lia.
      exact Hcap.
    + exists s'. split; [exact Es'|].
      apply Qabs_bounds in Hs'. apply Qabs_bounds. cbn [fold_right]. lra.
Qed.

Lemma sum_bound (M : Q) (vs : list Q) :
  Forall (fun v => (Qabs v <= M)%Q) vs ->
  (Qabs (fold_right Qplus 0 vs) <= inject_Z (Z.of_nat (length vs)) * M)%Q.
Proof.
  induction 1 as [|v vs Hv _ IH]; cbn [fold_right length].
  - apply Qabs_bounds. change (inject_Z (Z.of_nat 0)) with 0%Q. lra.
  - assert (HJ := inject_succ (length vs)).
    assert (HJM : (inject_Z (Z.of_nat (S (length vs))) * M
                   == inject_Z (Z.of_nat (length vs)) * M + M)%Q)
      by (rewrite HJ; ring).
    apply Qabs_bounds in Hv, IH. apply Qabs_bounds. lra.
Qed.

(** One coordinate of [centroidOf] on doubles: a double within
    [centroidError] of the arithmetic mean. *)
Lemma centroid_coordinate (f : Point -> num) (M : Q) (vs : list Q)
    (pts : list Point) :
  pts <> [] -> map f pts = map Fin vs ->
  Forall (fun v => (Qabs v <= M)%Q) vs ->
  (inject_Z (Z.of_nat (length pts)) * M + sumError M (length pts)
   <= maxDouble)%Q ->
  exists c,
    Rounded.div rnd
      (fold_left (fun acc p => Rounded.add rnd acc (f p)) pts (ofZ 0))
      (ofNat (length pts)) = Fin c /\
    rnd c = Fin c /\
    (Qabs (c - arithmeticMean vs) <= centroidError M (length pts))%Q /\
    (Qabs c <= M + centroidError M (length pts))%Q.
Proof.
  intros Hne Hmap Hall Hcap.
  assert (Hlen : length vs = length pts).
  { apply (f_equal (@length num)) in Hmap. rewrite !length_map in Hmap.
    symmetry. exact Hmap. }
  assert (HM : (0 <= M)%Q).
  { destruct vs as [|v vs]; [destruct pts; [contradiction | discriminate]|].
    inversion Hall as [|? ? Hv _]; subst.
    assert (H := Qabs_nonneg v). lra. }
  destruct unitRoundoff_range as [Hu0 Hu1].
  destruct underflowUnit_range as [He0 He1].
  assert (HE := sumError_nonneg M (length pts) HM).
  assert (Hsum := sum_bound M vs Hall). rewrite Hlen in Hsum.
  destruct (fold_sum_rounded f M vs HM Hall pts 0 (inject_Z 0) 0 0 Hmap)
    as [S [ES HS]].
  { apply Qabs_bounds. unfold inject_Z. lra. }
  { apply Qabs_bounds. change (inject_Z (Z.of_nat 0)) with 0%Q. lra. }
  { rewrite Hlen. exact Hcap. }
  rewrite Hlen in HS. fold (sumError M (length pts)) in HS.
  change (Fin (inject_Z 0)) with (ofZ 0) in ES. rewrite ES.
  unfold arithmeticMean, centroidError. rewrite Hlen.
  assert (Hn1 : (1 <= inject_Z (Z.of_nat (length pts)))%Q).
  { change 1%Q with (inject_Z 1). rewrite <- Zle_Qle.
    destruct pts; [contradiction | simpl length; lia]. }
  set (nq := inject_Z (Z.of_nat (length pts))) in *.
  set (E := sumError M (length pts)) in *.
  set (Sg := fold_right Qplus 0 vs) in *.
  assert (Hnz : ~ (nq == 0)%Q) by lra.
  assert (Hinv0 : (0 < / nq)%Q) by (apply Qinv_lt_0_compat; lra).
  assert (Hni : (nq * / nq == 1)%Q) by (apply Qmult_inv_r; exact Hnz).
  unfold Rounded.div, ofNat, ofZ. cbn [div]. fold nq.
  assert (Hqz : Qeq_bool nq 0 = false) by (apply Qeq_bool_false; exact Hnz).
  rewrite Hqz. cbn [rounded]. unfold Qdiv.
  set (inv := (/ nq)%Q) in *.
  assert (Hinv1 : (inv <= 1)%Q).
  { assert (H : (inv * 1 <= inv * nq)%Q)
      by (apply Qmult_le_l; [exact Hinv0 | exact Hn1]).
    assert (H' : (inv * nq == 1)%Q) by (rewrite Qmult_comm; exact Hni).
    lra. }
  apply Qabs_bounds in HS, Hsum.
  assert (HEi0 : (0 <= E * inv)%Q) by (apply Qmult_le_0_compat; lra).
  assert (HEi1 : (E * inv <= E)%Q).
  { assert (H : (E * inv <= E * 1)%Q)
      by (apply Qmult_le_nonneg_l; lra). lra. }
  assert (HMni : (nq * M * inv == M)%Q).
  { setoid_replace (nq * M * inv)%Q with (M * (nq * inv))%Q by ring.
    rewrite Hni. ring. }
  assert (Hd1 : ((S - Sg) * inv <= E * inv)%Q)
    by (apply Qmult_le_compat_r; lra).
  assert (Hd2 : (- E * inv <= (S - Sg) * inv)%Q)
    by (apply Qmult_le_compat_r; lra).
  assert (Hm1 : (Sg * inv <= nq * M * inv)%Q)
    by (apply Qmult_le_compat_r; lra).
  assert (Hm2 : (- (nq * M) * inv <= Sg * inv)%Q)
    by (apply Qmult_le_compat_r; lra).
  assert (Hexp1 : ((S - Sg) * inv == S * inv - Sg * inv)%Q) by ring.
  assert (Hexp2 : (- E * inv == - (E * inv))%Q) by ring.
  assert (Hexp3 : (- (nq * M) * inv == - (nq * M * inv))%Q) by ring.
  assert (HSi : (Qabs (S * inv) <= M + E * inv)%Q).
  { apply Qabs_bounds. lra. }
  assert (HSi0 := Qabs_nonneg (S * inv)).
  assert (Hnn : (nq * M + E <= maxDouble)%Q) by exact Hcap.
  assert (HnM : (M <= nq * M)%Q).
  { assert (H : (1 * M <= nq * M)%Q)
      by (apply Qmult_le_compat_r; lra). lra. }
  destruct (rnd_range rnd rnd_ok (S * inv) ltac:(lra)) as [c Ec].
  exists c. split; [exact Ec|].
  split; [exact (rnd_idem rnd rnd_ok _ _ Ec)|].
  assert (Herr := rnd_err rnd rnd_ok _ _ Ec).
  set (u := unitRoundoff) in *. set (eta := underflowUnit) in *.
  set (A := Qabs (S * inv)) in *.
  assert (HuA : (u * A <= u * (M + E * inv))%Q)
    by (apply Qmult_le_nonneg_l; lra).
  apply Qabs_bounds in Herr.
  split; apply Qabs_bounds; lra.
Qed.

End CentroidOnDoubles.

(* ------------------------------------------------------------------ *)
(** ** The ghost fade, on doubles *)

Lemma Forall_map_combine {A B : Type} (f : A * A -> B) (P : B -> Prop)
    (la lb : list A) :
  (forall qa qb, In qa la -> In qb lb -> P (f (qa, qb))) ->
  Forall P (map f (combine la lb)).
Proof.
  intro H. apply Forall_forall. intros v Hv.
  apply in_map_iff in Hv. destruct Hv as [[qa qb] [<- Hin]].
  apply H; [eapply in_combine_l | eapply in_combine_r]; exact Hin.
Qed.

Lemma closeNum_shift (t1 t2 c m : Q) (u : num) :
  closeNum t1 u (Fin c) -> (Qabs (c - m) <= t2)%Q ->
  closeNum (t1 + t2) u (Fin m).
Proof.
  intros [p [q [-> [E H1]]]] H2. injection E as <-.
  exists p, m. split; [reflexivity|]. split; [reflexivity|].
  apply Qabs_bounds in H1, H2. apply Qabs_bounds. lra.
Qed.

Lemma centroidError_nonneg (M : Q) (n : nat) :
  (0 <= M)%Q -> (1 <= n)%nat -> (0 <= centroidError M n)%Q.
Proof.
  intros HM Hn. unfold centroidError.
  destruct unitRoundoff_range as [Hu0 _].
  destruct underflowUnit_range as [He0 _].
  assert (HE := sumError_nonneg M n HM).
  assert (Hnq : (0 < inject_Z (Z.of_nat n))%Q).
  { change 0%Q with (inject_Z 0). rewrite <- Zlt_Qlt. lia. }
  assert (Hd : (0 <= sumError M n / inject_Z (Z.of_nat n))%Q).
  { apply Qle_shift_div_l; [exact Hnq | lra]. }
  assert (Hp : (0 <= unitRoundoff
                     * (M + sumError M n / inject_Z (Z.of_nat n)))%Q)
    by (apply Qmult_le_0_compat; lra).
  lra.
Qed.

Section GhostOnDoubles.

Variable rnd : Q -> num.
Hypothesis rnd_ok : RoundSpec rnd.
Variable dist : num -> num -> num -> num -> num.
Hypothesis dist_nn : forall x1 y1 x2 y2, notNegative (dist x1 y1 x2 y2).
Hypothesis dist_zero : forall x1 y1 : Q,
    seq_num (dist (Fin x1) (Fin y1) (Fin x1) (Fin y1)) (ofZ 0) = true.

(** From a double to 0 at [amt = 1]: exactly 0. *)
Lemma lerp_fades (q : Q) :
  rnd q = Fin q -> Rounded.lerp rnd (Fin q) (ofZ 0) (ofZ 1) = Fin 0.
Proof.
  intro Hq. unfold Rounded.lerp, Rounded.add, Rounded.mul, Rounded.sub, ofZ.
  cbn [sub rounded].
  assert (Hneg : rnd (- q) = Fin (- q)).
  { rewrite (rnd_opp rnd rnd_ok q), Hq. reflexivity. }
  rewrite (rnd_ext rnd rnd_ok (inject_Z 0 - q) (- q)) by (unfold inject_Z; ring).
  rewrite Hneg. cbn [mul rounded].
  rewrite (rnd_ext rnd rnd_ok (inject_Z 1 * - q) (- q))
    by (unfold inject_Z; ring).
  rewrite Hneg. cbn [add rounded].
  rewrite (rnd_ext rnd rnd_ok (- q + q) 0) by ring.
  apply (rnd_zero rnd rnd_ok).
Qed.

(** The table of a polyline that stays at one finite point holds zeros. *)
Lemma cumulative_still (cx cy : Q) (m : nat) (a : Q) :
  (a == 0)%Q ->
  Forall (fun l => l = Fin 0)
    (Rounded.cumulative rnd dist (Fin a) {| x := Fin cx; y := Fin cy |}
       (repeat {| x := Fin cx; y := Fin cy |} m)).
Proof.
  revert a. induction m as [|m IH]; intros a Ha; cbn [repeat Rounded.cumulative].
  - constructor.
  - assert (Hz := dist_zero cx cy). apply seq_num_eq in Hz.
    unfold distPts. cbn [x y].
    destruct (dist (Fin cx) (Fin cy) (Fin cx) (Fin cy)) as [| |z|];
      try contradiction.
    cbn [num_eq ofZ] in Hz.
    assert (E : Rounded.add rnd (Fin a) (Fin z) = Fin 0).
    { unfold Rounded.add. cbn [add rounded].
      rewrite (rnd_ext rnd rnd_ok (a + z) 0)
        by (rewrite Ha, Hz; unfold inject_Z; ring).
      apply (rnd_zero rnd rnd_ok). }
    rewrite E. constructor; [reflexivity|]. apply IH. reflexivity.
Qed.

(** The ghost's polyline resamples to copies of its point. *)
Lemma ghost_resample_rounded (cx cy : Q) (n : nat) (N : Z) :
  (2 <= n)%nat ->
  Rounded.resamplePointsLocal rnd dist
    (repeat {| x := Fin cx; y := Fin cy |} n) N
  = Ok (repeat {| x := Fin cx; y := Fin cy |} (Z.to_nat (Z.max 2 N))).
Proof.
  intro Hn. destruct n as [|[|n]]; try lia.
  cbn [repeat]. unfold Rounded.resamplePointsLocal.
  set (c := {| x := Fin cx; y := Fin cy |}).
  assert (Hall : Forall (fun l => seq_num l (ofZ 0) = true)
                   (ofZ 0 :: Rounded.cumulative rnd dist (ofZ 0) c (c :: repeat c n))).
  { constructor; [reflexivity|].
    assert (H := cumulative_still cx cy (S n) (inject_Z 0) ltac:(reflexivity)).
    fold c in H. cbn [repeat] in H.
    eapply Forall_impl; [|exact H]. intros l ->. reflexivity. }
  assert (Hlast : seq_num
            (last (ofZ 0 :: Rounded.cumulative rnd dist (ofZ 0) c
                              (c :: repeat c n)) NaN) (ofZ 0) = true).
  { apply (last_Forall (fun l => seq_num l (ofZ 0) = true));
      [discriminate | exact Hall]. }
  rewrite Hlast. reflexivity.
Qed.

End GhostOnDoubles.

(** C7, as amended.  On doubles, for a stroke of two points or more and of
    finite length whose coordinates are of magnitude at most [M], with an
    opacity that is absent or a double, and as long as no sum and no
    difference of the computation is beyond the largest double
    ([fadeInRange]): tweening the stroke against its own ghost at [t = 1]
    gives opacity 0, exactly, and [max(0, N)] points, every one of them
    within [fadeTolerance] of the arithmetic mean of the stroke's
    points. *)
Theorem ghost_fade (rnd : Q -> num) (dist : num -> num -> num -> num -> num)
    (a : Stroke) (N : Z) (M : Q) (xs ys : list Q) :
  RoundSpec rnd ->
  (forall x1 y1 x2 y2, notNegative (dist x1 y1 x2 y2)) ->
  (forall x1 y1 : Q,
     seq_num (dist (Fin x1) (Fin y1) (Fin x1) (Fin y1)) (ofZ 0) = true) ->
  (2 <= length (points a))%nat ->
  map x (points a) = map Fin xs -> map y (points a) = map Fin ys ->
  Forall (fun v => rnd v = Fin v /\ (Qabs v <= M)%Q) xs ->
  Forall (fun v => rnd v = Fin v /\ (Qabs v <= M)%Q) ys ->
  finite (Rounded.lengthOf rnd dist (points a)) ->
  (forall o, opacity a = Some o -> exists q, o = Fin q /\ rnd q = Fin q) ->
  fadeInRange M (length (points a)) ->
  exists s,
    Rounded.tweenTwoStrokes rnd dist a (Rounded.ghostFromStrokeLike rnd a)
                            (ofZ 1) N = Ok s /\
    optEq (opacity s) (Some (ofZ 0)) /\
    length (points s) = Z.to_nat N /\
    Forall (fun p =>
              closeNum (fadeTolerance M (length (points a)))
                       (x p) (Fin (arithmeticMean xs)) /\
              closeNum (fadeTolerance M (length (points a)))
                       (y p) (Fin (arithmeticMean ys)))
           (points s).
Proof.
  intros Hr Hnn Hzero Hlen Hxs Hys Dx Dy Hfin Hop [Hcap Hbig].
  assert (Bx : Forall (fun v => (Qabs v <= M)%Q) xs).
  { eapply Forall_impl; [|exact Dx]. intros v [_ H]. exact H. }
  assert (By : Forall (fun v => (Qabs v <= M)%Q) ys).
  { eapply Forall_impl; [|exact Dy]. intros v [_ H]. exact H. }
  assert (Hne : points a <> []).
  { intro E. rewrite E in Hlen. simpl in Hlen. lia. }
  destruct (centroid_coordinate rnd Hr x M xs (points a) Hne Hxs Bx Hcap)
    as [cx [Ecx [Dcx [Mcx Wcx]]]].
  destruct (centroid_coordinate rnd Hr y M ys (points a) Hne Hys By Hcap)
    as [cy [Ecy [Dcy [Mcy Wcy]]]].
  assert (Ec : Rounded.centroidOf rnd (points a)
               = {| x := Fin cx; y := Fin cy |}).
  { unfold Rounded.centroidOf. destruct (points a) as [|p l] eqn:Ep;
      [contradiction|]. rewrite Ecx, Ecy. reflexivity. }
  assert (HM : (0 <= M)%Q).
  { destruct xs as [|v xs]; [destruct (points a); [contradiction | discriminate]|].
    inversion Bx as [|? ? Hv _]; subst. assert (H := Qabs_nonneg v). lra. }
  assert (Hce := centroidError_nonneg M (length (points a)) HM ltac:(lia)).
  assert (HMs := sampleBound_ge M HM).
  assert (Hin : forall c, In c (points a) ->
            exists vx vy, c = {| x := Fin vx; y := Fin vy |} /\
              (rnd vx = Fin vx /\ (Qabs vx <= M)%Q) /\
              (rnd vy = Fin vy /\ (Qabs vy <= M)%Q)).
  { intros c Hc. rewrite Forall_forall in Dx, Dy.
    assert (Hcx : In (x c) (map Fin xs))
      by (rewrite <- Hxs; apply in_map, Hc).
    assert (Hcy : In (y c) (map Fin ys))
      by (rewrite <- Hys; apply in_map, Hc).
    apply in_map_iff in Hcx, Hcy.
    destruct Hcx as [vx [Evx Hvx]]. destruct Hcy as [vy [Evy Hvy]].
    exists vx, vy. destruct c as [u v]. cbn [x y] in Evx, Evy. subst u v.
    split; [reflexivity|]. split; [apply Dx, Hvx | apply Dy, Hvy]. }
  set (n := length (points a)) in *.
  assert (Eg : points (Rounded.ghostFromStrokeLike rnd a)
               = repeat {| x := Fin cx; y := Fin cy |} 20).
  { unfold Rounded.ghostFromStrokeLike. cbn [points]. rewrite Ec. reflexivity. }
  destruct (tween_rounded_returns rnd Hr dist Hnn a
              (Rounded.ghostFromStrokeLike rnd a) (ofZ 1) N Hlen)
    as [pa [pb [s [Epa [Epb [Lpa [Lpb [Es [Ep [Ls [_ [Eo _]]]]]]]]]]]].
  { rewrite Eg, repeat_length. lia. }
  rewrite Eg in Epb.
  rewrite (ghost_resample_rounded rnd Hr dist Hzero cx cy 20 N ltac:(lia))
    in Epb.
  injection Epb as <-.
  assert (Wa : Forall (pointWithin rnd (sampleBound M)) pa).
  { apply (resample_within rnd Hr dist Hnn M (points a) pa N Hlen);
      [lra | | | exact Hfin | exact Epa].
    - intros c Hc. destruct (Hin c Hc) as [vx [vy [E [[_ Hx] [_ Hy]]]]].
      exists vx, vy. split; [exact E | split; assumption].
    - intros c Hc. destruct (Hin c Hc) as [vx [vy [-> [[Ex Hx] [Ey Hy]]]]].
      split; cbn [x y]; eexists; (split; [reflexivity|]);
        (split; [assumption | lra]). }
  exists s. split; [exact Es|]. split; [|split].
  - rewrite Eo. cbn [Rounded.ghostFromStrokeLike opacity nullish].
    assert (Hd : exists q, nullish (opacity a) (ofZ 100) = Fin q /\ rnd q = Fin q).
    { destruct (opacity a) as [o|]; cbn [nullish].
      - apply Hop. reflexivity.
      - exists (inject_Z 100). split; [reflexivity|].
        apply (rnd_int rnd Hr 100). vm_compute. discriminate. }
    destruct Hd as [q [-> Hq]].
    rewrite (lerp_fades rnd Hr q Hq). cbn [optEq num_eq ofZ]. reflexivity.
  - exact Ls.
  - rewrite Forall_forall in Wa. rewrite Ep.
    apply Forall_map_combine. intros qa qb Hqa Hqb.
    apply In_firstn in Hqa, Hqb. apply repeat_spec in Hqb. subst qb.
    destruct (Wa qa Hqa) as [Wax Way]. cbn [fst snd x y].
    set (M2 := (sampleBound M + centroidError M n)%Q) in *.
    assert (HM2 : (sampleBound M <= M2)%Q) by (unfold M2; lra).
    unfold fadeTolerance. fold M2.
    split.
    + apply closeNum_shift with cx; [|exact Mcx].
      apply (lerp_double_stop rnd Hr M2);
        [apply (doubleWithin_le rnd (sampleBound M)); assumption | | exact Hbig].
      exists cx. split; [reflexivity|]. split; [exact Dcx|].
      unfold M2. lra.
    + apply closeNum_shift with cy; [|exact Mcy].
      apply (lerp_double_stop rnd Hr M2);
        [apply (doubleWithin_le rnd (sampleBound M)); assumption | | exact Hbig].
      exists cy. split; [reflexivity|]. split; [exact Dcy|].
      unfold M2. lra.
Qed.

Lemma ghost_fade_witness :
  exists s,
    Rounded.tweenTwoStrokes roundDouble distQ strokeA
      (Rounded.ghostFromStrokeLike roundDouble strokeA) (ofZ 1) 3 = Ok s /\
    optEq (opacity s) (Some (ofZ 0)) /\
    length (points s) = Z.to_nat 3 /\
    Forall (fun p =>
              closeNum (fadeTolerance 10 3) (x p)
                       (Fin (arithmeticMean [0; 3; 3])) /\
              closeNum (fadeTolerance 10 3) (y p)
                       (Fin (arithmeticMean [0; 4; 10])))
           (points s).
Proof.
  apply (ghost_fade roundDouble distQ strokeA 3 10 [0; 3; 3] [0; 4; 10]).
  - exact roundDouble_spec.
  - apply (dist_nonneg distQ distQ_spec).
  - apply (dist_self distQ distQ_spec).
  - simpl. lia.
  - reflexivity.
  - reflexivity.
  - repeat (apply Forall_cons || apply Forall_nil);
      (split; [vm_compute; reflexivity | vm_compute; discriminate]).
  - repeat (apply Forall_cons || apply Forall_nil);
      (split; [vm_compute; reflexivity | vm_compute; discriminate]).
  - eexists. vm_compute. reflexivity.
  - intros o Ho. injection Ho as <-. exists (inject_Z 80).
    split; [reflexivity|].
    apply (rnd_int roundDouble roundDouble_spec 80). vm_compute. discriminate.
  - split; vm_compute; discriminate.
Defined.

(** C7 as stated fails for a stroke with finite coordinates that runs from
    [x = -2^1023] to [x = 2^1023]: its length is beyond the largest double,
    so the sampling positions are [0 * Infinity] and
    [Infinity / Infinity], the resampled positions are NaN and so is every
    point of the tween, while the centroid of the stroke is the origin. *)
Lemma ghost_fade_overflow :
  finiteStroke strokeSpan /\
  (2 <= length (points strokeSpan))%nat /\
  Rounded.centroidOf roundDouble (points strokeSpan) = pt 0 0 /\
  exists s,
    Rounded.tweenTwoStrokes roundDouble distOverflow strokeSpan
      (Rounded.ghostFromStrokeLike roundDouble strokeSpan) (ofZ 1) 2 = Ok s /\
    length (points s) = 2%nat /\
    Forall (fun p => x p = NaN /\ y p = NaN) (points s).
Proof.
  split; [repeat constructor; apply finite_ofZ|].
  split; [simpl; lia|].
  split; [vm_compute; reflexivity|].
  eexists. split; [vm_compute; reflexivity|].
  split; [reflexivity|]. repeat constructor.
Qed.

(* ------------------------------------------------------------------ *)
(** ** Doubles: nothing is thrown, and the centroid is the mean *)

(** X29: on doubles too, whatever the rounding does within [RoundSpec] and
    with a [dist] that is never below zero, [resamplePointsLocal] returns:
    its input for fewer than two points, [max(2, N)] points otherwise; and
    between strokes of two points or more [tweenTwoStrokes] returns a
    stroke of [max(0, N)] points that is no eraser, for every [t]. *)
Theorem doubles_never_throw (rnd : Q -> num)
    (dist : num -> num -> num -> num -> num) :
  RoundSpec rnd ->
  (forall x1 y1 x2 y2, notNegative (dist x1 y1 x2 y2)) ->
  (forall pts N,
     exists out,
       Rounded.resamplePointsLocal rnd dist pts N = Ok out /\
       ((length pts < 2)%nat -> out = pts) /\
       ((2 <= length pts)%nat -> length out = Z.to_nat (Z.max 2 N))) /\
  (forall a b t N,
     (2 <= length (points a))%nat -> (2 <= length (points b))%nat ->
     exists s,
       Rounded.tweenTwoStrokes rnd dist a b t N = Ok s /\
       length (points s) = Z.to_nat N /\ eraser s = false).
Proof.
  intros Hr Hnn. split.
  - intros pts N. apply resample_rounded_returns; assumption.
  - intros a b t N Ha Hb.
    destruct (tween_rounded_returns rnd Hr dist Hnn a b t N Ha Hb)
      as [pa [pb [s [_ [_ [_ [_ [Es [_ [Ls [Er _]]]]]]]]]]].
    exists s. split; [exact Es|]. split; [exact Ls | exact Er].
Qed.

Lemma doubles_never_throw_witness :
  exists out s,
    Rounded.resamplePointsLocal roundDouble distQ (points strokeA) 60
    = Ok out /\
    length out = 60%nat /\
    Rounded.tweenTwoStrokes roundDouble distQ strokeA strokeB (Fin (1 # 3)) 60
    = Ok s /\
    length (points s) = 60%nat.
Proof.
  destruct (doubles_never_throw roundDouble distQ roundDouble_spec
              (dist_nonneg distQ distQ_spec)) as [Hres Htw].
  destruct (Hres (points strokeA) 60%Z) as [out [Eout [_ Hlen]]].
  destruct (Htw strokeA strokeB (Fin (1 # 3)) 60%Z) as [s [Es [Ls _]]].
  - simpl. lia.
  - simpl. lia.
  - exists out, s. split; [exact Eout|]. split; [apply Hlen; simpl; lia|].
    split; [exact Es | exact Ls].
Defined.

(** X30: on doubles the centroid of [n] points of magnitude at most [M] is
    within [centroidError M n] of the arithmetic mean of their coordinates
    and is itself of magnitude at most [M + centroidError M n], as long
    as the sum stays below the largest double. *)
Theorem centroid_on_doubles (rnd : Q -> num) (pts : list Point) (M : Q)
    (xs ys : list Q) :
  RoundSpec rnd -> pts <> [] ->
  map x pts = map Fin xs -> map y pts = map Fin ys ->
  Forall (fun v => (Qabs v <= M)%Q) xs ->
  Forall (fun v => (Qabs v <= M)%Q) ys ->
  (inject_Z (Z.of_nat (length pts)) * M + sumError M (length pts)
   <= maxDouble)%Q ->
  closePoint (centroidError M (length pts)) (Rounded.centroidOf rnd pts)
             {| x := Fin (arithmeticMean xs); y := Fin (arithmeticMean ys) |} /\
  pointWithin rnd (M + centroidError M (length pts))
              (Rounded.centroidOf rnd pts).
Proof.
  intros Hr Hne Hxs Hys Bx By Hcap.
  destruct (centroid_coordinate rnd Hr x M xs pts Hne Hxs Bx Hcap)
    as [cx [Ecx [Dcx [Mcx Wcx]]]].
  destruct (centroid_coordinate rnd Hr y M ys pts Hne Hys By Hcap)
    as [cy [Ecy [Dcy [Mcy Wcy]]]].
  assert (Ec : Rounded.centroidOf rnd pts = {| x := Fin cx; y := Fin cy |}).
  { unfold Rounded.centroidOf. destruct pts as [|p l]; [contradiction|].
    rewrite Ecx, Ecy. reflexivity. }
  rewrite Ec. split; split; cbn [x y].
  - exists cx, (arithmeticMean xs). repeat split. exact Mcx.
  - exists cy, (arithmeticMean ys). repeat split. exact Mcy.
  - exists cx. repeat split; assumption.
  - exists cy. repeat split; assumption.
Qed.

Lemma centroid_on_doubles_witness :
  closePoint (centroidError 10 3)
             (Rounded.centroidOf roundDouble (points strokeA))
             {| x := Fin (arithmeticMean [0; 3; 3]);
                y := Fin (arithmeticMean [0; 4; 10]) |}.
Proof.
  apply (centroid_on_doubles roundDouble (points strokeA) 10
           [0; 3; 3] [0; 4; 10]).
  - exact roundDouble_spec.
  - discriminate.
  - reflexivity.
  - reflexivity.
  - repeat (apply Forall_cons || apply Forall_nil); vm_compute; discriminate.
  - repeat (apply Forall_cons || apply Forall_nil); vm_compute; discriminate.
  - vm_compute. discriminate.
Defined.

(* ------------------------------------------------------------------ *)
(** ** Doubles: the matching cost *)

Lemma abs_notNegative (u : num) : notNegative (num_abs u).
Proof.
  unfold notNegative. destruct u as [| |q|]; try reflexivity.
  cbn [num_abs ltb ofZ]. apply Qltb_false.
  assert (H := Qabs_nonneg q). unfold inject_Z. exact H.
Qed.

Lemma mul_notNegative (u v : num) :
  notNegative u -> notNegative v -> notNegative (mul u v).
Proof.
  unfold notNegative.
  destruct u as [| |p|], v as [| |q|]; cbn [mul ltb ofZ scaleInf neg];
    try reflexivity; try discriminate; intros Hp Hq;
    try (apply Qltb_false in Hp); try (apply Qltb_false in Hq);
    unfold inject_Z in *.
  all: try (apply Qltb_false; nra).
  all: unfold scaleInf;
    match goal with
    | |- context [Qeq_bool ?r 0] =>
        destruct (Qeq_bool r 0) eqn:E0; [reflexivity|];
        destruct (Qltb 0 r) eqn:E1; [reflexivity|];
        apply Qeq_bool_false in E0; apply Qltb_false in E1;
        exfalso; lra
    end.
Qed.

Section CostOnDoubles.

Variable rnd : Q -> num.
Hypothesis rnd_ok : RoundSpec rnd.
Variable dist : num -> num -> num -> num -> num.

(** The double next to [0.1] is a finite number above zero. *)
Lemma rnd_tenth : exists e, rnd (1 # 10) = Fin e /\ (0 < e)%Q.
Proof.
  destruct (rnd_range rnd rnd_ok (1 # 10)) as [e E].
  { vm_compute. discriminate. }
  exists e. split; [exact E|].
  assert (H := rnd_err rnd rnd_ok _ _ E). apply Qabs_bounds in H.
  assert (K : (unitRoundoff * Qabs (1 # 10) + underflowUnit < 1 # 10)%Q)
    by (vm_compute; reflexivity).
  lra.
Qed.

Lemma cost_above_zero_rounded (a b : Stroke) :
  (forall x1 y1 x2 y2, notNegative (dist x1 y1 x2 y2)) ->
  notNegative (Rounded.strokeMatchCost rnd dist a b).
Proof.
  intro Hnn. unfold Rounded.strokeMatchCost.
  apply (add_notNegative rnd rnd_ok); [apply Hnn|].
  unfold Rounded.mul. apply (rounded_notNegative rnd rnd_ok).
  apply mul_notNegative; [apply abs_notNegative|].
  destruct rnd_tenth as [e [-> He]].
  unfold notNegative. cbn [ltb ofZ]. apply Qltb_false.
  unfold inject_Z. lra.
Qed.

Lemma cost_of_itself_rounded (a : Stroke) :
  (forall x1 y1 : Q,
     seq_num (dist (Fin x1) (Fin y1) (Fin x1) (Fin y1)) (ofZ 0) = true) ->
  finitePoint (Rounded.centroidOf rnd (points a)) ->
  finite (Rounded.lengthOf rnd dist (points a)) ->
  (Rounded.strokeMatchCost rnd dist a a =n= ofZ 0)%num.
Proof.
  intros Hself [[cx Ex] [cy Ey]] Hlen. unfold Rounded.strokeMatchCost.
  rewrite Ex, Ey.
  assert (Hs := Hself cx cy). apply seq_num_eq in Hs.
  destruct (dist (Fin cx) (Fin cy) (Fin cx) (Fin cy)) as [| |d|];
    try contradiction.
  cbn [num_eq ofZ] in Hs.
  assert (Hl : finite (num_max (ofZ 1) (Rounded.lengthOf rnd dist (points a)))).
  { apply finite_max; [apply finite_ofZ | exact Hlen]. }
  destruct Hl as [l ->].
  destruct rnd_tenth as [e [-> He]].
  unfold Rounded.sub. cbn [sub rounded].
  rewrite (rnd_ext rnd rnd_ok (l - l) 0) by ring.
  rewrite (rnd_zero rnd rnd_ok). cbn [num_abs].
  unfold Rounded.mul. cbn [mul rounded].
  rewrite (rnd_ext rnd rnd_ok (Qabs 0 * e) 0)
    by (change (Qabs 0) with 0%Q; ring).
  rewrite (rnd_zero rnd rnd_ok).
  unfold Rounded.add. cbn [add rounded].
  rewrite (rnd_ext rnd rnd_ok (d + 0) 0) by (rewrite Hs; unfold inject_Z; ring).
  rewrite (rnd_zero rnd rnd_ok). cbn [num_eq ofZ]. reflexivity.
Qed.

(** The length term does not depend on the order of the two lengths. *)
Lemma lenTerm_swap (u v : num) :
  Rounded.mul rnd (num_abs (Rounded.sub rnd u v)) (rnd (1 # 10))
  = Rounded.mul rnd (num_abs (Rounded.sub rnd v u)) (rnd (1 # 10)).
Proof.
  destruct rnd_tenth as [e [-> He]].
  destruct u as [| |p|], v as [| |q|]; try reflexivity.
  unfold Rounded.sub. cbn [sub rounded].
  assert (Hopp : rnd (q - p) = neg (rnd (p - q))).
  { rewrite <- (rnd_opp rnd rnd_ok). apply (rnd_ext rnd rnd_ok). ring. }
  rewrite Hopp.
  destruct (rnd (p - q)) as [| |r|]; try reflexivity.
  cbn [neg num_abs]. unfold Rounded.mul. cbn [mul rounded].
  apply (rnd_ext rnd rnd_ok). rewrite Qabs_opp. reflexivity.
Qed.

End CostOnDoubles.

(** X14: on doubles, with a [dist] that is never below zero the matching
    cost of two strokes is never below zero, whatever their points; and
    with a [dist] that is 0 from a point to itself, a stroke whose centroid
    and length are finite numbers is at cost 0 of itself. *)
Theorem cost_floor (rnd : Q -> num)
    (dist : num -> num -> num -> num -> num) (a b : Stroke) :
  RoundSpec rnd ->
  (forall x1 y1 x2 y2, notNegative (dist x1 y1 x2 y2)) ->
  (forall x1 y1 : Q,
     seq_num (dist (Fin x1) (Fin y1) (Fin x1) (Fin y1)) (ofZ 0) = true) ->
  notNegative (Rounded.strokeMatchCost rnd dist a b) /\
  (finitePoint (Rounded.centroidOf rnd (points a)) ->
   finite (Rounded.lengthOf rnd dist (points a)) ->
   (Rounded.strokeMatchCost rnd dist a a =n= ofZ 0)%num).
Proof.
  intros Hr Hnn Hself. split.
  - apply cost_above_zero_rounded; assumption.
  - apply cost_of_itself_rounded; assumption.
Qed.

Lemma cost_floor_witness :
  notNegative (Rounded.strokeMatchCost roundDouble distQ strokeA strokeB) /\
  (Rounded.strokeMatchCost roundDouble distQ strokeA strokeA =n= ofZ 0)%num.
Proof.
  destruct (cost_floor roundDouble distQ strokeA strokeB) as [H1 H2].
  - exact roundDouble_spec.
  - apply (dist_nonneg distQ distQ_spec).
  - apply (dist_self distQ distQ_spec).
  - split; [exact H1|]. apply H2.
    + split; eexists; vm_compute; reflexivity.
    + eexists; vm_compute; reflexivity.
Defined.

(** X15: on doubles, when [dist] does not depend on the order of its two
    points, the matching cost of two strokes does not depend on their order
    either: [strokeMatchCost(a, b)] and [strokeMatchCost(b, a)] are the same
    value, whatever the points. *)
Theorem cost_order_free (rnd : Q -> num)
    (dist : num -> num -> num -> num -> num) (a b : Stroke) :
  RoundSpec rnd -> distSymmetric dist ->
  Rounded.strokeMatchCost rnd dist a b = Rounded.strokeMatchCost rnd dist b a.
Proof.
  intros Hr Hsym. unfold Rounded.strokeMatchCost.
  rewrite (Hsym (x (Rounded.centroidOf rnd (points a)))
                (y (Rounded.centroidOf rnd (points a)))
                (x (Rounded.centroidOf rnd (points b)))
                (y (Rounded.centroidOf rnd (points b)))).
  rewrite (lenTerm_swap rnd Hr). reflexivity.
Qed.

Lemma cost_order_free_witness :
  Rounded.strokeMatchCost roundDouble distQ strokeA strokeB
  = Rounded.strokeMatchCost roundDouble distQ strokeB strokeA.
Proof.
  apply (cost_order_free roundDouble distQ strokeA strokeB).
  - exact roundDouble_spec.
  - exact distQ_symmetric.
Defined.

(* ------------------------------------------------------------------ *)
(** ** Doubles: where the resampling starts *)

Section FirstSample.

Variable rnd : Q -> num.
Hypothesis rnd_ok : RoundSpec rnd.
Variable dist : num -> num -> num -> num -> num.
Hypothesis dist_nn : forall x1 y1 x2 y2, notNegative (dist x1 y1 x2 y2).

(** The first turn of the sampling loop returns the first point. *)
Lemma samplePoint_first_rounded (x0 y0 x1 y1 : Q) (rest : list Point) (N : Z) :
  (2 <= N)%Z ->
  rnd x0 = Fin x0 -> rnd y0 = Fin y0 ->
  (Qabs (x1 - x0) <= maxDouble)%Q -> (Qabs (y1 - y0) <= maxDouble)%Q ->
  let p0 := {| x := Fin x0; y := Fin y0 |} in
  let p1 := {| x := Fin x1; y := Fin y1 |} in
  finite (Rounded.lengthOf rnd dist (p0 :: p1 :: rest)) ->
  let L := ofZ 0 :: Rounded.cumulative rnd dist (ofZ 0) p0 (p1 :: rest) in
  Rounded.samplePoint rnd (p0 :: p1 :: rest) L (last L NaN) N 0 = Ok p0.
Proof.
  intros HN Dx Dy Bx By p0 p1 Hfin L.
  assert (HL : Forall (lengthDouble rnd) L)
    by (apply (table_entries rnd rnd_ok dist dist_nn), Hfin).
  destruct (last_Forall (lengthDouble rnd) L NaN ltac:(discriminate) HL)
    as [T [ET [HT HT0]]].
  inversion HL as [|l0 Ltl _ Htl]; subst.
  cbn [Rounded.cumulative] in Htl.
  inversion Htl as [|l1 Ltl' [a1 [E1 [D1 P1]]] _]; subst.
  unfold Rounded.samplePoint. cbv zeta. rewrite ET.
  assert (Hden : ~ (inject_Z (N - 1) == 0)%Q).
  { intro E. assert (H : (0 < inject_Z (N - 1))%Q).
    { change 0%Q with (inject_Z 0). rewrite <- Zlt_Qlt. lia. }
    lra. }
  assert (Ek : Rounded.div rnd (ofNat 0) (ofZ (N - 1)) = Fin 0).
  { unfold Rounded.div, ofNat, ofZ. cbn [div].
    rewrite (proj2 (Qeq_bool_false _ _) Hden). cbn [rounded].
    rewrite (rnd_ext rnd rnd_ok _ 0)
      by (change (inject_Z (Z.of_nat 0)) with 0%Q; field; exact Hden).
    apply (rnd_zero rnd rnd_ok). }
  rewrite Ek.
  assert (Et : Rounded.mul rnd (Fin 0) (Fin T) = Fin 0).
  { unfold Rounded.mul. cbn [mul rounded].
    rewrite (rnd_ext rnd rnd_ok _ 0) by ring. apply (rnd_zero rnd rnd_ok). }
  rewrite Et.
  unfold L. cbn [tl Rounded.cumulative scan].
  fold p0 p1. rewrite E1. cbn [ltb].
  rewrite (proj2 (Qltb_false a1 0) P1).
  change (Nat.max 1 1) with 1%nat. cbn [Nat.sub nth].
  unfold Rounded.sub. cbn [sub rounded ofZ].
  rewrite (rnd_ext rnd rnd_ok (0 - inject_Z 0) 0) by (unfold inject_Z; ring).
  rewrite (rnd_zero rnd rnd_ok).
  rewrite (rnd_ext rnd rnd_ok (a1 - inject_Z 0) a1) by (unfold inject_Z; ring).
  rewrite D1.
  assert (Hu : Rounded.div rnd (Fin 0)
                 (orElse (Fin a1) (rnd (1 # 1000000000))) = Fin 0).
  { unfold orElse, truthy.
    destruct (Qeq_bool a1 0) eqn:Ea; cbn [negb].
    - destruct (rnd_tiny rnd rnd_ok) as [e [-> He]].
      unfold Rounded.div. cbn [div].
      assert (Hne : ~ (e == 0)%Q) by lra.
      rewrite (proj2 (Qeq_bool_false _ _) Hne). cbn [rounded].
      rewrite (rnd_ext rnd rnd_ok _ 0) by (field; exact Hne).
      apply (rnd_zero rnd rnd_ok).
    - unfold Rounded.div. cbn [div]. rewrite Ea. cbn [rounded].
      apply Qeq_bool_false in Ea.
      rewrite (rnd_ext rnd rnd_ok _ 0) by (field; exact Ea).
      apply (rnd_zero rnd rnd_ok). }
  rewrite Hu. cbn [index nth_error bind x y p0 p1].
  change (Fin 0) with (ofZ 0).
  rewrite (lerp_at_zero rnd rnd_ok x0 x1 Dx Bx).
  rewrite (lerp_at_zero rnd rnd_ok y0 y1 Dy By). reflexivity.
Qed.

End FirstSample.

(** X19: on doubles, resampling a polyline of two points or more and of
    finite length, whose coordinates are doubles of magnitude at most [M]
    with [2 M] in range, starts exactly where the polyline starts; [dist]
    is never below zero. *)
Theorem resample_first_point (rnd : Q -> num)
    (dist : num -> num -> num -> num -> num) (pts : list Point) (N : Z)
    (M : Q) :
  RoundSpec rnd ->
  (forall x1 y1 x2 y2, notNegative (dist x1 y1 x2 y2)) ->
  (2 <= length pts)%nat -> Forall (pointWithin rnd M) pts ->
  (2 * M <= maxDouble)%Q ->
  finite (Rounded.lengthOf rnd dist pts) ->
  exists o0 out,
    Rounded.resamplePointsLocal rnd dist pts N = Ok (o0 :: out) /\
    o0 = hd o0 pts.
Proof.
  intros Hr Hnn Hlen Hpts Hbig Hfin.
  destruct pts as [|p0 [|p1 rest]]; try (simpl in Hlen; lia).
  inversion Hpts as [|? ? [[x0 [Ex0 [Dx0 Bx0]]] [y0 [Ey0 [Dy0 By0]]]] Hpts'];
    subst.
  inversion Hpts' as [|? ? [[x1 [Ex1 [_ Bx1]]] [y1 [Ey1 [_ By1]]]] _]; subst.
  destruct p0 as [u0 v0], p1 as [u1 v1]. cbn [x y] in *. subst.
  assert (Hx := Qabs_sub_le x0 x1 M Bx0 Bx1).
  assert (Hy := Qabs_sub_le y0 y1 M By0 By1).
  set (p0 := {| x := Fin x0; y := Fin y0 |}) in *.
  set (p1 := {| x := Fin x1; y := Fin y1 |}) in *.
  unfold Rounded.resamplePointsLocal.
  set (L := ofZ 0 :: Rounded.cumulative rnd dist (ofZ 0) p0 (p1 :: rest)).
  destruct (seq_num (last L NaN) (ofZ 0)).
  - destruct (Z.to_nat (Z.max 2 N)) as [|n] eqn:E; [lia|].
    exists p0, (repeat p0 n). split; reflexivity.
  - assert (Hup : upto (Z.max 2 N) = 0%nat :: seq 1 (Z.to_nat (Z.max 2 N) - 1)).
    { unfold upto. destruct (Z.to_nat (Z.max 2 N)) as [|n] eqn:E; [lia|].
      cbn [seq]. replace (S n - 1)%nat with n by lia. reflexivity. }
    rewrite Hup. cbn [mapM].
    assert (E0 := samplePoint_first_rounded rnd Hr dist Hnn x0 y0 x1 y1 rest
                    (Z.max 2 N) ltac:(lia) Dx0 Dy0 ltac:(lra) ltac:(lra) Hfin).
    cbv zeta in E0. fold p0 p1 in E0. fold L in E0. rewrite E0. cbn [bind].
    destruct (@mapM_ok _ _
                (Rounded.samplePoint rnd (p0 :: p1 :: rest) L (last L NaN)
                                     (Z.max 2 N))
                (seq 1 (Z.to_nat (Z.max 2 N) - 1))) as [ws [Hws _]].
    { intros k Hk. apply in_seq in Hk.
      apply (samplePoint_rounded_returns rnd Hr dist Hnn);
        [discriminate | lia | lia]. }
    rewrite Hws. cbn [bind]. exists p0, ws. split; reflexivity.
Qed.

Lemma resample_first_point_witness :
  exists o0 out,
    Rounded.resamplePointsLocal roundDouble distQ (points strokeA) 5
    = Ok (o0 :: out) /\
    o0 = hd o0 (points strokeA).
Proof.
  apply (resample_first_point roundDouble distQ (points strokeA) 5 1000).
  - exact roundDouble_spec.
  - apply (dist_nonneg distQ distQ_spec).
  - simpl. lia.
  - apply examplePoints. cbn [strokeA points].
    repeat (apply Forall_cons || apply Forall_nil);
      eexists; eexists; (split; [reflexivity|]); split; lia.
  - vm_compute. discriminate.
  - eexists. vm_compute. reflexivity.
Defined.

(* ------------------------------------------------------------------ *)
(** ** Doubles: a stroke against itself *)

Section SameStroke.

Variable rnd : Q -> num.
Hypothesis rnd_ok : RoundSpec rnd.

(** Between a double and itself [lerp] stands still, whatever the
    amount. *)
Lemma lerp_same_rounded (q t : Q) :
  rnd q = Fin q -> Rounded.lerp rnd (Fin q) (Fin q) (Fin t) = Fin q.
Proof.
  intro Hq. unfold Rounded.lerp, Rounded.add, Rounded.mul, Rounded.sub.
  cbn [sub rounded].
  rewrite (rnd_ext rnd rnd_ok (q - q) 0) by ring.
  rewrite (rnd_zero rnd rnd_ok). cbn [mul rounded].
  rewrite (rnd_ext rnd rnd_ok (t * 0) 0) by ring.
  rewrite (rnd_zero rnd rnd_ok). cbn [add rounded].
  rewrite (rnd_ext rnd rnd_ok (0 + q) q) by ring.
  exact Hq.
Qed.

Lemma lerp_same_double (M : Q) (u : num) (t : Q) :
  doubleWithin rnd M u -> (Rounded.lerp rnd u u (Fin t) =n= u)%num.
Proof.
  intros [q [-> [Hq _]]]. rewrite (lerp_same_rounded q t Hq).
  cbn [num_eq]. reflexivity.
Qed.

Variable dist : num -> num -> num -> num -> num.
Hypothesis dist_nn : forall x1 y1 x2 y2, notNegative (dist x1 y1 x2 y2).

(** What the resampling returns finite is a double. *)
Lemma resample_doubles (M : Q) (pts out : list Point) (N : Z) :
  Forall (pointWithin rnd M) pts ->
  Rounded.resamplePointsLocal rnd dist pts N = Ok out ->
  forall p, In p out ->
    (forall q, x p = Fin q -> rnd q = Fin q) /\
    (forall q, y p = Fin q -> rnd q = Fin q).
Proof.
  intros Hpts Hout p Hp.
  assert (Hin : forall c, In c pts ->
            (forall q, x c = Fin q -> rnd q = Fin q) /\
            (forall q, y c = Fin q -> rnd q = Fin q)).
  { intros c Hc. rewrite Forall_forall in Hpts.
    destruct (Hpts c Hc) as [[cx [Ex [Dx _]]] [cy [Ey [Dy _]]]].
    split; intros q E.
    - rewrite Ex in E. injection E as <-. exact Dx.
    - rewrite Ey in E. injection E as <-. exact Dy. }
  destruct pts as [|p0 [|p1 rest]].
  - injection Hout as <-. contradiction.
  - injection Hout as <-. apply Hin, Hp.
  - unfold Rounded.resamplePointsLocal in Hout.
    destruct (seq_num _ _).
    + injection Hout as <-. apply repeat_spec in Hp. subst p.
      apply Hin. left. reflexivity.
    + assert (Hall : Forall (fun p =>
                (forall q, x p = Fin q -> rnd q = Fin q) /\
                (forall q, y p = Fin q -> rnd q = Fin q)) out).
      { eapply mapM_all; [|exact Hout].
        intros k v _ Hv. unfold Rounded.samplePoint in Hv. cbv zeta in Hv.
        destruct (index _ _) as [q0|]; [|discriminate].
        destruct (index _ _) as [q1|]; [|discriminate].
        cbn [bind] in Hv. injection Hv as <-. cbn [x y].
        split; intros q E; unfold Rounded.lerp, Rounded.add in E;
          exact (rounded_double rnd rnd_ok _ q E). }
      rewrite Forall_forall in Hall. apply Hall, Hp.
Qed.

End SameStroke.

Lemma map_combine_Forall2_diag {A B : Type} (f : A * A -> B)
    (R : B -> A -> Prop) (l : list A) :
  (forall q, In q l -> R (f (q, q)) q) ->
  Forall2 R (map f (combine l l)) l.
Proof.
  induction l as [|q l IH]; intro HR; simpl; constructor.
  - apply HR. left. reflexivity.
  - apply IH. intros q' Hq'. apply HR. right. exact Hq'.
Qed.

(** X22: on doubles, a stroke tweened against itself stands still.  For a
    stroke [a] of two points or more whose attributes are present and, as
    its coordinates, doubles, and for every finite [t],
    [tweenTwoStrokes(a, a, t, N)] returns a stroke with the attributes of
    [a]; when the resampled positions of [a] are finite numbers, its points
    are the first [max(0, N)] of them, all of them for [N >= 2].  [dist] is
    never below zero. *)
Theorem tween_same_stroke (rnd : Q -> num)
    (dist : num -> num -> num -> num -> num) (a : Stroke) (t : Q) (N : Z)
    (M : Q) :
  RoundSpec rnd ->
  (forall x1 y1 x2 y2, notNegative (dist x1 y1 x2 y2)) ->
  (2 <= length (points a))%nat -> attrsWithin rnd M a ->
  Forall (pointWithin rnd M) (points a) ->
  exists pa s,
    Rounded.resamplePointsLocal rnd dist (points a) N = Ok pa /\
    Rounded.tweenTwoStrokes rnd dist a a (Fin t) N = Ok s /\
    sameAttrs s a /\
    (Forall finitePoint pa ->
     Forall2 pointEq (points s) (firstn (Z.to_nat N) pa) /\
     ((2 <= N)%Z -> Forall2 pointEq (points s) pa)).
Proof.
  intros Hr Hnn Ha
         [Ah [As [Ab [[tha [Etha [Dtha Ttha]]] [oa [Eoa Doa]]]]]] Hpts.
  destruct (tween_rounded_returns rnd Hr dist Hnn a a (Fin t) N Ha Ha)
    as [pa [pb [s [Epa [Epb [Lpa [_ [Es [Ep [_ [_ [Eo [Et
        [Eh [Es' [Eb Ea]]]]]]]]]]]]]]]].
  rewrite Epa in Epb. injection Epb as <-.
  exists pa, s. split; [exact Epa|]. split; [exact Es|]. split.
  - unfold sameAttrs. rewrite Eh, Es', Eb, Ea, Et, Eo, Eoa, Etha.
    simpl nullish. simpl falsyOr. unfold orElse. rewrite Ttha.
    simpl optEq.
    repeat split; apply (lerp_same_double rnd Hr M); assumption.
  - intro Hfin. rewrite Forall_forall in Hfin.
    assert (H0 : Forall2 pointEq (points s) (firstn (Z.to_nat N) pa)).
    { rewrite Ep. apply map_combine_Forall2_diag.
      intros q Hq. apply In_firstn in Hq.
      destruct (Hfin q Hq) as [[qx Ex] [qy Ey]].
      destruct (resample_doubles rnd Hr dist M (points a) pa N Hpts Epa q Hq)
        as [Dx Dy].
      split; cbn [x y fst snd].
      - rewrite Ex. rewrite (lerp_same_rounded rnd Hr qx t (Dx qx Ex)).
        cbn [num_eq]. reflexivity.
      - rewrite Ey. rewrite (lerp_same_rounded rnd Hr qy t (Dy qy Ey)).
        cbn [num_eq]. reflexivity. }
    split; [exact H0|].
    intro HN. rewrite (firstn_all2 pa) in H0 by lia. exact H0.
Qed.

Lemma tween_same_stroke_witness :
  exists pa s,
    Rounded.resamplePointsLocal roundDouble distQ (points strokeA) 4 = Ok pa /\
    Rounded.tweenTwoStrokes roundDouble distQ strokeA strokeA (Fin (1 # 3)) 4
    = Ok s /\
    sameAttrs s strokeA.
Proof.
  destruct (tween_same_stroke roundDouble distQ strokeA (1 # 3) 4 1000)
    as [pa [s [E1 [E2 [E3 _]]]]].
  - exact roundDouble_spec.
  - apply (dist_nonneg distQ distQ_spec).
  - simpl. lia.
  - apply exampleAttrs; [reflexivity | left; reflexivity | left; reflexivity].
  - apply examplePoints. cbn [strokeA points].
    repeat (apply Forall_cons || apply Forall_nil);
      eexists; eexists; (split; [reflexivity|]); split; lia.
  - exists pa, s. split; [exact E1|]. split; [exact E2 | exact E3].
Defined.

(* ------------------------------------------------------------------ *)
(** ** Doubles: the resampled positions stay in range *)

(** X31: on doubles, every position returned by resampling a polyline of
    two points or more and of finite length, whose coordinates are doubles
    of magnitude at most [M] with [4 M + 1] in range, is a double of
    magnitude at most [sampleBound M]: no NaN and no infinity comes out,
    and no position is further from zero than the rounding of a [lerp]
    between two points of the polyline allows. *)
Theorem resample_stays_within (rnd : Q -> num)
    (dist : num -> num -> num -> num -> num) (pts : list Point) (N : Z)
    (M : Q) :
  RoundSpec rnd ->
  (forall x1 y1 x2 y2, notNegative (dist x1 y1 x2 y2)) ->
  (2 <= length pts)%nat -> Forall (pointWithin rnd M) pts ->
  (4 * M + 1 <= maxDouble)%Q ->
  finite (Rounded.lengthOf rnd dist pts) ->
  exists out,
    Rounded.resamplePointsLocal rnd dist pts N = Ok out /\
    length out = Z.to_nat (Z.max 2 N) /\
    Forall (pointWithin rnd (sampleBound M)) out.
Proof.
  intros Hr Hnn Hlen Hpts Hbig Hfin.
  destruct (resample_rounded_returns rnd Hr dist Hnn pts N)
    as [out [Eout [_ Lout]]].
  exists out. split; [exact Eout|]. split; [exact (Lout Hlen)|].
  assert (HM : (0 <= M)%Q).
  { destruct pts as [|p l]; [simpl in Hlen; lia|].
    inversion Hpts as [|? ? [[q [_ [_ Hq]]] _] _]; subst.
    assert (H := Qabs_nonneg q). lra. }
  assert (HMs := sampleBound_ge M HM).
  rewrite Forall_forall in Hpts.
  apply (resample_within rnd Hr dist Hnn M pts out N Hlen Hbig);
    [| | exact Hfin | exact Eout].
  - intros c Hc. destruct (Hpts c Hc) as [[cx [Ex [_ Bx]]] [cy [Ey [_ By]]]].
    exists cx, cy. destruct c as [u v]. cbn [x y] in Ex, Ey. subst u v.
    split; [reflexivity | split; assumption].
  - intros c Hc. destruct (Hpts c Hc) as [Hx Hy].
    split; apply (doubleWithin_le rnd M); assumption.
Qed.

Lemma resample_stays_within_witness :
  exists out,
    Rounded.resamplePointsLocal roundDouble distQ (points strokeA) 7 = Ok out /\
    length out = 7%nat /\
    Forall (pointWithin roundDouble (sampleBound 1000)) out.
Proof.
  apply (resample_stays_within roundDouble distQ (points strokeA) 7 1000).
  - exact roundDouble_spec.
  - apply (dist_nonneg distQ distQ_spec).
  - simpl. lia.
  - apply examplePoints. cbn [strokeA points].
    repeat (apply Forall_cons || apply Forall_nil);
      eexists; eexists; (split; [reflexivity|]); split; lia.
  - vm_compute. discriminate.
  - eexists. vm_compute. reflexivity.
Defined.
